(** * Kokoro-TTS-spanish: grapheme-to-phoneme pipeline and phoneme tokenizer

    A shallow embedding of [g2p_lib.py] (the Spanish grapheme-to-phoneme
    rewriting pipeline) and of [tokenize_ipa] / [get_phoneme_map] from
    [tts-kokoro-esp.py], followed by the properties of the written
    specification stated and proved over the embedding.

    Python's [str] is a sequence of Unicode code points: it is modelled as a
    list of code points ([N]).  Literals are written as UTF-8 text and decoded
    by [u]. *)

From Stdlib Require Import List Sorted NArith ZArith Arith Bool Lia.
From Stdlib Require Import Strings.Ascii.
From Stdlib Require Strings.String.
Import String.StringSyntax.
Import ListNotations.

(* ================================================================== *)
(** * The Python runtime the program calls *)
(* ================================================================== *)

Module Py.

(** A character is its code point, a string the list of its characters. *)
Abbreviation char := N (only parsing).
Abbreviation str := (list N) (only parsing).

(** ** Literals: UTF-8 text to code points *)

Definition cont (b : N) : N := N.land b 63.

Fixpoint utf8_decode (bs : list N) : str :=
  match bs with
  | [] => []
  | b :: rest =>
      if (b <? 128)%N then b :: utf8_decode rest
      else if (b <? 224)%N then
        match rest with
        | b1 :: rest1 =>
            (N.shiftl (N.land b 31) 6 + cont b1)%N :: utf8_decode rest1
        | [] => [b]
        end
      else if (b <? 240)%N then
        match rest with
        | b1 :: b2 :: rest2 =>
            (N.shiftl (N.land b 15) 12 + N.shiftl (cont b1) 6 + cont b2)%N
              :: utf8_decode rest2
        | _ => [b]
        end
      else
        match rest with
        | b1 :: b2 :: b3 :: rest3 =>
            (N.shiftl (N.land b 7) 18 + N.shiftl (cont b1) 12
             + N.shiftl (cont b2) 6 + cont b3)%N :: utf8_decode rest3
        | _ => [b]
        end
  end.

Fixpoint bytes_of (s : String.string) : list N :=
  match s with
  | String.EmptyString => []
  | String.String a s' => N_of_ascii a :: bytes_of s'
  end.

(** [u "..."] is the Python string written between the quotes. *)
Definition u (s : String.string) : str := utf8_decode (bytes_of s).
Delimit Scope string_scope with string.
Arguments u s%_string.

(** ** Characters and character classes *)

Definition eqc (a b : char) : bool := N.eqb a b.

(** [c in "..."] for a one-character [c], and [[...]] in a pattern. *)
Definition char_in (c : char) (cls : str) : bool := existsb (eqc c) cls.

Fixpoint eqs (a b : str) : bool :=
  match a, b with
  | [], [] => true
  | x :: a', y :: b' => eqc x y && eqs a' b'
  | _, _ => false
  end.

(** [Py_UNICODE_ISSPACE]: what [str.strip()] removes and what [\s] matches in
    a [str] pattern. *)
Definition isspace (c : char) : bool :=
  ((9 <=? c) && (c <=? 13) || (28 <=? c) && (c <=? 32)
   || (c =? 133) || (c =? 160) || (c =? 5760)
   || (8192 <=? c) && (c <=? 8202)
   || (c =? 8232) || (c =? 8233) || (c =? 8239) || (c =? 8287)
   || (c =? 12288))%N.

Definition space : char := 32%N.
Definition newline : char := 10%N.

(** ** Slices, prefixes and suffixes *)

Fixpoint startswith (p s : str) : bool :=
  match p, s with
  | [], _ => true
  | x :: p', y :: s' => eqc x y && startswith p' s'
  | _ :: _, [] => false
  end.

(** [s.startswith(p, i)] *)
Definition startswith_at (p s : str) (i : nat) : bool := startswith p (skipn i s).

Definition endswith (p s : str) : bool := startswith (rev p) (rev s).

(** [s.endswith((p1, p2, ...))] *)
Definition endswith_any (ps : list str) (s : str) : bool :=
  existsb (fun p => endswith p s) ps.

(** [tuple(s)]: the one-character strings of [s]. *)
Definition tuple (s : str) : list str := map (fun c => [c]) s.

(** [s[i:j]] for [0 <= i], [0 <= j]. *)
Definition slice (s : str) (i j : nat) : str := firstn (j - i) (skipn i s).

(** ** strip, split, join *)

Fixpoint dropwhile (p : char -> bool) (s : str) : str :=
  match s with
  | [] => []
  | c :: s' => if p c then dropwhile p s' else s
  end.

Definition lstrip_by (p : char -> bool) (s : str) : str := dropwhile p s.
Definition rstrip_by (p : char -> bool) (s : str) : str :=
  rev (dropwhile p (rev s)).
Definition strip_by (p : char -> bool) (s : str) : str :=
  rstrip_by p (lstrip_by p s).

(** [s.strip()] *)
Definition strip (s : str) : str := strip_by isspace s.
(** [s.strip(chars)] *)
Definition strip_chars (chars s : str) : str :=
  strip_by (fun c => char_in c chars) s.

(** [s.split(sep)] for a one-character [sep]: never the empty list. *)
Fixpoint split (sep : char) (s : str) : list str :=
  match s with
  | [] => [[]]
  | c :: s' =>
      if eqc c sep then [] :: split sep s'
      else match split sep s' with
           | w :: ws => (c :: w) :: ws
           | [] => [[c]]
           end
  end.

(** [sep.join(l)] *)
Fixpoint join (sep : str) (l : list str) : str :=
  match l with
  | [] => []
  | [x] => x
  | x :: l' => x ++ sep ++ join sep l'
  end.

(** ** Regular-expression substitution

    A pattern is read at one position of the subject string: it sees the
    text before the position (nearest character first, for [^] and
    lookbehind) and the text from the position on (for the match itself,
    lookahead and [$]), and answers with the length of its match there.
    No pattern of this program matches the empty string, so a match of
    length 0 counts as no match. *)

Definition pattern := str -> str -> option nat.

(** [re.sub]: leftmost, non-overlapping matches; [repl] receives the matched
    text.  [skip] counts the characters of the current match still to pass. *)
Fixpoint sub_from (pat : pattern) (repl : str -> str)
                  (before rest : str) (skip : nat) : str :=
  match rest with
  | [] => []
  | c :: rest' =>
      match skip with
      | S k => sub_from pat repl (c :: before) rest' k
      | O =>
          match pat before rest with
          | Some (S n) =>
              repl (firstn (S n) rest) ++ sub_from pat repl (c :: before) rest' n
          | _ => c :: sub_from pat repl (c :: before) rest' 0
          end
      end
  end.

Definition re_sub (pat : pattern) (repl : str -> str) (s : str) : str :=
  sub_from pat repl [] s 0.

(** [re.finditer]: the spans [(start, end)] of the matches. *)
Fixpoint finditer_from (pat : pattern) (before rest : str)
                       (pos skip : nat) : list (nat * nat) :=
  match rest with
  | [] => []
  | c :: rest' =>
      match skip with
      | S k => finditer_from pat (c :: before) rest' (S pos) k
      | O =>
          match pat before rest with
          | Some (S n) =>
              (pos, pos + S n) :: finditer_from pat (c :: before) rest' (S pos) n
          | _ => finditer_from pat (c :: before) rest' (S pos) 0
          end
      end
  end.

Definition re_finditer (pat : pattern) (s : str) : list (nat * nat) :=
  finditer_from pat [] s 0 0.

(** [re.search(pat, s).start()] for a one-character class pattern. *)
Fixpoint search_class (cls : str) (s : str) : option nat :=
  match s with
  | [] => None
  | c :: s' =>
      if char_in c cls then Some 0
      else option_map S (search_class cls s')
  end.

(** *** The pattern forms the program uses *)

(** A literal [lit]; also the pattern of [s.replace(lit, ...)]. *)
Definition p_lit (lit : str) : pattern :=
  fun _ rest => if startswith lit rest then Some (length lit) else None.

(** [lit(?=[cls])] *)
Definition p_lit_before (lit cls : str) : pattern :=
  fun _ rest =>
    if startswith lit rest then
      match skipn (length lit) rest with
      | c :: _ => if char_in c cls then Some (length lit) else None
      | [] => None
      end
    else None.

(** [lit(?=lit2)] *)
Definition p_lit_before_lit (lit lit2 : str) : pattern :=
  fun _ rest => if startswith (lit ++ lit2) rest then Some (length lit) else None.

(** [lit(?=lit2(?=[cls]))] *)
Definition p_lit_before_lit_before (lit lit2 cls : str) : pattern :=
  fun _ rest =>
    if startswith lit rest then
      match p_lit_before lit2 cls [] (skipn (length lit) rest) with
      | Some _ => Some (length lit)
      | None => None
      end
    else None.

(** [^lit(?=[cls])] *)
Definition p_bol_lit_before (lit cls : str) : pattern :=
  fun before rest =>
    match before with
    | [] => p_lit_before lit cls before rest
    | _ :: _ => None
    end.

(** [(?<=[^cls])lit(?=[cls2])] *)
Definition p_after_not_lit_before (cls lit cls2 : str) : pattern :=
  fun before rest =>
    match before with
    | b :: _ => if char_in b cls then None else p_lit_before lit cls2 before rest
    | [] => None
    end.

(** [$] without MULTILINE: the end of the string, or just before a newline
    that ends it. *)
Definition at_eol (rest : str) : bool :=
  match rest with
  | [] => true
  | [c] => eqc c newline
  | _ => false
  end.

(** [(?<=[cls])lit$] *)
Definition p_after_lit_eol (cls lit : str) : pattern :=
  fun before rest =>
    match before with
    | b :: _ =>
        if char_in b cls && startswith lit rest && at_eol (skipn (length lit) rest)
        then Some (length lit) else None
    | [] => None
    end.

(** [(?<=[cls])lit] *)
Definition p_after_lit (cls lit : str) : pattern :=
  fun before rest =>
    match before with
    | b :: _ => if char_in b cls && startswith lit rest then Some (length lit) else None
    | [] => None
    end.

(** [[cls]] *)
Definition p_class (cls : str) : pattern :=
  fun _ rest =>
    match rest with
    | c :: _ => if char_in c cls then Some 1 else None
    | [] => None
    end.

Fixpoint run_length (p : char -> bool) (s : str) : nat :=
  match s with
  | c :: s' => if p c then S (run_length p s') else 0
  | [] => 0
  end.

(** [[cls]+] and [\s+]: the longest run from the position. *)
Definition p_plus (p : char -> bool) : pattern :=
  fun _ rest => match run_length p rest with 0 => None | n => Some n end.

(** [([cls])lit] *)
Definition p_class_lit (cls lit : str) : pattern :=
  fun _ rest =>
    match rest with
    | c :: rest' =>
        if char_in c cls && startswith lit rest' then Some (S (length lit)) else None
    | [] => None
    end.

(** [s.replace(old, new)], for a non-empty [old] (every call of the program). *)
Definition replace (old new : str) (s : str) : str :=
  re_sub (p_lit old) (fun _ => new) s.

End Py.


(* ================================================================== *)
(** * g2p_lib.py: Spanish graphemes to phones *)
(* ================================================================== *)

Module G2P.
Import Py.

(** ** Configuration knobs *)

Definition NASAL_ASSIMILATION : bool := false.
Definition GLIDE_MODE : str := Eval vm_compute in u "safe".

(** ** Character classes *)

Definition VOWELS : str := Eval vm_compute in u "aeiou".
Definition VOWELS_ACCENTED : str := Eval vm_compute in u "áéíóú".
Definition ALL_VOWELS : str := Eval vm_compute in VOWELS ++ VOWELS_ACCENTED.

(** A translation table or a [dict] on characters, as its items. *)
Definition lookup (c : char) (table : list (char * char)) : option char :=
  option_map snd (find (fun kv => eqc c (fst kv)) table).

(** [str.maketrans(VOWELS_ACCENTED, VOWELS)] *)
Definition ACUTE_MAP : list (char * char) :=
  Eval vm_compute in combine VOWELS_ACCENTED VOWELS.

Definition ACCENT_VOWEL_MAP : list (char * char) :=
  Eval vm_compute in combine VOWELS VOWELS_ACCENTED.

Definition QUOTE : char := 34%N.

Definition _PUNCT_CHARS : str :=
  Eval vm_compute in u ",.;:¡!¿?()[]{}" ++ [QUOTE] ++ u "«»“”—–…".

(** [_PUNCT_RE] is the class of the punctuation characters, and
    [_PUNCT_SET] the set of them. *)
Definition is_punct (c : char) : bool := char_in c _PUNCT_CHARS.

(** ** Utilities *)

Definition _space_punct (text : str) : str :=
  let text := re_sub (p_class _PUNCT_CHARS) (fun m => [space] ++ m ++ [space]) text in
  let text := re_sub (p_lit (u "...")) (fun _ => u " . . . ") text in
  strip (re_sub (p_plus isspace) (fun _ => [space]) text).

(** [s.translate(ACUTE_MAP)]: a character of the table goes to its image,
    any other stays. *)
Definition translate (table : list (char * char)) (s : str) : str :=
  map (fun c => match lookup c table with Some d => d | None => c end) s.

Definition strip_accents (s : str) : str := translate ACUTE_MAP s.

(** ** Core mapping *)

(** The classes of the patterns below. *)
Definition FRONT : str := Eval vm_compute in u "eéií".
Definition BACK : str := Eval vm_compute in u "aouáóú".

Definition PLACEHOLDER : str := Eval vm_compute in u "RRR".

(** The last step of [map_graphemes] (lines 112 to 119): r/rr and onset-r
    strengthening. *)
Definition rhotics (w : str) : str :=
  let w := replace (u "rr") PLACEHOLDER w in
  let w := if startswith (u "r") w then PLACEHOLDER ++ skipn 1 w else w in
  let w := re_sub (p_class_lit (u "lns") (u "r"))
                  (fun m => firstn 1 m ++ PLACEHOLDER) w in
  let w := replace (u "r") (u "ɾ") w in
  replace PLACEHOLDER (u "r") w.

(** The first step of [map_graphemes]: optional nasal assimilation. *)
Definition nasal_assimilation (w : str) : str :=
  if NASAL_ASSIMILATION then
    let w := re_sub (p_lit_before_lit (u "n") (u "g")) (fun _ => u "ŋ") w in
    let w := re_sub (p_lit_before_lit (u "n") (u "k")) (fun _ => u "ŋ") w in
    let w := re_sub (p_lit_before_lit (u "n") (u "qu")) (fun _ => u "ŋ") w in
    re_sub (p_lit_before_lit_before (u "n") (u "c") BACK) (fun _ => u "ŋ") w
  else w.

(** The steps of [map_graphemes] between the test for the lone y and the
    r/rr step (lines 68 to 110). *)
Definition consonants (w : str) : str :=
  (* ch *)
  let w := replace (u "ch") (u "ʧ") w in
  (* x rules *)
  let w := if startswith (u "x") w then u "s" ++ skipn 1 w else w in
  let w := replace (u "x") (u "ks") w in
  (* j / g before e,i *)
  let w := re_sub (p_lit_before (u "g") FRONT) (fun _ => u "x") w in
  let w := replace (u "j") (u "x") w in
  (* gu + e/i, and the diaeresis *)
  let w := re_sub (p_lit_before (u "gu") FRONT) (fun _ => u "g") w in
  let w := replace (u "gü") (u "gw") w in
  (* c / z / qu rules *)
  let w := re_sub (p_lit_before (u "c") FRONT) (fun _ => u "s") w in
  let w := replace (u "z") (u "s") w in
  let w := replace (u "c") (u "k") w in
  let w := re_sub (p_lit_before (u "qu") FRONT) (fun _ => u "k") w in
  (* v *)
  let w := replace (u "v") (u "b") w in
  (* hi/hu before vowel; plain h silent *)
  let w := re_sub (p_lit_before (u "hi") ALL_VOWELS) (fun _ => u "j") w in
  let w := re_sub (p_lit_before (u "hu") ALL_VOWELS) (fun _ => u "w") w in
  let w := replace (u "h") [] w in
  (* n with tilde *)
  let w := replace (u "ñ") (u "ɲ") w in
  (* ll / y *)
  let w := replace (u "ll") (u "ʝ") w in
  let w := re_sub (p_bol_lit_before (u "y") ALL_VOWELS) (fun _ => u "ʝ") w in
  let w := re_sub (p_after_not_lit_before ALL_VOWELS (u "y") ALL_VOWELS)
                  (fun _ => u "ʝ") w in
  let w := re_sub (p_after_lit_eol ALL_VOWELS (u "y")) (fun _ => u "j") w in
  (* word-final n *)
  if NASAL_ASSIMILATION && endswith (u "n") w then removelast w ++ u "ŋ" else w.

Section Unicode.

(** The two functions of Python's Unicode database the program calls:
    [unicodedata.normalize('NFC', _)] and [str.lower]. *)
Variable normalize_NFC : str -> str.
Variable lower : str -> str.

Definition _normalize_nfc (text : str) : str := normalize_NFC text.

Definition normalize_word (word : str) : str := lower word.

Definition map_graphemes (word : str) : str :=
  let w := normalize_word word in
  let w := nasal_assimilation w in
  if eqs w (u "y") then u "i"
  else rhotics (consonants w).

End Unicode.

(** ** Stress *)

Definition is_vowel (c : char) : bool := char_in c ALL_VOWELS.

(** [any(v in phonemes for v in VOWELS_ACCENTED)] *)
Definition has_accent (phonemes : str) : bool :=
  existsb (fun v => char_in v phonemes) VOWELS_ACCENTED.

(** The [for j in range(g.start(), g.end())] loop, [count] indices from [j]
    on; [phonemes] is returned when the loop finds no plain vowel.  The
    index [j] stays inside the string and a plain vowel is a key of
    [ACCENT_VOWEL_MAP], so the two [None] branches (an IndexError, a
    KeyError) are never taken. *)
Fixpoint accent_first_plain (phonemes : str) (j count : nat) : str :=
  match count with
  | O => phonemes
  | S count' =>
      match nth_error phonemes j with
      | Some ch =>
          if char_in ch VOWELS then
            match lookup ch ACCENT_VOWEL_MAP with
            | Some a => firstn j phonemes ++ [a] ++ skipn (j + 1) phonemes
            | None => phonemes
            end
          else accent_first_plain phonemes (S j) count'
      | None => phonemes
      end
  end.

Definition ends_like_penult (phonemes : str) : bool :=
  endswith_any (tuple VOWELS) phonemes || endswith_any [u "n"; u "s"] phonemes.

(** [groups[target_idx]] is in range once there are two groups or more, so
    the [None] branch (an IndexError) is never taken. *)
Definition add_stress_if_needed (phonemes : str) : str :=
  if has_accent phonemes then phonemes
  else
    let groups := re_finditer (p_plus is_vowel) phonemes in
    if length groups <=? 1 then phonemes
    else
      let target_idx :=
        (Z.of_nat (length groups) - (if ends_like_penult phonemes then 2 else 1))%Z in
      let target_idx := if (target_idx <? 0)%Z then 0%Z else target_idx in
      match nth_error groups (Z.to_nat target_idx) with
      | Some (g_start, g_end) =>
          accent_first_plain phonemes g_start (g_end - g_start)
      | None => phonemes
      end.

(** ** Glides *)

Definition apply_glides (phonemes : str) : str :=
  if negb (eqs GLIDE_MODE (u "full")) then phonemes
  else
    let phonemes := re_sub (p_lit_before (u "i") (u "aeoáéó")) (fun _ => u "j") phonemes in
    let phonemes := re_sub (p_lit_before (u "u") (u "aeioáéíó")) (fun _ => u "w") phonemes in
    let phonemes := re_sub (p_after_lit (u "aeoáéó") (u "i")) (fun _ => u "j") phonemes in
    re_sub (p_after_lit (u "aeioáéíó") (u "u")) (fun _ => u "w") phonemes.

(** ** The stress marker *)

Definition STRESS : str := Eval vm_compute in u "ˈ".
Definition GLIDES : str := Eval vm_compute in u "jw".

Definition insert_stress_marker_and_clean (phonemes : str) : str :=
  match search_class VOWELS_ACCENTED phonemes with
  | None => strip_accents phonemes
  | Some pos =>
      let start_pos :=
        if (0 <? pos) &&
           match nth_error phonemes (pos - 1) with
           | Some c => char_in c GLIDES
           | None => false
           end
        then pos - 1 else pos in
      let base := strip_accents (slice phonemes pos (pos + 1)) in
      let out := firstn start_pos phonemes ++ STRESS
                 ++ slice phonemes start_pos pos ++ base
                 ++ skipn (pos + 1) phonemes in
      strip_accents out
  end.

(** ** Public API *)

Section Unicode.

Variable normalize_NFC : str -> str.
Variable lower : str -> str.

(** What one word token contributes to the output. *)
Definition phones (tok : str) : str :=
  let p1 := map_graphemes lower tok in
  let p2 := add_stress_if_needed p1 in
  let p3 := apply_glides p2 in
  insert_stress_marker_and_clean p3.

(** One turn of the [for tok in text.split(" ")] loop. *)
Definition g2p_step (out : list str) (tok : str) : list str :=
  match tok with
  | [] => out
  | _ :: _ =>
      if forallb is_punct tok then out ++ [tok]
      else out ++ [phones tok]
  end.

(** The list [out] the loop builds from the normalized text. *)
Definition g2p_out (text : str) : list str :=
  fold_left g2p_step (split space text) [].

Definition g2p (text : str) : str :=
  match text with
  | [] => u "//"
  | _ :: _ =>
      let text := _normalize_nfc normalize_NFC text in
      let text := _space_punct text in
      let out := g2p_out text in
      let result := strip (join (u " ") out) in
      match result with
      | [] => u "//"
      | _ :: _ => u "/ " ++ result ++ u " /"
      end
  end.

End Unicode.

(** ** A Unicode database for plain text

    On text that is already composed and whose only capital letters are
    A to Z, NFC is the identity and [str.lower] maps A-Z to a-z; the concrete
    examples below are of that kind and run the pipeline with these. *)
Module Ascii.

Definition nfc (s : str) : str := s.

Definition lower_char (c : char) : char :=
  if ((65 <=? c) && (c <=? 90))%N then (c + 32)%N else c.

Definition lower (s : str) : str := map lower_char s.

Definition g2p (text : str) : str := G2P.g2p nfc lower text.
Definition map_graphemes (word : str) : str := G2P.map_graphemes lower word.
Definition phones (tok : str) : str := G2P.phones lower tok.

End Ascii.

End G2P.

(* ================================================================== *)
(** * tts-kokoro-esp.py: the phoneme vocabulary and the tokenizer *)
(* ================================================================== *)

Module Tokenizer.
Import Py.

(** A [dict] from phoneme symbols to ids, as its items in insertion order
    (the order [sorted] starts from). *)
Definition vocabulary := list (str * Z).

Definition keys (d : vocabulary) : list str := map fst d.

(** [k in d] *)
Definition contains (d : vocabulary) (k : str) : bool := existsb (eqs k) (keys d).

Definition get_phoneme_map : vocabulary := Eval vm_compute in
  [
    (u ";", 1); (u ":", 2); (u ",", 3); (u ".", 4); (u "!", 5); (u "?", 6);
    (u "—", 9); (u "…", 10); ([34%N], 11); (u "(", 12); (u ")", 13);
    (u "“", 14); (u "”", 15); (u " ", 16); ([771%N], 17); (u "ʣ", 18);
    (u "ʥ", 19); (u "ʦ", 20); (u "ʨ", 21); (u "ᵝ", 22); ([43879%N], 23);
    (u "A", 24); (u "I", 25); (u "O", 31); (u "Q", 33); (u "S", 35);
    (u "T", 36); (u "W", 39); (u "Y", 41); (u "ᵊ", 42); (u "a", 43);
    (u "b", 44); (u "c", 45); (u "d", 46); (u "e", 47); (u "f", 48);
    (u "h", 50); (u "i", 51); (u "j", 52); (u "k", 53); (u "l", 54);
    (u "m", 55); (u "n", 56); (u "o", 57); (u "p", 58); (u "q", 59);
    (u "r", 60); (u "s", 61); (u "t", 62); (u "u", 63); (u "v", 64);
    (u "w", 65); (u "x", 66); (u "y", 67); (u "z", 68); (u "ɑ", 69);
    (u "ɐ", 70); (u "ɒ", 71); (u "æ", 72); (u "β", 75); (u "ɔ", 76);
    (u "ɕ", 77); (u "ç", 78); (u "ɖ", 80); (u "ð", 81); (u "ʤ", 82);
    (u "ə", 83); (u "ɚ", 85); (u "ɛ", 86); (u "ɜ", 87); (u "ɟ", 90);
    (u "g", 92); (u "ɥ", 99); (u "ɨ", 101); (u "ɪ", 102); (u "ʝ", 103);
    (u "ɯ", 110); (u "ɰ", 111); (u "ŋ", 112); (u "ɳ", 113); (u "ɲ", 114);
    (u "ɴ", 115); (u "ø", 116); (u "ɸ", 118); (u "θ", 119); (u "œ", 120);
    (u "ɹ", 123); (u "ɾ", 125); (u "ɻ", 126); (u "ʁ", 128); (u "ɽ", 129);
    (u "ʂ", 130); (u "ʃ", 131); (u "ʈ", 132); (u "ʧ", 133); (u "ʊ", 135);
    (u "ʋ", 136); (u "ʌ", 138); (u "ɣ", 139); (u "ɤ", 140); (u "χ", 142);
    (u "ʎ", 143); (u "ʒ", 147); (u "ʔ", 148); (u "ˈ", 156); (u "ˌ", 157);
    (u "ː", 158); (u "ʰ", 162); (u "ʲ", 164); (u "↓", 169); (u "→", 171);
    (u "↗", 172); (u "↘", 173); (u "ᵻ", 177)
  ]%Z.

Definition STRESS : str := Eval vm_compute in u "ˈ".
Definition TESH : str := Eval vm_compute in u "ʧ".
Definition T_ESH : str := Eval vm_compute in u "tʃ".
Definition SLASH : str := Eval vm_compute in u "/".

(** [sorted(ks, key=len, reverse=True)]: longest first; the sort is stable, so
    keys of one length keep their order. *)
Fixpoint insert_by_len (k : str) (sorted : list str) : list str :=
  match sorted with
  | [] => [k]
  | x :: rest =>
      if length k <? length x then x :: insert_by_len k rest
      else k :: sorted
  end.

Definition sorted_by_len_desc (ks : list str) : list str :=
  fold_right insert_by_len [] ks.

(** The text the scan runs over: outer whitespace, then outer slashes
    stripped; the stress mark dropped unless it is kept and mapped; the
    two-character affricate rewritten when only the ligature is mapped. *)
Definition preprocess (ipa_text : str) (phoneme_to_id : vocabulary)
                      (keep_stress_if_mapped : bool) : str :=
  let s := strip_chars SLASH (strip ipa_text) in
  let s := if negb (keep_stress_if_mapped && contains phoneme_to_id STRESS)
           then replace STRESS [] s else s in
  let s := if contains phoneme_to_id TESH && negb (contains phoneme_to_id T_ESH)
           then replace T_ESH TESH s else s in
  s.

(** [k and s.startswith(k, i)] *)
Definition key_matches (s : str) (i : nat) (k : str) : bool :=
  match k with
  | [] => false
  | _ :: _ => startswith_at k s i
  end.

(** The [while i < n] loop; [fuel] bounds the number of iterations, and
    [None] is a loop cut short.  ([s[i]] is in range under [i < n], so the
    inner [None], an IndexError, is never taken.) *)
Fixpoint tokenize_loop (fuel : nat) (ks : list str) (s : str) (i : nat)
                       (tokens : list str) (unknown : list char)
  : option (list str * list char) :=
  if i <? length s then
    match fuel with
    | O => None
    | S fuel' =>
        match find (key_matches s i) ks with
        | Some k =>
            tokenize_loop fuel' ks s (i + length k) (tokens ++ [k]) unknown
        | None =>
            match nth_error s i with
            | Some c => tokenize_loop fuel' ks s (i + 1) tokens (unknown ++ [c])
            | None => None
            end
        end
    end
  else Some (tokens, unknown).

Definition tokenize_with_fuel (fuel : nat) (ipa_text : str)
    (phoneme_to_id : vocabulary) (keep_stress_if_mapped : bool)
  : option (list str * list char) :=
  let s := preprocess ipa_text phoneme_to_id keep_stress_if_mapped in
  let ks := sorted_by_len_desc (keys phoneme_to_id) in
  tokenize_loop fuel ks s 0 [] [].

(** [tokenize_ipa]: the loop gets one iteration per character of the
    preprocessed text. *)
Definition tokenize_ipa (ipa_text : str) (phoneme_to_id : vocabulary)
                        (keep_stress_if_mapped : bool)
  : option (list str * list char) :=
  tokenize_with_fuel
    (length (preprocess ipa_text phoneme_to_id keep_stress_if_mapped))
    ipa_text phoneme_to_id keep_stress_if_mapped.

(** ** The specification's reading of the scan *)

Definition is_prefix (k s : str) : Prop := exists t, s = k ++ t.

(** Greedy longest match over the symbols [ks] (non-empty keys; the empty
    string is no symbol): from the text still to scan, the tokens emitted and
    the characters reported as unmapped. *)
Inductive greedy (ks : list str) : str -> list str -> list char -> Prop :=
| greedy_end : greedy ks [] [] []
| greedy_match k rest ts us :
    In k ks -> k <> [] ->
    (forall k', In k' ks -> k' <> [] -> is_prefix k' (k ++ rest) ->
                length k' <= length k) ->
    greedy ks rest ts us ->
    greedy ks (k ++ rest) (k :: ts) us
| greedy_unmapped c rest ts us :
    (forall k, In k ks -> k <> [] -> ~ is_prefix k (c :: rest)) ->
    greedy ks rest ts us ->
    greedy ks (c :: rest) ts (c :: us).

(** [s] is the tokens [ts] and the unmapped characters [us], each list in
    its order, laid end to end in some interleaving. *)
Inductive interleaved : list str -> list char -> str -> Prop :=
| interleaved_nil : interleaved [] [] []
| interleaved_token k ts us s :
    interleaved ts us s -> interleaved (k :: ts) us (k ++ s)
| interleaved_unmapped c ts us s :
    interleaved ts us s -> interleaved ts (c :: us) (c :: s).

(** The order [sorted_by_len_desc] establishes. *)
Definition longer_first (a b : str) : Prop := length b <= length a.

(** A vocabulary all of whose keys are one character (or empty). *)
Definition single_chars (d : vocabulary) : Prop :=
  forall k, In k (keys d) -> length k <= 1.

(** A vocabulary with a key that is twice another. *)
Definition overlap_vocabulary : vocabulary := Eval vm_compute in
  [(u "a", 1); (u "aa", 2)]%Z.

(** The vocabulary of the first scenario of the specification. *)
Definition kasa_vocabulary : vocabulary := Eval vm_compute in
  [(u "k", 53); (u "ˈ", 156); (u "a", 43); (u "s", 61)]%Z.

End Tokenizer.

(* ================================================================== *)
(** * tts-kokoro-esp.py: from a line of text to the model's input *)
(* ================================================================== *)

Module App.
Import Py Tokenizer.

(** [phoneme_to_id[t]]; [None] is a KeyError.  A [dict] built from items
    keeps the last value given for a key. *)
Definition getitem (d : vocabulary) (k : str) : option Z :=
  option_map snd (find (fun kv => eqs k (fst kv)) (rev d)).

(** [[phoneme_to_id[t] for t in toks]]; the first KeyError ends it. *)
Fixpoint token_ids (d : vocabulary) (toks : list str) : option (list Z) :=
  match toks with
  | [] => Some []
  | t :: toks' =>
      match getitem d t with
      | None => None
      | Some id =>
          match token_ids d toks' with
          | None => None
          | Some ids => Some (id :: ids)
          end
      end
  end.

Definition MAX_TOKENS : nat := 510.

(** [if len(token_ids) > 510: token_ids = token_ids[:510]] *)
Definition truncate (ids : list Z) : list Z :=
  if MAX_TOKENS <? length ids then firstn MAX_TOKENS ids else ids.

(** [min(len(token_ids), voices.shape[0] - 1)], with [n_voices] the number
    of rows of the voice file. *)
Definition style_index (ids : list Z) (n_voices : Z) : Z :=
  Z.min (Z.of_nat (length ids)) (n_voices - 1).

(** [[0, *token_ids, 0]] *)
Definition input_tokens (ids : list Z) : list Z := [0%Z] ++ ids ++ [0%Z].

(** [voices[style_index]] on an array of [n_voices] rows: an index from
    [-n_voices] to [n_voices - 1] names a row, any other is an IndexError. *)
Definition row_exists (n_voices index : Z) : bool :=
  ((- n_voices <=? index) && (index <? n_voices))%Z.

(** What one turn of the interaction loop of [main] does with the line it
    read, up to the call of the model: nothing for a blank line, nothing
    after a KeyError, the end of the loop on the IndexError of the style row
    (the outer handler catches it), and otherwise the style row and the input
    ids. *)
Inductive outcome : Type :=
| Skipped
| Aborted
| Failed
| Ready (style : Z) (input_ids : list Z).

Section Turn.

Variable normalize_NFC : str -> str.
Variable lower : str -> str.

(** [None] is a tokenizer loop cut short. *)
Definition turn (phoneme_to_id : vocabulary) (n_voices : Z) (line : str)
  : option outcome :=
  let spanish_text := strip line in
  match spanish_text with
  | [] => Some Skipped
  | _ :: _ =>
      let ipa := G2P.g2p normalize_NFC lower spanish_text in
      match tokenize_ipa ipa phoneme_to_id true with
      | None => None
      | Some (toks, unknown) =>
          match token_ids phoneme_to_id toks with
          | None => Some Aborted
          | Some ids =>
              let ids := truncate ids in
              let style_index := style_index ids n_voices in
              if row_exists n_voices style_index
              then Some (Ready style_index (input_tokens ids))
              else Some Failed
          end
      end
  end.

End Turn.

(** A list of ids without a repeat, as a check that runs. *)
Fixpoint distinct_ids (ids : list Z) : bool :=
  match ids with
  | [] => true
  | x :: ids' => negb (existsb (Z.eqb x) ids') && distinct_ids ids'
  end.

End App.

(* ================================================================== *)
(** * The specification's notions for the pipeline *)
(* ================================================================== *)

Module G2PSpec.
Import Py G2P.

Definition accented (c : char) : Prop := In c VOWELS_ACCENTED.

(** No character of [s] is one of the five accented vowels. *)
Definition accent_free (s : str) : Prop := Forall (fun c => ~ accented c) s.

(** The plain equivalent of an accented vowel (any other character is its
    own). *)
Definition plain (c : char) : char :=
  match lookup c ACUTE_MAP with Some d => d | None => c end.

(** Empty, or whitespace only. *)
Definition blank (s : str) : Prop := Forall (fun c => isspace c = true) s.

(** ** Vowel groups *)

(** The number of maximal runs of vowels of [s]; [in_run] tells whether a
    vowel comes just before [s]. *)
Fixpoint count_groups (in_run : bool) (s : str) : nat :=
  match s with
  | [] => 0
  | c :: s' =>
      if is_vowel c then (if in_run then 0 else 1) + count_groups true s'
      else count_groups false s'
  end.

Definition vowel_groups (s : str) : nat := count_groups false s.

(** The spans [re.finditer] gives for the vowel pattern, from position
    [pos] on. *)
Definition groups_from (s : str) (pos : nat) : list (nat * nat) :=
  finditer_from (p_plus is_vowel) [] s pos 0.

(** In [pre ++ grp ++ post], [grp] is a maximal run of vowels. *)
Definition vowel_group_at (pre grp post : str) : Prop :=
  grp <> []
  /\ Forall (fun c => is_vowel c = true) grp
  /\ (forall p c, pre = p ++ [c] -> is_vowel c = false)
  /\ (forall c q, post = c :: q -> is_vowel c = false).

(** The last character of [s] is one of [cls]. *)
Definition ends_in (cls : str) (s : str) : Prop :=
  exists p c, s = p ++ [c] /\ In c cls.

(** ** Rhotics *)

Definition LETTER_R : char := 114%N.
Definition CAPITAL_R : char := 82%N.
(** The strong trill and the weak tap. *)
Definition TRILL : char := 114%N.
Definition TAP : char := 638%N.

(** An r is strong at the start of the word and just after l, n or s. *)
Definition strong_after (prev : option char) : bool :=
  match prev with
  | None => true
  | Some p => char_in p (u "lns")
  end.

(** The rule of the specification, read left to right over the string that
    reaches the step; [prev] is the character just before [w] ([None] at
    the start of the word).  A geminate rr is one strong phone; a single r
    is strong or weak by what comes before it; anything else stays. *)
Fixpoint rhotic_spec (prev : option char) (w : str) : str :=
  match w with
  | [] => []
  | c :: w' =>
      if eqc c LETTER_R then
        match w' with
        | c' :: w'' =>
            if eqc c' LETTER_R then TRILL :: rhotic_spec (Some c') w''
            else (if strong_after prev then TRILL else TAP)
                   :: rhotic_spec (Some c) w'
        | [] => [if strong_after prev then TRILL else TAP]
        end
      else c :: rhotic_spec (Some c) w'
  end.

(** No capital R, the letter of the placeholder. *)
Definition placeholder_free (w : str) : Prop := Forall (fun c => c <> CAPITAL_R) w.

(** What the first substitution of the step does: every rr, left to right,
    becomes the placeholder. *)
Fixpoint mark_geminates (w : str) : str :=
  match w with
  | [] => []
  | c :: w' =>
      if eqc c LETTER_R then
        match w' with
        | c' :: w'' =>
            if eqc c' LETTER_R then PLACEHOLDER ++ mark_geminates w''
            else c :: mark_geminates w'
        | [] => [c]
        end
      else c :: mark_geminates w'
  end.

(** What the cluster substitution does: an r just after l, n or s becomes
    the placeholder. *)
Definition after_lns (prev : option char) : bool :=
  match prev with
  | None => false
  | Some p => char_in p (u "lns")
  end.

Fixpoint mark_clusters (prev : option char) (s : str) : str :=
  match s with
  | [] => []
  | c :: s' =>
      (if eqc c LETTER_R && after_lns prev then PLACEHOLDER else [c])
        ++ mark_clusters (Some c) s'
  end.

(** The cluster substitution of the step, on its own. *)
Definition cluster_sub (s : str) : str :=
  re_sub (p_class_lit (u "lns") (u "r")) (fun m => firstn 1 m ++ PLACEHOLDER) s.

(** The last two substitutions of the step together. *)
Definition finish (s : str) : str :=
  replace PLACEHOLDER (u "r") (replace (u "r") (u "ɾ") s).

(** [w] does not start with r (so an r just before it is a single one). *)
Definition single_r (w : str) : Prop :=
  match w with
  | c :: _ => c <> LETTER_R
  | [] => True
  end.

(** The characters the rewriting steps write. *)
Definition CONSONANT_PHONES : str := Eval vm_compute in u "ŋʧskxgwbjɲʝ".
Definition RHOTIC_PHONES : str := Eval vm_compute in u "Rrɾ".

(** ** Punctuation *)

Definition punct_free (s : str) : Prop := Forall (fun c => is_punct c = false) s.

(** Every punctuation character of [s] has a space just before it and a
    space just after it. *)
Definition punct_isolated (s : str) : Prop :=
  forall pre c post, s = pre ++ c :: post -> is_punct c = true ->
    (exists pre', pre = pre' ++ [space]) /\ (exists post', post = space :: post').

(** No character that is [P] stands next to one that is [Q]. *)
Definition never_adjacent (P Q : char -> Prop) (s : str) : Prop :=
  forall pre a b post, s = pre ++ a :: b :: post ->
    ~ (P a /\ Q b) /\ ~ (Q a /\ P b).

(** What the first substitution of [_space_punct] does to one character. *)
Definition wrap_punct (c : char) : str :=
  if is_punct c then [space] ++ [c] ++ [space] else [c].

(** What its last substitution does: a run of whitespace becomes one space;
    [in_run] tells whether the scan is inside a run. *)
Fixpoint collapse (in_run : bool) (s : str) : str :=
  match s with
  | [] => []
  | c :: s' =>
      if isspace c then
        if in_run then collapse true s' else space :: collapse true s'
      else c :: collapse false s'
  end.

(** Every punctuation character is followed by a space. *)
Fixpoint punct_then_space (s : str) : Prop :=
  match s with
  | [] => True
  | c :: s' => (is_punct c = true -> exists s'', s' = space :: s'') /\ punct_then_space s'
  end.

(** Every punctuation character of [s] has a space or an end of the string
    on either side, [prev_space] telling whether a space or the start comes
    just before [s]. *)
Fixpoint isolated_from (prev_space : bool) (s : str) : Prop :=
  match s with
  | [] => True
  | c :: s' =>
      (is_punct c = true ->
       prev_space = true /\ match s' with [] => True | d :: _ => d = space end)
      /\ isolated_from (eqc c space) s'
  end.

(** A token, or an entry of [out]: free of punctuation, or one punctuation
    character. *)
Definition unmixed (tok : str) : Prop :=
  punct_free tok \/ exists c, tok = [c] /\ is_punct c = true.

End G2PSpec.

(* ================================================================== *)
(** * Notions for the further properties of the code *)
(* ================================================================== *)

Module Notions.
Import Py G2P.

Definition nonspace (c : char) : bool := negb (isspace c).

(** The only whitespace of [s] is the space U+0020, and no two spaces are
    adjacent; [prev_space] tells whether a space (or the start of the text)
    comes just before [s]. *)
Fixpoint single_spaced (prev_space : bool) (s : str) : Prop :=
  match s with
  | [] => True
  | c :: s' =>
      (isspace c = true -> c = space /\ prev_space = false)
      /\ single_spaced (isspace c) s'
  end.

(** The same, and [s] does not end just after a space. *)
Fixpoint words_from (prev_space : bool) (s : str) : Prop :=
  match s with
  | [] => prev_space = false
  | c :: s' =>
      (isspace c = true -> c = space /\ prev_space = false)
      /\ words_from (isspace c) s'
  end.

(** A word: not empty, no whitespace. *)
Definition word (tok : str) : Prop :=
  tok <> [] /\ Forall (fun c => isspace c = false) tok.

(** The letters every occurrence of which [map_graphemes] rewrites. *)
Definition REWRITTEN : str := Eval vm_compute in u "czvhñ".

(** The letters a rule of [map_graphemes] starts from (the l only when
    doubled), and the letter of the placeholder. *)
Definition RULE_LETTERS : str := Eval vm_compute in u "cxgjzqvhñyrR".

(** [lit in s], for a [lit] that is not empty. *)
Fixpoint occurs (lit s : str) : bool :=
  match s with
  | [] => false
  | _ :: s' => startswith lit s || occurs lit s'
  end.

(** A pattern that matches only where the text starts with [x]. *)
Definition headed (x : char) (pat : pattern) : Prop :=
  (forall before, pat before [] = None)
  /\ (forall before y t, y <> x -> pat before (y :: t) = None).

(** A character that is, on its own, a key of the repository's vocabulary. *)
Definition mapped (c : char) : bool := Tokenizer.contains Tokenizer.get_phoneme_map [c].

(** Plain Spanish text: the letters a to z, the accented vowels and ñ,
    lowercase; with the capitals A to Z, the letters of a word; and with the
    space and the punctuation marks that are keys of the vocabulary, the
    characters of a text. *)
Definition SPANISH_LOWER : str := Eval vm_compute in u "abcdefghijklmnopqrstuvwxyzáéíóúñ".
Definition SPANISH_LETTERS : str :=
  Eval vm_compute in SPANISH_LOWER ++ u "ABCDEFGHIJKLMNOPQRSTUVWXYZ".
Definition SPANISH_TEXT : str :=
  Eval vm_compute in SPANISH_LETTERS ++ u " ,.;:!?()" ++ [QUOTE] ++ u "“”—…".

Definition over (alphabet : str) (s : str) : Prop :=
  Forall (fun c => char_in c alphabet = true) s.

(** Mapped once its accent is stripped. *)
Definition mapped_plain (c : char) : Prop :=
  mapped (G2PSpec.plain c) = true.

End Notions.

(* ================================================================== *)
(** * Facts about the runtime *)
(* ================================================================== *)

Module PyFacts.
Import Py.

Lemma eqc_true a b : eqc a b = true <-> a = b.
Proof. apply N.eqb_eq. Qed.

Lemma eqc_refl a : eqc a a = true.
Proof. apply N.eqb_refl. Qed.

Lemma eqc_false a b : eqc a b = false <-> a <> b.
Proof. apply N.eqb_neq. Qed.

Lemma eqs_true a : forall b, eqs a b = true <-> a = b.
Proof.
  induction a as [|x a IH]; intros [|y b]; simpl; split; try congruence; auto.
  - intros H. apply andb_true_iff in H as [H1 H2].
    apply eqc_true in H1. apply IH in H2. congruence.
  - intros H. injection H as -> ->. rewrite eqc_refl. now apply IH.
Qed.

Lemma char_in_true c cls : char_in c cls = true <-> In c cls.
Proof.
  unfold char_in. rewrite existsb_exists. split.
  - intros (x & Hx & E). apply eqc_true in E. now subst.
  - intros H. exists c. split; [assumption | apply eqc_refl].
Qed.

Lemma char_in_false c cls : char_in c cls = false <-> ~ In c cls.
Proof.
  rewrite <- char_in_true. destruct (char_in c cls); split; congruence.
Qed.

Lemma startswith_true p : forall s, startswith p s = true <-> exists t, s = p ++ t.
Proof.
  induction p as [|x p IH]; intros s; simpl.
  - split; [intros _; now exists s | reflexivity].
  - destruct s as [|y s].
    + split; [discriminate | intros [t H]; discriminate].
    + rewrite andb_true_iff, eqc_true, IH. split.
      * intros [-> [t ->]]. now exists t.
      * intros [t H]. injection H as -> ->. split; [reflexivity | now exists t].
Qed.

Lemma startswith_head_neq x p y s : x <> y -> startswith (x :: p) (y :: s) = false.
Proof. intros H. cbn [startswith]. apply eqc_false in H. now rewrite H. Qed.

Lemma startswith_second_neq x1 x2 p y1 y2 s :
  x2 <> y2 -> startswith (x1 :: x2 :: p) (y1 :: y2 :: s) = false.
Proof.
  intros H. cbn [startswith]. apply eqc_false in H. rewrite H. apply andb_false_r.
Qed.

Lemma startswith_app p t : startswith p (p ++ t) = true.
Proof. apply startswith_true. now exists t. Qed.

Lemma startswith_skipn p s :
  startswith p s = true -> s = p ++ skipn (length p) s.
Proof.
  intros H. apply startswith_true in H as [t ->].
  now rewrite skipn_app, skipn_all, Nat.sub_diag.
Qed.

Lemma startswith_length p s : startswith p s = true -> length p <= length s.
Proof.
  intros H. apply startswith_true in H as [t ->]. rewrite length_app. lia.
Qed.

Lemma skipn_nth_error (s : str) i c :
  nth_error s i = Some c -> skipn i s = c :: skipn (i + 1) s.
Proof.
  revert s. induction i as [|i IH]; intros [|x s]; simpl; try discriminate.
  - now intros [= ->].
  - apply IH.
Qed.

(** A substitution whose pattern matches nowhere changes nothing. *)
Lemma sub_from_no_match pat repl : forall rest before,
  (forall p t, rest = p ++ t -> pat (rev p ++ before) t = None) ->
  sub_from pat repl before rest 0 = rest.
Proof.
  induction rest as [|c rest IH]; intros before H; simpl; [reflexivity|].
  pose proof (H [] (c :: rest) eq_refl) as H0. simpl in H0. rewrite H0.
  f_equal. apply IH.
  intros p t ->. specialize (H (c :: p) t eq_refl). simpl in H.
  now rewrite <- app_assoc in H.
Qed.

Lemma replace_no_occurrence old new s :
  (forall p t, s = p ++ t -> startswith old t = false) -> replace old new s = s.
Proof.
  intros H. unfold replace, re_sub. apply sub_from_no_match.
  intros p t E. unfold p_lit. now rewrite (H p t E).
Qed.

Lemma replace_absent_char x new s : ~ In x s -> replace [x] new s = s.
Proof.
  intros H. apply replace_no_occurrence. intros p [|y t] E; [reflexivity|].
  simpl. destruct (eqc x y) eqn:Exy; [|reflexivity].
  apply eqc_true in Exy. subst. exfalso. apply H, in_or_app. right. now left.
Qed.

Lemma Forall_firstn (P : N -> Prop) n : forall s, Forall P s -> Forall P (firstn n s).
Proof.
  induction n as [|n IH]; intros [|c s] H; simpl; try constructor.
  - now inversion H.
  - apply IH. now inversion H.
Qed.

Lemma Forall_skipn (P : N -> Prop) n : forall s, Forall P s -> Forall P (skipn n s).
Proof.
  induction n as [|n IH]; intros [|c s] H; simpl; try assumption.
  apply IH. now inversion H.
Qed.

Lemma Forall_removelast (P : N -> Prop) s : Forall P s -> Forall P (removelast s).
Proof.
  induction 1 as [|c s Hc Hs IH]; simpl; [constructor|].
  destruct s; [constructor | now constructor].
Qed.

(** What holds of the subject and is kept by the replacement holds of the
    result of a substitution. *)
Lemma sub_from_Forall (P : N -> Prop) pat repl :
  (forall m, Forall P m -> Forall P (repl m)) ->
  forall rest before skip, Forall P rest -> Forall P (sub_from pat repl before rest skip).
Proof.
  intros Hrepl. induction rest as [|c rest IH]; intros before skip H; simpl; [constructor|].
  assert (Hrest : Forall P rest) by now inversion H.
  destruct skip as [|k]; [|now apply IH].
  destruct (pat before (c :: rest)) as [[|n]|].
  - constructor; [now inversion H | now apply IH].
  - apply Forall_app. split; [|now apply IH].
    apply Hrepl, (Forall_firstn P (S n) (c :: rest) H).
  - constructor; [now inversion H | now apply IH].
Qed.

Lemma re_sub_Forall (P : N -> Prop) pat repl s :
  (forall m, Forall P m -> Forall P (repl m)) -> Forall P s -> Forall P (re_sub pat repl s).
Proof. intros Hr H. now apply sub_from_Forall. Qed.

Lemma replace_Forall (P : N -> Prop) old new s :
  Forall P new -> Forall P s -> Forall P (replace old new s).
Proof. intros Hn H. apply re_sub_Forall; [intros _ _; exact Hn | exact H]. Qed.

(** Passing the rest of a match. *)
Lemma sub_from_skip pat repl : forall k rest before,
  k <= length rest ->
  sub_from pat repl before rest k
    = sub_from pat repl (rev (firstn k rest) ++ before) (skipn k rest) 0.
Proof.
  induction k as [|k IH]; intros rest before Hk; [reflexivity|].
  destruct rest as [|c rest]; [simpl in Hk; lia|]. simpl in Hk.
  cbn [sub_from firstn skipn rev]. rewrite IH by lia.
  now rewrite <- app_assoc.
Qed.

Lemma finditer_from_skip pat : forall k rest before pos,
  k <= length rest ->
  finditer_from pat before rest pos k
    = finditer_from pat (rev (firstn k rest) ++ before) (skipn k rest) (pos + k) 0.
Proof.
  induction k as [|k IH]; intros rest before pos Hk.
  - simpl. now rewrite Nat.add_0_r.
  - destruct rest as [|c rest]; [simpl in Hk; lia|]. simpl in Hk.
    cbn [finditer_from firstn skipn rev]. rewrite IH by lia.
    rewrite <- app_assoc. cbn [app]. f_equal. lia.
Qed.

Lemma finditer_plus_before p : forall rest b1 b2 pos k,
  finditer_from (p_plus p) b1 rest pos k = finditer_from (p_plus p) b2 rest pos k.
Proof.
  induction rest as [|c rest IH]; intros b1 b2 pos k; [reflexivity|].
  cbn [finditer_from]. destruct k as [|k]; [|apply IH].
  change (p_plus p b1 (c :: rest)) with (p_plus p b2 (c :: rest)).
  destruct (p_plus p b2 (c :: rest)) as [[|n]|];
    rewrite (IH (c :: b1) (c :: b2)); reflexivity.
Qed.

Lemma run_length_le p s : run_length p s <= length s.
Proof. induction s as [|c s IH]; simpl; [lia|]. destruct (p c); simpl; lia. Qed.

Lemma run_length_firstn p s : Forall (fun c => p c = true) (firstn (run_length p s) s).
Proof.
  induction s as [|c s IH]; simpl; [constructor|].
  destruct (p c) eqn:E; simpl; [now constructor | constructor].
Qed.

Lemma run_length_skipn p s c q : skipn (run_length p s) s = c :: q -> p c = false.
Proof.
  induction s as [|x s IH]; simpl; [discriminate|].
  destruct (p x) eqn:E; simpl; [exact IH | now intros [= <- _]].
Qed.

(** [[cls]+] from a position: nothing where the class does not match, the
    whole run where it does. *)
Lemma finditer_plus_miss p c s pos :
  p c = false ->
  finditer_from (p_plus p) [] (c :: s) pos 0 = finditer_from (p_plus p) [] s (S pos) 0.
Proof.
  intros H. cbn [finditer_from]. unfold p_plus at 1. cbn [run_length]. rewrite H.
  apply finditer_plus_before.
Qed.

Lemma finditer_plus_hit p c s pos :
  p c = true ->
  let n := run_length p (c :: s) in
  finditer_from (p_plus p) [] (c :: s) pos 0
    = (pos, pos + n) :: finditer_from (p_plus p) [] (skipn n (c :: s)) (pos + n) 0.
Proof.
  intros H n. subst n. cbn [finditer_from]. unfold p_plus at 1. cbn [run_length].
  rewrite H. f_equal.
  rewrite finditer_from_skip by apply run_length_le.
  cbn [skipn]. rewrite (finditer_plus_before p _ _ []). f_equal. lia.
Qed.

(** A pattern that does not look behind substitutes the same whatever
    comes before. *)
Lemma sub_from_before pat repl :
  (forall b1 b2 r, pat b1 r = pat b2 r) ->
  forall rest b1 b2 k, sub_from pat repl b1 rest k = sub_from pat repl b2 rest k.
Proof.
  intros Hpat. induction rest as [|c rest IH]; intros b1 b2 k; [reflexivity|].
  cbn [sub_from]. destruct k as [|k]; [|apply IH].
  rewrite (Hpat b1 b2). destruct (pat b2 (c :: rest)) as [[|n]|];
    rewrite (IH (c :: b1) (c :: b2)); reflexivity.
Qed.

Lemma replace_before old new before rest k :
  sub_from (p_lit old) (fun _ => new) before rest k
    = sub_from (p_lit old) (fun _ => new) [] rest k.
Proof. apply sub_from_before. reflexivity. Qed.

(** [replace] where the text does not start with [old], and where it does. *)
Lemma replace_miss old new c s :
  startswith old (c :: s) = false ->
  replace old new (c :: s) = c :: replace old new s.
Proof.
  intros H. unfold replace, re_sub. cbn [sub_from]. unfold p_lit at 1. rewrite H.
  now rewrite replace_before.
Qed.

Lemma replace_hit old new s :
  old <> [] -> replace old new (old ++ s) = new ++ replace old new s.
Proof.
  intros Hne. unfold replace, re_sub.
  destruct old as [|c old]; [congruence|].
  cbn [app sub_from]. unfold p_lit at 1.
  change (c :: old ++ s) with ((c :: old) ++ s) at 1.
  rewrite startswith_app. cbn [length]. f_equal.
  rewrite (sub_from_skip (p_lit (c :: old)) (fun _ => new) (length old) (old ++ s))
    by (rewrite length_app; lia).
  rewrite skipn_app, skipn_all, Nat.sub_diag. cbn [app skipn].
  apply replace_before.
Qed.

(** A one-character class pattern rewrites character by character. *)
Lemma sub_from_class cls repl : forall rest before,
  sub_from (p_class cls) repl before rest 0
    = flat_map (fun c => if char_in c cls then repl [c] else [c]) rest.
Proof.
  induction rest as [|c rest IH]; intros before; simpl; [reflexivity|].
  destruct (char_in c cls); simpl; now rewrite IH.
Qed.

Lemma dropwhile_suffix p s : exists a, s = a ++ dropwhile p s.
Proof.
  induction s as [|c s [a IH]]; simpl; [now exists []|].
  destruct (p c); [exists (c :: a); simpl; now rewrite <- IH | now exists []].
Qed.

Lemma rstrip_by_prefix p s : exists q, s = rstrip_by p s ++ q.
Proof.
  unfold rstrip_by. destruct (dropwhile_suffix p (rev s)) as [a Ha].
  exists (rev a). rewrite <- rev_app_distr, <- Ha. symmetry. apply rev_involutive.
Qed.

Lemma dropwhile_head p c s : p c = false -> dropwhile p (c :: s) = c :: s.
Proof. intros H. simpl. now rewrite H. Qed.

Lemma rev_repeat_char (c : char) n : rev (repeat c n) = repeat c n.
Proof.
  induction n as [|n IH]; [reflexivity|]. simpl. rewrite IH.
  clear IH. induction n as [|n IH]; [reflexivity|]. simpl. now rewrite IH.
Qed.

Lemma strip_by_repeat p c n : p c = false -> strip_by p (repeat c n) = repeat c n.
Proof.
  intros H. unfold strip_by, rstrip_by, lstrip_by.
  assert (Hd : dropwhile p (repeat c n) = repeat c n).
  { destruct n; [reflexivity | apply dropwhile_head, H]. }
  now rewrite Hd, rev_repeat_char, Hd, rev_repeat_char.
Qed.

Lemma repeat_suffix (c : char) n p t : repeat c n = p ++ t -> exists m, t = repeat c m.
Proof.
  revert n. induction p as [|x p IH]; intros n E.
  - exists n. now rewrite E.
  - destruct n as [|n]; [discriminate|]. simpl in E. injection E as _ E.
    now apply (IH n).
Qed.

End PyFacts.

(* ================================================================== *)
(** * The tokenizer *)
(* ================================================================== *)

Module TokenizerProofs.
Import Py PyFacts Tokenizer.

(** ** The sorted keys *)

Lemma insert_by_len_In k x : forall l, In x (insert_by_len k l) <-> x = k \/ In x l.
Proof.
  induction l as [|y l IH]; simpl.
  - intuition.
  - destruct (length k <? length y); simpl; rewrite ?IH; intuition.
Qed.

Lemma sorted_by_len_desc_In x : forall ks, In x (sorted_by_len_desc ks) <-> In x ks.
Proof.
  induction ks as [|k ks IH]; simpl; [reflexivity|].
  rewrite insert_by_len_In, IH. intuition.
Qed.

Lemma insert_by_len_sorted k : forall l,
  StronglySorted longer_first l -> StronglySorted longer_first (insert_by_len k l).
Proof.
  induction l as [|y l IH]; intros Hs; simpl.
  - constructor; constructor.
  - inversion Hs as [|? ? Hl Hy]; subst.
    destruct (Nat.ltb_spec (length k) (length y)) as [Hlt|Hge].
    + constructor; [now apply IH|].
      apply Forall_forall. intros z Hz. apply insert_by_len_In in Hz as [->|Hz].
      * unfold longer_first. lia.
      * rewrite Forall_forall in Hy. now apply Hy.
    + constructor; [assumption|].
      constructor; [exact Hge|].
      rewrite Forall_forall in Hy |- *. intros z Hz.
      specialize (Hy z Hz). unfold longer_first in *. lia.
Qed.

Lemma sorted_by_len_desc_sorted ks : StronglySorted longer_first (sorted_by_len_desc ks).
Proof.
  induction ks as [|k ks IH]; simpl; [constructor|].
  now apply insert_by_len_sorted.
Qed.

(** The first hit in a list sorted longest-first is a longest hit. *)
Lemma find_longest (f : str -> bool) : forall ks k,
  StronglySorted longer_first ks -> find f ks = Some k ->
  forall k', In k' ks -> f k' = true -> length k' <= length k.
Proof.
  induction ks as [|x ks IH]; intros k Hs Hf k' Hin Hk'; simpl in *; [contradiction|].
  inversion Hs as [|? ? Hl Hx]; subst.
  destruct (f x) eqn:Efx.
  - injection Hf as ->. destruct Hin as [->|Hin]; [lia|].
    rewrite Forall_forall in Hx. now apply Hx.
  - destruct Hin as [->|Hin]; [congruence|]. now apply (IH k).
Qed.

(** ** One turn of the loop *)

Lemma key_matches_true s i k :
  key_matches s i k = true <-> k <> [] /\ is_prefix k (skipn i s).
Proof.
  unfold key_matches, startswith_at, is_prefix.
  destruct k as [|c k].
  - split; [discriminate | intros [H _]; congruence].
  - rewrite startswith_true. split; [intros H; split; [discriminate|assumption] | tauto].
Qed.

Lemma key_matches_advance s i k :
  key_matches s i k = true ->
  1 <= length k /\ i + length k <= length s /\
  skipn i s = k ++ skipn (i + length k) s.
Proof.
  intros H. unfold key_matches in H. destruct k as [|c k]; [discriminate|].
  unfold startswith_at in H. pose proof (startswith_length _ _ H) as Hl.
  rewrite length_skipn in Hl. apply startswith_skipn in H.
  rewrite skipn_skipn in H. rewrite (Nat.add_comm i). simpl in *.
  repeat split; try lia. exact H.
Qed.

(** ** The loop *)

Lemma tokenize_loop_more_fuel ks s : forall fuel fuel' i toks unk r,
  fuel <= fuel' ->
  tokenize_loop fuel ks s i toks unk = Some r ->
  tokenize_loop fuel' ks s i toks unk = Some r.
Proof.
  induction fuel as [|fuel IH]; intros fuel' i toks unk r Hle H.
  - simpl in H. destruct fuel'; simpl; destruct (i <? length s); congruence.
  - destruct fuel' as [|fuel']; [lia|]. simpl in *.
    destruct (i <? length s); [|assumption].
    destruct (find (key_matches s i) ks) as [k|].
    + apply IH with (fuel' := fuel') in H; [assumption | lia].
    + destruct (nth_error s i) as [c|]; [|discriminate].
      apply IH with (fuel' := fuel') in H; [assumption | lia].
Qed.

(** With one iteration per remaining character the loop ends, and what it
    appends is the greedy longest-match reading of the rest of the text. *)
Lemma tokenize_loop_spec ks0 s : forall fuel i toks unk,
  i <= length s -> length s - i <= fuel ->
  exists ts us,
    tokenize_loop fuel (sorted_by_len_desc ks0) s i toks unk
      = Some (toks ++ ts, unk ++ us)
    /\ greedy ks0 (skipn i s) ts us.
Proof.
  induction fuel as [|fuel IH]; intros i toks unk Hi Hfuel; simpl.
  - destruct (Nat.ltb_spec i (length s)) as [Hlt|Hge]; [lia|].
    exists [], []. rewrite !app_nil_r. split; [reflexivity|].
    rewrite skipn_all2 by lia. constructor.
  - destruct (Nat.ltb_spec i (length s)) as [Hlt|Hge].
    2:{ exists [], []. rewrite !app_nil_r. split; [reflexivity|].
        rewrite skipn_all2 by lia. constructor. }
    destruct (find (key_matches s i) (sorted_by_len_desc ks0)) as [k|] eqn:Ef.
    + pose proof (find_some _ _ Ef) as [Hin Hm].
      pose proof (key_matches_advance _ _ _ Hm) as (Hk & Hik & Hsplit).
      destruct (IH (i + length k) (toks ++ [k]) unk) as (ts & us & Hrun & Hg); try lia.
      exists (k :: ts), us. split.
      * rewrite Hrun, <- app_assoc. reflexivity.
      * rewrite Hsplit. apply greedy_match.
        -- apply sorted_by_len_desc_In. exact Hin.
        -- intros ->. simpl in Hk. lia.
        -- intros k' Hk'in Hk'ne Hpre. rewrite <- Hsplit in Hpre.
           apply (find_longest (key_matches s i) _ _ (sorted_by_len_desc_sorted ks0) Ef).
           ++ now apply sorted_by_len_desc_In.
           ++ apply key_matches_true. now split.
        -- exact Hg.
    + destruct (nth_error s i) as [c|] eqn:En.
      2:{ apply nth_error_None in En. lia. }
      pose proof (skipn_nth_error _ _ _ En) as Hsplit.
      destruct (IH (i + 1) toks (unk ++ [c])) as (ts & us & Hrun & Hg); try lia.
      exists ts, (c :: us). split.
      * rewrite Hrun, <- app_assoc. reflexivity.
      * rewrite Hsplit. apply greedy_unmapped; [|exact Hg].
        intros k Hin Hne Hpre. rewrite <- Hsplit in Hpre.
        assert (Hm : key_matches s i k = true) by (apply key_matches_true; now split).
        apply sorted_by_len_desc_In in Hin.
        pose proof (find_none _ _ Ef _ Hin) as Hno. congruence.
Qed.

Lemma greedy_interleaved ks s ts us : greedy ks s ts us -> interleaved ts us s.
Proof. induction 1; constructor; assumption. Qed.

Lemma greedy_tokens_nonempty ks s ts us :
  greedy ks s ts us -> Forall (fun k => 1 <= length k) ts.
Proof.
  induction 1; try constructor; try assumption.
  destruct k; [congruence | simpl; lia].
Qed.

Lemma interleaved_length ts us s :
  interleaved ts us s -> length (concat ts) + length us = length s.
Proof.
  induction 1; simpl; rewrite ?length_app; simpl; lia.
Qed.

Lemma tokenize_ipa_spec ipa_text d keep :
  exists ts us,
    (forall fuel, length (preprocess ipa_text d keep) <= fuel ->
                  tokenize_with_fuel fuel ipa_text d keep = Some (ts, us))
    /\ greedy (keys d) (preprocess ipa_text d keep) ts us.
Proof.
  destruct (tokenize_loop_spec (keys d) (preprocess ipa_text d keep)
              (length (preprocess ipa_text d keep)) 0 [] [])
    as (ts & us & Hrun & Hg); try lia.
  exists ts, us. split; [|exact Hg].
  intros fuel Hfuel. unfold tokenize_with_fuel.
  apply tokenize_loop_more_fuel with (fuel := length (preprocess ipa_text d keep));
    assumption.
Qed.

(** ** The greedy reading is a function of the text *)

Lemma app_same_length (a b c d : str) :
  length a = length c -> a ++ b = c ++ d -> a = c /\ b = d.
Proof.
  revert c. induction a as [|x a IH]; intros [|y c] Hl E; simpl in *; try discriminate.
  - now split.
  - injection E as -> E. destruct (IH c) as [-> ->]; [lia | assumption | now split].
Qed.

Lemma greedy_functional ks s ts us :
  greedy ks s ts us ->
  forall ts' us', greedy ks s ts' us' -> ts' = ts /\ us' = us.
Proof.
  induction 1 as [| k rest ts us Hin Hne Hlong Hg IH | c rest ts us Hno Hg IH];
    intros ts' us' H'.
  - remember (@nil char) as s eqn:Es.
    destruct H' as [| k' rest' ts' us' Hin' Hne' Hlong' Hg' | c rest' ts' us' Hno' Hg'].
    + now split.
    + apply app_eq_nil in Es as [-> _]. congruence.
    + discriminate.
  - remember (k ++ rest) as s eqn:Es.
    destruct H' as [| k' rest' ts' us' Hin' Hne' Hlong' Hg' | c rest' ts' us' Hno' Hg'].
    + symmetry in Es. apply app_eq_nil in Es as [-> _]. congruence.
    + assert (Hl : length k = length k').
      { apply Nat.le_antisymm.
        - apply Hlong'; [assumption | assumption | now exists rest].
        - apply Hlong; [assumption | assumption | now exists rest']. }
      destruct (app_same_length k rest k' rest' Hl (eq_sym Es)) as [-> ->].
      destruct (IH _ _ Hg') as [-> ->]. now split.
    + exfalso. apply (Hno' k Hin Hne). now exists rest.
  - remember (c :: rest) as s eqn:Es.
    destruct H' as [| k' rest' ts' us' Hin' Hne' Hlong' Hg' | c' rest' ts' us' Hno' Hg'].
    + discriminate.
    + exfalso. apply (Hno k' Hin' Hne'). now exists rest'.
    + injection Es as -> ->. destruct (IH _ _ Hg') as [-> ->]. now split.
Qed.

(** ** Vocabularies of one-character keys *)

Lemma contains_true d k : contains d k = true <-> In k (keys d).
Proof.
  unfold contains. rewrite existsb_exists. split.
  - intros (x & Hx & E). apply eqs_true in E. now subst.
  - intros H. exists k. split; [assumption | now apply eqs_true].
Qed.

Lemma single_chars_check d :
  forallb (fun k => length k <=? 1) (keys d) = true -> single_chars d.
Proof.
  intros H k Hk. rewrite forallb_forall in H. now apply Nat.leb_le, H.
Qed.

Lemma find_single_char d s i c :
  single_chars d -> nth_error s i = Some c ->
  find (key_matches s i) (sorted_by_len_desc (keys d))
    = if contains d [c] then Some [c] else None.
Proof.
  intros Hd En. pose proof (skipn_nth_error _ _ _ En) as Hs.
  assert (Hone : forall k, In k (keys d) -> key_matches s i k = true -> k = [c]).
  { intros k Hk Hm. apply key_matches_true in Hm as [Hne [t Ht]].
    specialize (Hd k Hk). destruct k as [|x [|y k]]; simpl in Hd; try congruence; try lia.
    rewrite Hs in Ht. now injection Ht as ->. }
  destruct (contains d [c]) eqn:Ec.
  - apply contains_true in Ec.
    destruct (find (key_matches s i) (sorted_by_len_desc (keys d))) as [k|] eqn:Ef.
    + apply find_some in Ef as [Hin Hm]. rewrite sorted_by_len_desc_In in Hin.
      now rewrite (Hone k Hin Hm).
    + rewrite <- sorted_by_len_desc_In in Ec. pose proof (find_none _ _ Ef _ Ec) as Hno.
      assert (key_matches s i [c] = true).
      { apply key_matches_true. split; [discriminate|]. rewrite Hs. now exists (skipn (i + 1) s). }
      congruence.
  - destruct (find (key_matches s i) (sorted_by_len_desc (keys d))) as [k|] eqn:Ef;
      [|reflexivity].
    apply find_some in Ef as [Hin Hm]. rewrite sorted_by_len_desc_In in Hin.
    rewrite (Hone k Hin Hm) in Hin. apply contains_true in Hin. congruence.
Qed.

(** Over one-character keys the scan sorts the characters of the text into
    the mapped ones, each a token, and the unmapped ones. *)
Lemma tokenize_loop_single_chars d s : single_chars d ->
  forall fuel i toks unk,
  i <= length s -> length s - i <= fuel ->
  tokenize_loop fuel (sorted_by_len_desc (keys d)) s i toks unk
    = Some (toks ++ map (fun c => [c]) (filter (fun c => contains d [c]) (skipn i s)),
            unk ++ filter (fun c => negb (contains d [c])) (skipn i s)).
Proof.
  intros Hd. induction fuel as [|fuel IH]; intros i toks unk Hi Hfuel; simpl.
  - destruct (Nat.ltb_spec i (length s)); [lia|].
    rewrite skipn_all2 by lia. simpl. now rewrite !app_nil_r.
  - destruct (Nat.ltb_spec i (length s)) as [Hlt|Hge].
    2:{ rewrite skipn_all2 by lia. simpl. now rewrite !app_nil_r. }
    destruct (nth_error s i) as [c|] eqn:En.
    2:{ apply nth_error_None in En. lia. }
    rewrite (find_single_char d s i c Hd En), (skipn_nth_error _ _ _ En). simpl.
    destruct (contains d [c]) eqn:Ec; simpl.
    + replace (length [c]) with 1 by reflexivity.
      rewrite IH by lia. now rewrite <- app_assoc.
    + rewrite IH by lia. now rewrite <- app_assoc.
Qed.

Lemma tokenize_single_chars d ipa_text keep : single_chars d ->
  tokenize_ipa ipa_text d keep =
    let s := preprocess ipa_text d keep in
    Some (map (fun c => [c]) (filter (fun c => contains d [c]) s),
          filter (fun c => negb (contains d [c])) s).
Proof.
  intros Hd. unfold tokenize_ipa, tokenize_with_fuel.
  rewrite (tokenize_loop_single_chars d _ Hd) by lia. reflexivity.
Qed.

Lemma single_chars_no_digraph d : single_chars d -> contains d T_ESH = false.
Proof.
  intros Hd. destruct (contains d T_ESH) eqn:E; [|reflexivity].
  apply contains_true, Hd in E. simpl in E. lia.
Qed.

(** ** The first scenario of the specification *)

(** C1, what the code does.  On the transcription [/ kˈasa /], with the
    stress mark kept, and a vocabulary of one-character keys among which are
    k, ˈ, a and s: the tokenizer strips the whitespace around the text and
    then the outer slashes, so the two spaces inside the slashes stay in the
    scanned text.  They come out as the first and the last token when the
    space is a key (it is one of the repository's vocabulary), and as two
    unmapped characters next to the tokens k, ˈ, a, s, a when it is not.
    (The comment of the code announces that the outer slashes and the
    surrounding whitespace are removed; the two strips run in the order
    that leaves the whitespace inside the slashes.) *)
Theorem tokenize_kasa (d : vocabulary) :
  single_chars d ->
  In (u "k") (keys d) -> In (u "ˈ") (keys d) ->
  In (u "a") (keys d) -> In (u "s") (keys d) ->
  tokenize_ipa (u "/ kˈasa /") d true =
    if contains d (u " ")
    then Some ([u " "; u "k"; u "ˈ"; u "a"; u "s"; u "a"; u " "], [])
    else Some ([u "k"; u "ˈ"; u "a"; u "s"; u "a"], [space; space]).
Proof.
  intros Hd Hk Hst Ha Hs.
  apply contains_true in Hk, Hst, Ha, Hs.
  assert (Hp : preprocess (u "/ kˈasa /") d true = [32; 107; 712; 97; 115; 97; 32]%N).
  { unfold preprocess. change STRESS with (u "ˈ"). rewrite Hst.
    destruct (contains d TESH && negb (contains d T_ESH)); reflexivity. }
  rewrite (tokenize_single_chars d _ true Hd), Hp. cbv zeta.
  change (u "k") with [107%N] in Hk. change (u "ˈ") with [712%N] in Hst.
  change (u "a") with [97%N] in Ha. change (u "s") with [115%N] in Hs.
  change (u " ") with [32%N]. cbn [filter map negb].
  rewrite Hk, Hst, Ha, Hs. cbn [filter map negb].
  destruct (contains d [32%N]); reflexivity.
Qed.

(** C1, witness: the repository's vocabulary, which has the space. *)
Lemma tokenize_kasa_witness :
  tokenize_ipa (u "/ kˈasa /") get_phoneme_map true
    = Some ([u " "; u "k"; u "ˈ"; u "a"; u "s"; u "a"; u " "], []).
Proof.
  apply (tokenize_kasa get_phoneme_map).
  - apply single_chars_check. reflexivity.
  - apply contains_true. reflexivity.
  - apply contains_true. reflexivity.
  - apply contains_true. reflexivity.
  - apply contains_true. reflexivity.
Defined.

(** C1, counterexample: with exactly the keys k, ˈ, a, s the two spaces are
    reported as unmapped, so the result is not the five tokens with nothing
    unmapped; nor is it with the repository's vocabulary, where the spaces
    are tokens. *)
Lemma tokenize_kasa_unmapped_spaces :
  tokenize_ipa (u "/ kˈasa /") kasa_vocabulary true
    = Some ([u "k"; u "ˈ"; u "a"; u "s"; u "a"], [space; space])
  /\ tokenize_ipa (u "/ kˈasa /") kasa_vocabulary true
    <> Some ([u "k"; u "ˈ"; u "a"; u "s"; u "a"], [])
  /\ tokenize_ipa (u "/ kˈasa /") get_phoneme_map true
    <> Some ([u "k"; u "ˈ"; u "a"; u "s"; u "a"], []).
Proof.
  split; [reflexivity|].
  split; intros H; vm_compute in H; discriminate H.
Qed.

(** ** Round trip on the vocabulary *)

(** In a vocabulary of one-character keys, for every key that is neither a
    whitespace character nor the slash: the text made of that key [n] times
    tokenizes, with the stress mark kept, to the key [n] times and nothing
    unmapped. *)
Lemma tokenize_repeated_char (d : vocabulary) (c : char) (n : nat) :
  single_chars d -> In [c] (keys d) ->
  isspace c = false -> c <> 47%N ->
  tokenize_ipa (concat (repeat [c] n)) d true = Some (repeat [c] n, []).
Proof.
  intros Hd Hc Hsp Hsl.
  assert (Hcat : concat (repeat [c] n) = repeat c n).
  { induction n as [|n IH]; [reflexivity | simpl; now rewrite IH]. }
  assert (Hstrip : strip_chars SLASH (strip (repeat c n)) = repeat c n).
  { unfold strip, strip_chars. rewrite (strip_by_repeat isspace c n Hsp).
    apply strip_by_repeat. simpl. apply eqc_false in Hsl. now rewrite Hsl. }
  assert (Hp : preprocess (repeat c n) d true = repeat c n).
  { unfold preprocess. rewrite Hstrip. simpl andb.
    assert (H1 : (if negb (contains d STRESS) then replace STRESS [] (repeat c n)
                  else repeat c n) = repeat c n).
    { destruct (contains d STRESS) eqn:Est; [reflexivity|]. simpl.
      apply replace_absent_char. intros Hin. apply repeat_spec in Hin. subst c.
      apply contains_true in Hc. unfold STRESS in Est. congruence. }
    rewrite H1.
    destruct (contains d TESH && negb (contains d T_ESH)); [|reflexivity].
    apply replace_no_occurrence. intros p t E.
    destruct (repeat_suffix c n p t E) as [m ->].
    unfold T_ESH. destruct m as [|[|m]]; cbn [startswith repeat].
    - reflexivity.
    - apply andb_false_r.
    - destruct (eqc 116 c) eqn:E1; [|reflexivity]. apply eqc_true in E1. now subst c. }
  rewrite Hcat, (tokenize_single_chars d _ true Hd), Hp. cbv zeta.
  apply contains_true in Hc. f_equal. f_equal.
  - clear Hcat Hstrip Hp. induction n as [|n IH]; [reflexivity|].
    simpl. rewrite Hc. simpl. now rewrite IH.
  - clear Hcat Hstrip Hp. induction n as [|n IH]; [reflexivity|].
    simpl. rewrite Hc. simpl. exact IH.
Qed.

Lemma strip_by_blank p s : Forall (fun c => p c = true) s -> strip_by p s = [].
Proof.
  intros H. unfold strip_by, lstrip_by, rstrip_by.
  assert (E : dropwhile p s = []).
  { induction H as [|c s Hc _ IH]; [reflexivity|]. simpl. now rewrite Hc. }
  now rewrite E.
Qed.

(** A text of whitespace is stripped to nothing. *)
Lemma tokenize_blank (d : vocabulary) (s : str) (keep : bool) :
  Forall (fun c => isspace c = true) s -> tokenize_ipa s d keep = Some ([], []).
Proof.
  intros H.
  assert (Hp : preprocess s d keep = []).
  { unfold preprocess, strip. rewrite (strip_by_blank isspace s H).
    change (strip_chars SLASH []) with (@nil N).
    destruct (negb (keep && contains d STRESS));
      destruct (contains d TESH && negb (contains d T_ESH)); reflexivity. }
  unfold tokenize_ipa, tokenize_with_fuel. rewrite Hp. reflexivity.
Qed.

(** With nothing unmapped, the scanned text is the tokens end to end. *)
Lemma interleaved_tokens_only ts s : interleaved ts [] s -> s = concat ts.
Proof.
  intros H. remember (@nil N) as us eqn:Eus.
  induction H as [| k ts us s _ IH | c ts us s _ IH]; [reflexivity | | discriminate].
  simpl. now rewrite (IH Eus).
Qed.

(** The scan of a key repeated gives the key each time exactly when no
    longer key is a prefix of what is left of the repetition. *)
Lemma greedy_repeat ks k : In k ks -> k <> [] ->
  forall n,
    greedy ks (concat (repeat k n)) (repeat k n) []
    <-> (forall m k', m < n -> In k' ks -> k' <> [] ->
           is_prefix k' (concat (repeat k (S m))) -> length k' <= length k).
Proof.
  intros Hin Hne. induction n as [|n IH].
  - split; [intros _ m k' Hm; lia | intros _; constructor].
  - cbn [repeat concat]. split.
    + intros H m k' Hm Hk' Hne' Hpre.
      inversion H as [| k0 rest ts us _ _ Hlong Hrest Etext [Ek Ets] Eus |]; subst.
      apply app_inv_head in Etext. subst rest.
      destruct (Nat.eq_dec m n) as [->|Hmn].
      * now apply Hlong.
      * apply (proj1 IH Hrest m k'); try assumption. lia.
    + intros H. constructor; try assumption.
      * intros k' Hk' Hne' Hpre. apply (H n k'); [lia | assumption..].
      * apply IH. intros m k' Hm. apply H. lia.
Qed.

(** C4, as the code has it.  For every vocabulary and every symbol [k] of
    it (a key that is not empty), the text made of [k] repeated [n] times
    tokenizes, with the stress mark kept, to [k] repeated [n] times and
    nothing unmapped exactly when the preprocessing leaves the text as it is
    and no key longer than [k] is a prefix of [k] repeated up to [n] times.
    In the repository's vocabulary that is so for every key but the space,
    whatever [n]; a text of spaces tokenizes to nothing at all, whatever
    [n].  (So does the empty string repeated, in every vocabulary: an empty
    key is never emitted.) *)
Theorem tokenize_repeated_symbol :
  (forall (d : vocabulary) (k : str) (n : nat),
     In k (keys d) -> k <> [] ->
     (tokenize_ipa (concat (repeat k n)) d true = Some (repeat k n, [])
      <-> preprocess (concat (repeat k n)) d true = concat (repeat k n)
          /\ (forall m k', m < n -> In k' (keys d) -> k' <> [] ->
                is_prefix k' (concat (repeat k (S m))) -> length k' <= length k)))
  /\ (forall (k : str) (n : nat),
        In k (keys get_phoneme_map) -> k <> u " " ->
        tokenize_ipa (concat (repeat k n)) get_phoneme_map true
          = Some (repeat k n, []))
  /\ (forall n : nat,
        tokenize_ipa (concat (repeat (u " ") n)) get_phoneme_map true = Some ([], []))
  /\ (forall (d : vocabulary) (n : nat),
        tokenize_ipa (concat (repeat [] n)) d true = Some ([], [])).
Proof.
  split; [|split; [|split]].
  - intros d k n Hin Hne.
    destruct (tokenize_ipa_spec (concat (repeat k n)) d true) as (ts & us & Hrun & Hg).
    assert (Ht : tokenize_ipa (concat (repeat k n)) d true = Some (ts, us))
      by (apply Hrun; lia).
    rewrite Ht. split.
    + intros [= -> ->].
      pose proof (interleaved_tokens_only _ _ (greedy_interleaved _ _ _ _ Hg)) as Hp.
      split; [exact Hp|]. rewrite Hp in Hg. now apply (greedy_repeat (keys d) k Hin Hne n).
    + intros [Hp Hlong]. rewrite Hp in Hg.
      apply (proj2 (greedy_repeat (keys d) k Hin Hne n)) in Hlong.
      destruct (greedy_functional _ _ _ _ Hg _ _ Hlong) as [-> ->]. reflexivity.
  - intros k n Hin Hk.
    assert (Hall : forallb (fun k => match k with
                                     | [c] => eqc c space
                                              || (negb (isspace c) && negb (eqc c 47))
                                     | _ => false
                                     end) (keys get_phoneme_map) = true) by reflexivity.
    rewrite forallb_forall in Hall. specialize (Hall k Hin).
    destruct k as [|c [|c' k]]; try discriminate Hall.
    apply orb_true_iff in Hall as [Hc|Hc].
    { apply eqc_true in Hc. subst c. elim Hk. reflexivity. }
    apply andb_true_iff in Hc as [Hsp Hsl].
    apply negb_true_iff in Hsp, Hsl. apply eqc_false in Hsl.
    apply tokenize_repeated_char; try assumption.
    apply single_chars_check. reflexivity.
  - intros n. apply tokenize_blank.
    induction n as [|n IH]; [constructor|]. simpl. now constructor.
  - intros d n. apply tokenize_blank.
    induction n as [|n IH]; [constructor | exact IH].
Qed.

(** C4, witness: the key a of the repository's vocabulary, three times. *)
Lemma tokenize_repeated_symbol_witness :
  tokenize_ipa (u "aaa") get_phoneme_map true = Some ([u "a"; u "a"; u "a"], []).
Proof.
  apply (proj1 (proj2 tokenize_repeated_symbol) (u "a") 3).
  - apply contains_true. reflexivity.
  - discriminate.
Defined.

(** C4, counterexample: the space is a key of the repository's vocabulary,
    and a text of three spaces tokenizes to nothing at all, the whitespace
    around the text being stripped before the scan. *)
Lemma tokenize_repeated_space :
  In (u " ") (keys get_phoneme_map)
  /\ tokenize_ipa (concat (repeat (u " ") 3)) get_phoneme_map true = Some ([], [])
  /\ tokenize_ipa (concat (repeat (u " ") 3)) get_phoneme_map true
     <> Some (repeat (u " ") 3, []).
Proof.
  split; [apply contains_true; reflexivity|].
  split; [reflexivity|]. intros H. vm_compute in H. discriminate H.
Qed.

(** Where a longer key is a prefix of the repetition, the longer key is
    what the scan emits. *)
Example tokenize_repeated_overlap :
  In (u "a") (keys overlap_vocabulary)
  /\ tokenize_ipa (concat (repeat (u "a") 2)) overlap_vocabulary true
     = Some ([u "aa"], [])
  /\ tokenize_ipa (concat (repeat (u "a") 2)) overlap_vocabulary true
     <> Some (repeat (u "a") 2, []).
Proof.
  split; [apply contains_true; reflexivity|].
  split; [reflexivity|]. intros H. vm_compute in H. discriminate H.
Qed.

(** ** Greedy longest match *)

(** C5.  For every text, vocabulary and flag the tokenizer returns (it
    raises nothing), and what it returns is the greedy longest-match reading
    of the preprocessed text, left to right: where some key is a prefix of
    the text still to scan, the longest such key is emitted and the scan
    moves past it; where none is, the character at hand is recorded as
    unmapped and the scan moves one character on.  (A key is a symbol of one
    character or more; the loop passes over an empty key.)  That reading is
    unique. *)
Theorem tokenize_greedy_longest_match (ipa_text : str) (d : vocabulary) (keep : bool) :
  exists ts us,
    tokenize_ipa ipa_text d keep = Some (ts, us)
    /\ greedy (keys d) (preprocess ipa_text d keep) ts us
    /\ (forall ts' us',
          greedy (keys d) (preprocess ipa_text d keep) ts' us' ->
          ts' = ts /\ us' = us).
Proof.
  destruct (tokenize_ipa_spec ipa_text d keep) as (ts & us & Hrun & Hg).
  exists ts, us. split; [|split].
  - apply Hrun. lia.
  - exact Hg.
  - apply greedy_functional. exact Hg.
Qed.

(** ** Termination and coverage *)

(** C10.  For every text, vocabulary and flag the scan ends: one iteration
    per character of the preprocessed text is enough, and more change
    nothing, every emitted token having at least one character (the empty
    key is never taken).  The tokens and the unmapped characters, each in
    its order, interleave to exactly the preprocessed text, so that every
    character of it is consumed exactly once. *)
Theorem tokenize_terminates_and_covers (ipa_text : str) (d : vocabulary) (keep : bool) :
  exists ts us,
    (forall fuel, length (preprocess ipa_text d keep) <= fuel ->
                  tokenize_with_fuel fuel ipa_text d keep = Some (ts, us))
    /\ tokenize_ipa ipa_text d keep = Some (ts, us)
    /\ Forall (fun k => 1 <= length k) ts
    /\ interleaved ts us (preprocess ipa_text d keep)
    /\ length (concat ts) + length us = length (preprocess ipa_text d keep).
Proof.
  destruct (tokenize_ipa_spec ipa_text d keep) as (ts & us & Hrun & Hg).
  exists ts, us. repeat split.
  - exact Hrun.
  - apply Hrun. lia.
  - exact (greedy_tokens_nonempty _ _ _ _ Hg).
  - exact (greedy_interleaved _ _ _ _ Hg).
  - apply interleaved_length, (greedy_interleaved _ _ _ _ Hg).
Qed.

End TokenizerProofs.

(* ================================================================== *)
(** * The grapheme-to-phoneme pipeline *)
(* ================================================================== *)

Module G2PProofs.
Import Py PyFacts G2P G2PSpec.

(** ** Lists and slices *)

Lemma firstn_length_app (a b : str) : firstn (length a) (a ++ b) = a.
Proof. induction a as [|x a IH]; simpl; [now destruct b | now rewrite IH]. Qed.

Lemma skipn_length_app (a b : str) : skipn (length a) (a ++ b) = b.
Proof. induction a as [|x a IH]; simpl; [reflexivity | exact IH]. Qed.

Lemma nth_error_length_app (a b : str) c : nth_error (a ++ c :: b) (length a) = Some c.
Proof. induction a as [|x a IH]; simpl; [reflexivity | exact IH]. Qed.

Lemma skipn_succ_app (a b : str) v : skipn (length a + 1) (a ++ v :: b) = b.
Proof. induction a as [|x a IH]; simpl; [reflexivity | exact IH]. Qed.

Lemma slice_at (a b : str) v : slice (a ++ v :: b) (length a) (length a + 1) = [v].
Proof.
  unfold slice. rewrite skipn_length_app.
  replace (length a + 1 - length a) with 1 by lia. reflexivity.
Qed.

Lemma slice_mid (a b c : str) : slice (a ++ b ++ c) (length a) (length (a ++ b)) = b.
Proof.
  unfold slice. rewrite skipn_length_app, length_app.
  replace (length a + length b - length a) with (length b) by lia.
  apply firstn_length_app.
Qed.

Lemma strip_by_Forall (P : N -> Prop) p s : Forall P s -> Forall P (strip_by p s).
Proof.
  assert (Hd : forall l, Forall P l -> Forall P (dropwhile p l)).
  { induction l as [|x l IH]; intros H; simpl; [constructor|].
    destruct (p x); [apply IH; now inversion H | assumption]. }
  intros H. unfold strip_by, rstrip_by, lstrip_by.
  apply Forall_rev, Hd, Forall_rev, Hd, H.
Qed.

Lemma join_Forall (P : N -> Prop) sep : Forall P sep ->
  forall l, Forall (Forall P) l -> Forall P (join sep l).
Proof.
  intros Hsep. induction l as [|x l IH]; intros H; [constructor|].
  inversion H as [|? ? Hx Hl]; subst. destruct l as [|y l]; [exact Hx|].
  change (Forall P (x ++ sep ++ join sep (y :: l))).
  rewrite !Forall_app. auto.
Qed.

(** ** Accents *)

Lemma accented_check c : accented c <-> char_in c VOWELS_ACCENTED = true.
Proof. symmetry. apply char_in_true. Qed.

Lemma accent_free_check s :
  forallb (fun c => negb (char_in c VOWELS_ACCENTED)) s = true -> accent_free s.
Proof.
  intros H. apply Forall_forall. intros c Hc Ha.
  rewrite forallb_forall in H. specialize (H c Hc).
  apply accented_check in Ha. rewrite Ha in H. discriminate.
Qed.

Lemma plain_accented :
  map plain VOWELS_ACCENTED = VOWELS.
Proof. reflexivity. Qed.

Lemma plain_spec c :
  (accented c /\ In (plain c) VOWELS) \/ (~ accented c /\ plain c = c).
Proof.
  unfold plain, lookup, ACUTE_MAP, eqc, accented, VOWELS_ACCENTED, VOWELS.
  cbn [find fst snd option_map].
  destruct (N.eqb_spec c 225) as [->|H1]; [left; simpl; auto 10|].
  destruct (N.eqb_spec c 233) as [->|H2]; [left; simpl; auto 10|].
  destruct (N.eqb_spec c 237) as [->|H3]; [left; simpl; auto 10|].
  destruct (N.eqb_spec c 243) as [->|H4]; [left; simpl; auto 10|].
  destruct (N.eqb_spec c 250) as [->|H5]; [left; simpl; auto 10|].
  right. split; [|reflexivity]. simpl. intuition congruence.
Qed.

Lemma plain_not_accented c : ~ accented (plain c).
Proof.
  destruct (plain_spec c) as [[_ H]|[H E]].
  - unfold accented, VOWELS_ACCENTED, VOWELS in *. simpl in *. intuition congruence.
  - now rewrite E.
Qed.

Lemma plain_id c : ~ accented c -> plain c = c.
Proof. intros H. destruct (plain_spec c) as [[Ha _]|[_ E]]; [contradiction | exact E]. Qed.

Lemma plain_idempotent c : plain (plain c) = plain c.
Proof. apply plain_id, plain_not_accented. Qed.

Lemma strip_accents_map s : strip_accents s = map plain s.
Proof. reflexivity. Qed.

Lemma strip_accents_accent_free s : accent_free (strip_accents s).
Proof.
  rewrite strip_accents_map. apply Forall_forall. intros c Hc.
  apply in_map_iff in Hc as (x & <- & _). apply plain_not_accented.
Qed.

Lemma strip_accents_id s : accent_free s -> strip_accents s = s.
Proof.
  rewrite strip_accents_map. induction 1 as [|c s Hc _ IH]; simpl; [reflexivity|].
  now rewrite (plain_id c Hc), IH.
Qed.

Lemma strip_accents_app a b : strip_accents (a ++ b) = strip_accents a ++ strip_accents b.
Proof. rewrite !strip_accents_map. apply map_app. Qed.

Lemma has_accent_false s : has_accent s = false <-> accent_free s.
Proof.
  unfold has_accent, accent_free, accented. rewrite Forall_forall. split.
  - intros H c Hc Ha.
    assert (E : existsb (fun v => char_in v s) VOWELS_ACCENTED = true).
    { apply existsb_exists. exists c. split; [exact Ha | now apply char_in_true]. }
    congruence.
  - intros H. destruct (existsb _ VOWELS_ACCENTED) eqn:E; [|reflexivity].
    apply existsb_exists in E as (c & Ha & Hc). apply char_in_true in Hc.
    elim (H c Hc Ha).
Qed.

(** ** The marker finalizer *)

Lemma search_class_none cls s :
  Forall (fun c => char_in c cls = false) s -> search_class cls s = None.
Proof.
  induction 1 as [|c s Hc _ IH]; simpl; [reflexivity|]. now rewrite Hc, IH.
Qed.

Lemma search_class_first cls pre v post :
  Forall (fun c => char_in c cls = false) pre -> char_in v cls = true ->
  search_class cls (pre ++ v :: post) = Some (length pre).
Proof.
  induction 1 as [|c s Hc _ IH]; intros Hv; simpl.
  - now rewrite Hv.
  - now rewrite Hc, IH.
Qed.

Lemma accent_free_class s :
  accent_free s -> Forall (fun c => char_in c VOWELS_ACCENTED = false) s.
Proof.
  apply Forall_impl. intros c Hc. rewrite accented_check in Hc.
  now destruct (char_in c VOWELS_ACCENTED).
Qed.

Lemma insert_marker_accent_free s : accent_free (insert_stress_marker_and_clean s).
Proof.
  unfold insert_stress_marker_and_clean.
  destruct (search_class VOWELS_ACCENTED s); apply strip_accents_accent_free.
Qed.

Lemma insert_marker_no_accent s :
  accent_free s -> insert_stress_marker_and_clean s = s.
Proof.
  intros H. unfold insert_stress_marker_and_clean.
  rewrite (search_class_none _ _ (accent_free_class s H)).
  now apply strip_accents_id.
Qed.

(** Where the first accented vowel [v] stands, and what comes out: [keep] is
    what stays before the marker, [onset] what the marker takes with it. *)
Lemma insert_marker_at keep onset v post :
  accent_free (keep ++ onset) -> accented v ->
  (if (0 <? length (keep ++ onset)) &&
      match nth_error (keep ++ onset ++ v :: post) (length (keep ++ onset) - 1) with
      | Some c => char_in c GLIDES
      | None => false
      end
   then length (keep ++ onset) - 1 else length (keep ++ onset)) = length keep ->
  insert_stress_marker_and_clean (keep ++ onset ++ v :: post)
    = keep ++ STRESS ++ onset ++ plain v :: strip_accents post.
Proof.
  intros Hfree Hv Hstart. unfold insert_stress_marker_and_clean.
  rewrite app_assoc.
  rewrite (search_class_first VOWELS_ACCENTED (keep ++ onset) v post
             (accent_free_class _ Hfree) (proj1 (accented_check v) Hv)).
  cbv zeta.
  rewrite (slice_at (keep ++ onset) post v), (skipn_succ_app (keep ++ onset) post v).
  rewrite <- !app_assoc. rewrite Hstart.
  rewrite firstn_length_app, (slice_mid keep onset (v :: post)).
  apply Forall_app in Hfree as [Hk Ho].
  rewrite !strip_accents_app, (strip_accents_id keep Hk), (strip_accents_id onset Ho).
  change (strip_accents (strip_accents [v])) with [plain (plain v)].
  rewrite plain_idempotent. reflexivity.
Qed.

(** C6.  The marker finalizer, for every phone string [s].
    - If [s] has no accented vowel it is returned as it is.
    - Otherwise, with [v] the first accented vowel of [s]: when the
      character just before [v] is a glide (j or w), the stress mark is put
      just before the glide; when it is not (or [v] comes first), just before
      [v].  In both cases [v] is replaced by its plain equivalent, and the
      accents of the rest of the string are stripped.
    - The result never has an accented vowel; the plain equivalents of
      á é í ó ú are a e i o u. *)
Theorem marker_finalizer (s : str) :
  (accent_free s -> insert_stress_marker_and_clean s = s)
  /\ (forall pre v post,
        s = pre ++ v :: post -> accent_free pre -> accented v ->
        (forall pre' g, pre = pre' ++ [g] -> In g GLIDES ->
           insert_stress_marker_and_clean s
             = pre' ++ STRESS ++ g :: plain v :: strip_accents post)
        /\ ((forall pre' g, pre = pre' ++ [g] -> ~ In g GLIDES) ->
           insert_stress_marker_and_clean s
             = pre ++ STRESS ++ plain v :: strip_accents post))
  /\ accent_free (insert_stress_marker_and_clean s)
  /\ map plain VOWELS_ACCENTED = VOWELS.
Proof.
  split; [apply insert_marker_no_accent|].
  split; [|split; [apply insert_marker_accent_free | reflexivity]].
  intros pre v post -> Hfree Hv. split.
  - intros pre' g -> Hg. rewrite <- app_assoc.
    apply (insert_marker_at pre' [g] v post Hfree Hv).
    rewrite length_app. cbn [length].
    replace (length pre' + 1 - 1) with (length pre') by lia.
    cbn [app]. rewrite nth_error_length_app.
    apply char_in_true in Hg. rewrite Hg.
    destruct (Nat.ltb_spec 0 (length pre' + 1)); [reflexivity | lia].
  - intros Hno.
    change (pre ++ v :: post) with (pre ++ [] ++ v :: post).
    change (pre ++ STRESS ++ plain v :: strip_accents post)
      with (pre ++ STRESS ++ [] ++ plain v :: strip_accents post).
    apply (insert_marker_at pre [] v post); rewrite ?app_nil_r; try assumption.
    cbn [app]. destruct pre as [|x pre] using rev_ind; [reflexivity|].
    clear IHpre. rewrite length_app. cbn [length].
    replace (length pre + 1 - 1) with (length pre) by lia.
    rewrite <- app_assoc. cbn [app]. rewrite nth_error_length_app.
    specialize (Hno pre x eq_refl). apply char_in_false in Hno. rewrite Hno.
    now rewrite andb_false_r.
Qed.

(** C6, witness: in bwéno the glide w stands just before the accented
    vowel, and the mark goes before the glide. *)
Lemma marker_finalizer_witness :
  insert_stress_marker_and_clean (u "bwéno") = u "bˈweno".
Proof.
  destruct (marker_finalizer (u "bwéno")) as (_ & H & _).
  assert (Hfree : accent_free (u "bw")) by (apply accent_free_check; reflexivity).
  assert (Hv : accented 233%N) by (unfold accented, VOWELS_ACCENTED; simpl; tauto).
  destruct (H (u "bw") 233%N (u "no") eq_refl Hfree Hv) as [Hglide _].
  assert (Hg : In 119%N GLIDES) by (unfold GLIDES; simpl; tauto).
  exact (Hglide (u "b") 119%N eq_refl Hg).
Defined.

(** ** The output has no accented vowel *)

Lemma punct_not_accented c : is_punct c = true -> ~ accented c.
Proof.
  intros Hp Ha. unfold accented, VOWELS_ACCENTED in Ha. simpl in Ha.
  destruct Ha as [<-|[<-|[<-|[<-|[<-|[]]]]]]; discriminate Hp.
Qed.

Section Driver.

Variable normalize_NFC : str -> str.
Variable lower : str -> str.

(** What holds of the kept punctuation tokens and of every word's phones
    holds of every entry of [out]; [Q] is what is known of the tokens. *)
Lemma g2p_out_Forall (P Q : str -> Prop) :
  (forall tok, Q tok -> tok <> [] -> forallb is_punct tok = true -> P tok) ->
  (forall tok, Q tok -> tok <> [] -> forallb is_punct tok = false ->
               P (phones lower tok)) ->
  forall toks acc, Forall Q toks -> Forall P acc ->
                   Forall P (fold_left (g2p_step lower) toks acc).
Proof.
  intros Hp Hw. induction toks as [|tok toks IH]; intros acc Hq Hacc; simpl; [exact Hacc|].
  inversion Hq as [|? ? Hqt Hqs]; subst.
  apply IH; [exact Hqs|]. unfold g2p_step. destruct tok as [|c tok]; [exact Hacc|].
  destruct (forallb is_punct (c :: tok)) eqn:E; apply Forall_app; split; try exact Hacc;
    constructor; try constructor.
  - apply Hp; [exact Hqt | discriminate | exact E].
  - apply Hw; [exact Hqt | discriminate | exact E].
Qed.

Lemma g2p_out_accent_free text : Forall accent_free (g2p_out lower text).
Proof.
  unfold g2p_out. apply (g2p_out_Forall accent_free (fun _ => True)).
  - intros tok _ _ H. apply Forall_forall. intros c Hc.
    rewrite forallb_forall in H. apply punct_not_accented, H, Hc.
  - intros tok _ _ _. apply insert_marker_accent_free.
  - apply Forall_forall. trivial.
  - constructor.
Qed.

(** C2.  For every input text, whatever Unicode database the pipeline runs
    with, the transcription has none of á, é, í, ó, ú. *)
Theorem g2p_accent_free (text : str) : accent_free (g2p normalize_NFC lower text).
Proof.
  unfold g2p. destruct text as [|c text]; [apply accent_free_check; reflexivity|].
  cbv zeta.
  assert (H : accent_free (strip (join (u " ")
                (g2p_out lower (_space_punct (_normalize_nfc normalize_NFC (c :: text))))))).
  { apply strip_by_Forall, join_Forall.
    - apply accent_free_check. reflexivity.
    - apply g2p_out_accent_free. }
  destruct (strip _) as [|x result]; [apply accent_free_check; reflexivity|].
  unfold accent_free. rewrite !Forall_app. repeat split.
  - apply accent_free_check. reflexivity.
  - exact H.
  - apply accent_free_check. reflexivity.
Qed.

(** ** The shape of the transcription *)

Lemma dropwhile_nil p s : dropwhile p s = [] <-> Forall (fun c => p c = true) s.
Proof.
  induction s as [|c s IH]; simpl; [split; auto|].
  destruct (p c) eqn:E.
  - rewrite IH. split; [now constructor | intros H; now inversion H].
  - split; [discriminate | intros H; inversion H; congruence].
Qed.

Lemma dropwhile_stops p s : Forall (fun c => p c = true) (dropwhile p s) -> dropwhile p s = [].
Proof.
  induction s as [|c s IH]; simpl; [reflexivity|].
  destruct (p c) eqn:E; [exact IH|]. intros H. inversion H; congruence.
Qed.

Lemma strip_by_nil p s : strip_by p s = [] <-> Forall (fun c => p c = true) s.
Proof.
  unfold strip_by, rstrip_by, lstrip_by. split.
  - intros H. apply (f_equal (@rev N)) in H. rewrite rev_involutive in H. simpl in H.
    apply dropwhile_nil, Forall_rev in H. rewrite rev_involutive in H.
    apply dropwhile_nil, dropwhile_stops, H.
  - intros H. apply dropwhile_nil in H. now rewrite H.
Qed.

Lemma join_blank l : blank (join (u " ") l) <-> Forall blank l.
Proof.
  induction l as [|x l IH]; [split; constructor|].
  destruct l as [|y l].
  - simpl. split; [intros H; now repeat constructor | intros H; now inversion H].
  - change (join (u " ") (x :: y :: l)) with (x ++ u " " ++ join (u " ") (y :: l)).
    unfold blank at 1. rewrite !Forall_app. fold (blank x).
    fold (blank (join (u " ") (y :: l))). rewrite IH. split.
    + intros (Hx & _ & Hl). now constructor.
    + intros H. inversion H; subst. repeat split; try assumption.
      repeat constructor.
Qed.

(** C8, as the code has it.  For every input text the transcription is
    either [/ R /], with [R] the non-empty, whitespace-trimmed join by single
    spaces of the outputs of the tokens, or the degenerate [//].  It is [//]
    exactly when the input is empty or every token's output is blank (empty
    or whitespace only); in particular when the input is empty or
    normalizes to nothing. *)
Theorem g2p_shape (text : str) :
  let out := g2p_out lower (_space_punct (_normalize_nfc normalize_NFC text)) in
  (g2p normalize_NFC lower text = u "//"
   \/ exists result,
        result <> [] /\ result = strip (join (u " ") out)
        /\ g2p normalize_NFC lower text = u "/ " ++ result ++ u " /")
  /\ (g2p normalize_NFC lower text = u "//" <-> text = [] \/ Forall blank out)
  /\ (text = [] \/ _space_punct (_normalize_nfc normalize_NFC text) = [] ->
      g2p normalize_NFC lower text = u "//").
Proof.
  cbv zeta. unfold g2p. destruct text as [|c text].
  { split; [now left|]. split; [|reflexivity]. split; [now left | reflexivity]. }
  cbv zeta.
  set (out := g2p_out lower (_space_punct (_normalize_nfc normalize_NFC (c :: text)))).
  pose proof (strip_by_nil isspace (join (u " ") out)) as Hnil.
  fold (strip (join (u " ") out)) in Hnil. fold (blank (join (u " ") out)) in Hnil.
  rewrite join_blank in Hnil.
  assert (Hempty : _space_punct (_normalize_nfc normalize_NFC (c :: text)) = [] ->
                   strip (join (u " ") out) = []).
  { intros E. subst out. rewrite E. reflexivity. }
  destruct (strip (join (u " ") out)) as [|x result] eqn:E.
  - split; [now left|]. split.
    + split; [intros _; right; now apply Hnil | reflexivity].
    + reflexivity.
  - split; [right; exists (x :: result); repeat split; discriminate || reflexivity|].
    split.
    + split; [discriminate|]. intros [H|H]; [discriminate|].
      apply Hnil in H. discriminate.
    + intros [H|H]; [discriminate|]. apply Hempty in H. discriminate.
Qed.

End Driver.

(** ** Punctuation is spaced out *)

Lemma space_not_punct : is_punct space = false.
Proof. reflexivity. Qed.

Lemma punct_not_space c : is_punct c = true -> isspace c = false /\ eqc c space = false.
Proof.
  intros H. apply char_in_true in H. unfold _PUNCT_CHARS in H. simpl in H.
  repeat (destruct H as [<-|H]; [split; reflexivity|]). contradiction.
Qed.

Lemma space_punct_unfold text :
  _space_punct text
    = strip (collapse false
               (re_sub (p_lit (u "...")) (fun _ => u " . . . ") (flat_map wrap_punct text))).
Proof.
  unfold _space_punct. f_equal.
  assert (Hc : forall rest before,
    sub_from (p_plus isspace) (fun _ => [space]) before rest 0 = collapse false rest
    /\ sub_from (p_plus isspace) (fun _ => [space]) before rest (run_length isspace rest)
       = collapse true rest).
  { induction rest as [|c rest IH]; intros before; [split; reflexivity|].
    destruct (IH (c :: before)) as [IH0 IH1].
    assert (Hp : p_plus isspace before (c :: rest)
                 = if isspace c then Some (S (run_length isspace rest)) else None).
    { unfold p_plus. simpl. now destruct (isspace c). }
    cbn [sub_from run_length collapse]. rewrite Hp. destruct (isspace c).
    - split; [now rewrite IH1 | exact IH1].
    - split; now rewrite IH0. }
  unfold re_sub at 1. rewrite (proj1 (Hc _ [])). f_equal. f_equal.
  unfold re_sub. rewrite sub_from_class. apply flat_map_ext. intros c.
  unfold wrap_punct, is_punct. reflexivity.
Qed.

Lemma wrap_punct_then_space text : punct_then_space (flat_map wrap_punct text).
Proof.
  induction text as [|c text IH]; simpl; [exact I|].
  unfold wrap_punct. destruct (is_punct c) eqn:E; simpl.
  - rewrite space_not_punct. repeat split; try discriminate; try assumption.
    intros _. now eexists.
  - split; [congruence | exact IH].
Qed.

Lemma punct_then_space_suffix p : forall t, punct_then_space (p ++ t) -> punct_then_space t.
Proof. induction p as [|c p IH]; intros t H; [exact H | apply IH, H]. Qed.

(** After the first substitution no three dots are left in a row, so the
    second one changes nothing. *)
Lemma ellipsis_unchanged text :
  re_sub (p_lit (u "...")) (fun _ => u " . . . ") (flat_map wrap_punct text)
    = flat_map wrap_punct text.
Proof.
  apply replace_no_occurrence. intros p t E.
  pose proof (wrap_punct_then_space text) as H. rewrite E in H.
  apply punct_then_space_suffix in H.
  destruct (startswith (u "...") t) eqn:Es; [|reflexivity].
  apply startswith_true in Es as [t' ->]. simpl in H.
  destruct H as [H _]. destruct (H eq_refl) as [s'' Hs]. discriminate Hs.
Qed.

Lemma isolated_from_collapse text :
  (forall b, isolated_from b (collapse false (flat_map wrap_punct text)))
  /\ isolated_from true (collapse true (flat_map wrap_punct text)).
Proof.
  induction text as [|c text [IH0 IH1]]; [split; intros; exact I|].
  cbn [flat_map]. unfold wrap_punct at 1 3. destruct (is_punct c) eqn:Ep.
  - destruct (punct_not_space c Ep) as [Hs He].
    cbn [app collapse]. change (isspace space) with true. cbn iota. rewrite Hs.
    cbn [collapse]. change (isspace space) with true. cbn iota.
    split; [intros b|]; cbn [isolated_from]; rewrite ?space_not_punct, ?Ep, ?He;
      repeat split; try discriminate; try reflexivity; exact IH1.
  - cbn [app collapse]. destruct (isspace c) eqn:Es.
    + split; [intros b|]; [|exact IH1].
      cbn [isolated_from]. rewrite space_not_punct. split; [discriminate|exact IH1].
    + split; [intros b|]; cbn [isolated_from]; rewrite Ep; split; try discriminate;
        apply IH0.
Qed.

Lemma isolated_from_weaken b s : isolated_from b s -> isolated_from true s.
Proof. destruct s as [|c s]; [auto|]. simpl. intros [H1 H2]. split; [|exact H2]. intros Hp. now destruct (H1 Hp). Qed.

Lemma isolated_from_dropwhile p : forall s b,
  isolated_from b s -> isolated_from true (dropwhile p s).
Proof.
  induction s as [|c s IH]; intros b H; [exact I|]. simpl.
  destruct (p c); [apply (IH (eqc c space)), H | exact (isolated_from_weaken _ _ H)].
Qed.

Lemma isolated_from_prefix a q : forall b, isolated_from b (a ++ q) -> isolated_from b a.
Proof.
  induction a as [|c a IH]; intros b H; [exact I|].
  simpl in *. destruct H as [H1 H2]. split; [|apply IH, H2].
  intros Hp. destruct (H1 Hp) as [Hb Hn]. split; [exact Hb|].
  destruct a; [exact I | exact Hn].
Qed.

Lemma isolated_from_strip p s b : isolated_from b s -> isolated_from true (strip_by p s).
Proof.
  intros H. unfold strip_by.
  destruct (rstrip_by_prefix p (lstrip_by p s)) as [q Hq].
  apply (isolated_from_prefix _ q). rewrite <- Hq.
  now apply (isolated_from_dropwhile p s b).
Qed.

Lemma space_punct_isolated text : isolated_from true (_space_punct text).
Proof.
  rewrite space_punct_unfold, ellipsis_unchanged.
  apply (isolated_from_strip isspace _ false), isolated_from_collapse.
Qed.

(** The tokens of a string whose punctuation stands alone. *)
Lemma isolated_tokens : forall s b,
  isolated_from b s ->
  Forall unmixed (split space s)
  /\ (b = false -> forall w ws, split space s = w :: ws -> punct_free w).
Proof.
  induction s as [|c s IH]; intros b H.
  - simpl. split; [constructor; [left|]; constructor
                   | intros _ w ws [= <- _]; constructor].
  - simpl in H. destruct H as [Hc Hs]. simpl. destruct (eqc c space) eqn:Ec.
    + destruct (IH true Hs) as [IH1 _]. split.
      * constructor; [left; constructor | exact IH1].
      * intros _ w ws [= <- _]. constructor.
    + destruct (IH false Hs) as [IH1 IH2].
      destruct (split space s) as [|w ws] eqn:Esp.
      { split; [|intros Hb w ws [= <- _]].
        - constructor; [|constructor].
          destruct (is_punct c) eqn:Ep; [right; now exists c|].
          left. constructor; [exact Ep | constructor].
        - subst b. destruct (is_punct c) eqn:Ep; [now destruct (Hc eq_refl)|].
          constructor; [exact Ep | constructor]. }
      specialize (IH2 eq_refl w ws eq_refl). inversion IH1 as [|? ? _ Hws]; subst.
      destruct (is_punct c) eqn:Ep.
      * destruct (Hc eq_refl) as [Hb Hn].
        assert (w = []) as ->.
        { destruct s as [|d s]; [simpl in Esp; congruence|]. rewrite Hn in Esp.
          cbn [split] in Esp. rewrite eqc_refl in Esp. congruence. }
        split; [constructor; [right; now exists c | exact Hws]|].
        intros Hb'. congruence.
      * assert (Hw : punct_free (c :: w)) by now constructor.
        split; [constructor; [now left | exact Hws]|].
        intros _ w' ws' [= <- _]. exact Hw.
Qed.

(** ** The rewriting steps keep what holds of every character *)

Lemma Forall_literal (P : N -> Prop) all lit :
  Forall P all -> forallb (fun c => char_in c all) lit = true -> Forall P lit.
Proof.
  intros Hall Hc. apply Forall_forall. intros c Hin.
  rewrite forallb_forall in Hc. rewrite Forall_forall in Hall.
  apply Hall, char_in_true, Hc, Hin.
Qed.

Ltac literal H := apply (Forall_literal _ _ _ H); reflexivity.

Ltac rewriting_steps H :=
  repeat first
    [ apply replace_Forall; [literal H|]
    | apply re_sub_Forall; [intros ? ?; literal H|]
    | match goal with
      | |- Forall _ (if ?b then _ else _) => destruct b
      | |- Forall _ (_ ++ _) => apply Forall_app; split; [try literal H|]
      | |- Forall _ (skipn _ _) => apply Forall_skipn
      | |- Forall _ (firstn _ _) => apply Forall_firstn
      end ].

Lemma consonants_Forall (P : N -> Prop) w :
  Forall P CONSONANT_PHONES -> Forall P w -> Forall P (consonants w).
Proof.
  intros HL H. unfold consonants, NASAL_ASSIMILATION. cbv zeta. cbn [andb].
  cbv iota. rewriting_steps HL; exact H.
Qed.

Lemma rhotics_Forall (P : N -> Prop) w :
  Forall P RHOTIC_PHONES -> Forall P w -> Forall P (rhotics w).
Proof.
  intros HL H. unfold rhotics. cbv zeta.
  apply replace_Forall; [literal HL|].
  apply replace_Forall; [literal HL|].
  apply re_sub_Forall.
  { intros m Hm. apply Forall_app. split; [now apply Forall_firstn | literal HL]. }
  rewriting_steps HL; exact H.
Qed.

Lemma map_graphemes_Forall (P : N -> Prop) lower w :
  Forall P CONSONANT_PHONES -> Forall P RHOTIC_PHONES -> P 105%N ->
  Forall P (lower w) -> Forall P (map_graphemes lower w).
Proof.
  intros HC HR Hi H. unfold map_graphemes, normalize_word.
  change (nasal_assimilation (lower w)) with (lower w). cbv zeta.
  destruct (eqs (lower w) (u "y")); [now repeat constructor|].
  now apply rhotics_Forall, consonants_Forall.
Qed.

Lemma lookup_accent ch a : lookup ch ACCENT_VOWEL_MAP = Some a -> In a VOWELS_ACCENTED.
Proof.
  unfold lookup, ACCENT_VOWEL_MAP, VOWELS_ACCENTED, eqc. cbn [find fst snd].
  repeat match goal with
         | |- context [N.eqb ch ?k] =>
             destruct (N.eqb_spec ch k); [cbn; intros [= <-]; simpl; auto 10|]
         end.
  cbn. discriminate.
Qed.

Lemma accent_first_plain_Forall (P : N -> Prop) s :
  Forall P VOWELS_ACCENTED -> Forall P s ->
  forall count j, Forall P (accent_first_plain s j count).
Proof.
  intros HA H. induction count as [|count IH]; intros j; cbn [accent_first_plain];
    [exact H|].
  destruct (nth_error s j) as [ch|]; [|exact H].
  destruct (char_in ch VOWELS); [|apply IH].
  destruct (lookup ch ACCENT_VOWEL_MAP) as [a|] eqn:E; [|exact H].
  rewrite Forall_app. split; [now apply Forall_firstn|].
  constructor; [|now apply Forall_skipn].
  rewrite Forall_forall in HA. apply HA, (lookup_accent ch a E).
Qed.

Lemma add_stress_Forall (P : N -> Prop) s :
  Forall P VOWELS_ACCENTED -> Forall P s -> Forall P (add_stress_if_needed s).
Proof.
  intros HA H. unfold add_stress_if_needed.
  destruct (has_accent s); [exact H|]. cbv zeta.
  destruct (length (re_finditer (p_plus is_vowel) s) <=? 1); [exact H|].
  destruct (nth_error _ _) as [[g_start g_end]|]; [|exact H].
  now apply accent_first_plain_Forall.
Qed.

Lemma apply_glides_safe s : apply_glides s = s.
Proof. reflexivity. Qed.

Lemma insert_marker_Forall (P : N -> Prop) s :
  Forall P STRESS -> (forall c, P c -> P (plain c)) ->
  Forall P s -> Forall P (insert_stress_marker_and_clean s).
Proof.
  intros HS Hplain H.
  assert (Hstrip : forall x, Forall P x -> Forall P (strip_accents x)).
  { intros x Hx. rewrite strip_accents_map. apply Forall_forall. intros c Hc.
    apply in_map_iff in Hc as (d & <- & Hd). rewrite Forall_forall in Hx. auto. }
  unfold insert_stress_marker_and_clean.
  destruct (search_class VOWELS_ACCENTED s) as [pos|]; [|now apply Hstrip].
  cbv zeta. apply Hstrip. unfold slice.
  repeat (apply Forall_app; split);
    auto using Forall_firstn, Forall_skipn.
Qed.

Lemma plain_not_punct c : is_punct c = false -> is_punct (plain c) = false.
Proof.
  intros H. destruct (plain_spec c) as [[_ Hv]|[_ ->]]; [|exact H].
  unfold VOWELS in Hv. simpl in Hv.
  repeat (destruct Hv as [<-|Hv]; [reflexivity|]). contradiction.
Qed.

Lemma phones_punct_free lower tok :
  punct_free (lower tok) -> punct_free (phones lower tok).
Proof.
  intros H. unfold phones. rewrite apply_glides_safe.
  apply insert_marker_Forall.
  - now repeat constructor.
  - apply plain_not_punct.
  - apply add_stress_Forall; [now repeat constructor|].
    apply map_graphemes_Forall; try exact H; try reflexivity; now repeat constructor.
Qed.

(** ** The transcription keeps punctuation spaced out *)

Lemma isolated_punct_free x : punct_free x -> forall b, isolated_from b x.
Proof.
  induction 1 as [|c x Hc _ IH]; intros b; simpl; [exact I|].
  split; [congruence | apply IH].
Qed.

Lemma isolated_from_app_space x r :
  punct_free x -> isolated_from true r -> forall b, isolated_from b (x ++ space :: r).
Proof.
  induction 1 as [|c x Hc _ IH]; intros Hr b; simpl.
  - rewrite space_not_punct. split; [discriminate | exact Hr].
  - split; [congruence | now apply IH].
Qed.

Lemma isolated_from_join outs :
  Forall unmixed outs -> isolated_from true (join (u " ") outs).
Proof.
  induction outs as [|x outs IH]; intros H; [exact I|].
  inversion H as [|? ? Hx Houts]; subst. specialize (IH Houts).
  destruct outs as [|y outs].
  - simpl. destruct Hx as [Hx|(c & -> & Hc)]; [now apply isolated_punct_free|].
    simpl. auto.
  - change (join (u " ") (x :: y :: outs))
      with (x ++ space :: join (u " ") (y :: outs)).
    destruct Hx as [Hx|(c & -> & Hc)]; [now apply isolated_from_app_space|].
    simpl. rewrite space_not_punct. repeat split; try discriminate. exact IH.
Qed.

Lemma isolated_from_close : forall s b,
  isolated_from b s -> isolated_from b (s ++ [space; 47%N]).
Proof.
  induction s as [|c s IH]; intros b H; simpl.
  - repeat split; discriminate.
  - simpl in H. destruct H as [H1 H2]. split; [|now apply IH].
    intros Hp. destruct (H1 Hp) as [Hb Hn]. split; [exact Hb|].
    destruct s; [reflexivity | exact Hn].
Qed.

Lemma isolated_from_at : forall pre s b c post,
  isolated_from b s -> s = pre ++ c :: post -> is_punct c = true ->
  ((pre = [] /\ b = true) \/ exists pre', pre = pre' ++ [space])
  /\ (post = [] \/ exists post', post = space :: post').
Proof.
  induction pre as [|x pre IH]; intros s b c post H -> Hp.
  - simpl in H. destruct H as [H _]. destruct (H Hp) as [Hb Hn]. split; [now left|].
    destruct post as [|d post]; [now left | right; exists post; now rewrite Hn].
  - simpl in H. destruct H as [_ H].
    destruct (IH _ _ c post H eq_refl Hp) as [[[-> Hb]|[pre' ->]] Hpost];
      (split; [right | exact Hpost]).
    + apply eqc_true in Hb. subst x. now exists [].
    + now exists (x :: pre').
Qed.

Lemma punct_isolated_closed x :
  isolated_from false (x ++ [47%N]) -> punct_isolated (x ++ [47%N]).
Proof.
  intros H pre c post E Hp.
  destruct (isolated_from_at pre _ false c post H E Hp) as [[[_ Hb]|Hpre] Hpost];
    [discriminate|].
  split; [exact Hpre|]. destruct Hpost as [->|Hpost]; [|exact Hpost].
  apply app_inj_tail in E as [_ <-]. discriminate Hp.
Qed.

Lemma never_adjacent_isolated (alphabetic : N -> Prop) s :
  ~ alphabetic space -> punct_isolated s ->
  never_adjacent (fun c => is_punct c = true) alphabetic s.
Proof.
  intros Hsp H pre a b post E. split.
  - intros [Ha Hb]. destruct (H pre a (b :: post) E Ha) as [_ [post' [= -> _]]]. auto.
  - intros [Ha Hb].
    assert (E' : s = (pre ++ [a]) ++ b :: post) by now rewrite <- app_assoc.
    destruct (H _ b post E' Hb) as [[pre' Hpre] _].
    apply app_inj_tail in Hpre as [_ ->]. auto.
Qed.

Section Spacing.

Variable normalize_NFC : str -> str.
Variable lower : str -> str.

(** [str.lower] makes no punctuation of what is none. *)
Hypothesis lower_punct_free : forall w, punct_free w -> punct_free (lower w).

Lemma g2p_out_unmixed text :
  isolated_from true text -> Forall unmixed (g2p_out lower text).
Proof.
  intros H. unfold g2p_out. apply (g2p_out_Forall lower unmixed unmixed).
  - intros tok Hq _ _. exact Hq.
  - intros tok [Hq|(c & -> & Hc)] _ E.
    + left. apply phones_punct_free, lower_punct_free, Hq.
    + simpl in E. rewrite Hc in E. discriminate E.
  - apply (isolated_tokens text true H).
  - constructor.
Qed.

(** C9.  For every input text, every punctuation character of the
    transcription has a space just before it and a space just after it; so,
    whatever characters count as alphabetic (the space does not), no
    punctuation character stands next to an alphabetic one.  [str.lower] is
    taken to make no punctuation character out of a text that has none. *)
Theorem g2p_punct_isolated (text : str) :
  punct_isolated (g2p normalize_NFC lower text)
  /\ forall alphabetic : char -> Prop,
       ~ alphabetic space ->
       never_adjacent (fun c => is_punct c = true) alphabetic
                      (g2p normalize_NFC lower text).
Proof.
  assert (H : punct_isolated (g2p normalize_NFC lower text)).
  { unfold g2p. destruct text as [|c text].
    { apply (punct_isolated_closed [47%N]). simpl. repeat split; discriminate. }
    cbv zeta.
    set (out := g2p_out lower _).
    assert (Hs : isolated_from true (strip (join (u " ") out))).
    { apply (isolated_from_strip isspace _ true), isolated_from_join.
      apply g2p_out_unmixed, space_punct_isolated. }
    destruct (strip (join (u " ") out)) as [|x result].
    { apply (punct_isolated_closed [47%N]). simpl. repeat split; discriminate. }
    assert (E : forall r : str,
               u "/ " ++ r ++ u " /" = (47%N :: space :: r ++ [space]) ++ [47%N]).
    { intros r. simpl. now rewrite <- app_assoc. }
    remember (x :: result) as r eqn:Er. clear Er.
    rewrite E. apply punct_isolated_closed. rewrite <- E.
    change (u "/ " ++ r ++ u " /") with (47%N :: space :: (r ++ [space; 47%N])).
    cbn [isolated_from].
    split; [intros Hp; discriminate Hp|]. split; [intros Hp; discriminate Hp|].
    change (eqc space space) with true. now apply isolated_from_close. }
  split; [exact H|]. intros alphabetic Hsp. now apply never_adjacent_isolated.
Qed.

End Spacing.

Lemma ascii_lower_punct_free w : punct_free w -> punct_free (Ascii.lower w).
Proof.
  unfold punct_free, Ascii.lower. intros H. apply Forall_forall. intros c Hc.
  apply in_map_iff in Hc as (d & <- & Hd). rewrite Forall_forall in H.
  specialize (H d Hd). unfold Ascii.lower_char.
  destruct ((65 <=? d) && (d <=? 90))%N eqn:E; [|exact H].
  apply andb_true_iff in E as [E1 E2]. apply N.leb_le in E1, E2.
  unfold is_punct, char_in, _PUNCT_CHARS, eqc. cbn [existsb].
  repeat (apply orb_false_intro); try reflexivity; apply N.eqb_neq; lia.
Qed.

(** C9, witness: a greeting, with the ASCII-text database. *)
Lemma g2p_punct_isolated_witness :
  punct_isolated (Ascii.g2p (u "Hola, mundo."))
  /\ forall alphabetic : char -> Prop,
       ~ alphabetic space ->
       never_adjacent (fun c => is_punct c = true) alphabetic
                      (Ascii.g2p (u "Hola, mundo.")).
Proof.
  exact (g2p_punct_isolated Ascii.nfc Ascii.lower ascii_lower_punct_free
                            (u "Hola, mundo.")).
Defined.

(** C8, counterexample: the one-letter word h is neither empty nor
    normalized to nothing, and yet its transcription is [//]: the letter is
    silent, so the word's phone string is empty. *)
Lemma g2p_silent_word :
  Ascii.g2p (u "h") = u "//"
  /\ u "h" <> []
  /\ _space_punct (_normalize_nfc Ascii.nfc (u "h")) = u "h"
  /\ _space_punct (_normalize_nfc Ascii.nfc (u "h")) <> [].
Proof. repeat split; discriminate. Qed.

(** ** Stress *)

Lemma count_after_run s :
  count_groups true s = count_groups false (skipn (run_length is_vowel s) s).
Proof.
  induction s as [|c s IH]; [reflexivity|]. simpl.
  destruct (is_vowel c) eqn:E; simpl; [exact IH | now rewrite E].
Qed.

(** The pattern finds as many groups as there are maximal runs of vowels. *)
Lemma groups_count : forall n s pos,
  length s <= n -> length (groups_from s pos) = vowel_groups s.
Proof.
  unfold groups_from, vowel_groups.
  induction n as [|n IH]; intros [|c s] pos Hn; simpl in Hn; try reflexivity; try lia.
  destruct (is_vowel c) eqn:E.
  - rewrite (finditer_plus_hit is_vowel c s pos E). cbv zeta.
    cbn [length count_groups run_length]. rewrite E. cbn [skipn].
    rewrite IH, count_after_run; [reflexivity|].
    rewrite length_skipn. lia.
  - rewrite (finditer_plus_miss is_vowel c s pos E). cbn [count_groups]. rewrite E.
    apply IH. lia.
Qed.

(** The group a span stands for, and what comes after it. *)
Lemma groups_nth : forall n s pos idx g_start g_end,
  length s <= n ->
  nth_error (groups_from s pos) idx = Some (g_start, g_end) ->
  exists pre grp post,
    s = pre ++ grp ++ post
    /\ vowel_group_at pre grp post
    /\ g_start = pos + length pre
    /\ g_end = g_start + length grp
    /\ vowel_groups post + S idx = length (groups_from s pos).
Proof.
  unfold groups_from.
  induction n as [|n IH]; intros [|c s] pos idx st en Hn Hnth; simpl in Hn; try lia;
    try (destruct idx; discriminate Hnth).
  destruct (is_vowel c) eqn:E.
  - rewrite (finditer_plus_hit is_vowel c s pos E) in Hnth |- *. cbv zeta in *.
    set (r := run_length is_vowel (c :: s)) in *.
    assert (Hr : r = S (run_length is_vowel s)) by (subst r; simpl; now rewrite E).
    assert (Hsplit : c :: s = firstn r (c :: s) ++ skipn r (c :: s))
      by (symmetry; apply firstn_skipn).
    assert (Hlen : length (firstn r (c :: s)) = r).
    { apply firstn_length_le. subst r. apply run_length_le. }
    destruct idx as [|idx].
    + injection Hnth as <- <-.
      exists [], (firstn r (c :: s)), (skipn r (c :: s)). repeat split.
      * exact Hsplit.
      * intros H. apply (f_equal (@length N)) in H. simpl in H. lia.
      * apply run_length_firstn.
      * intros p x H. destruct p; discriminate H.
      * intros x q. apply run_length_skipn.
      * simpl. lia.
      * lia.
      * cbn [length]. pose proof (groups_count n (skipn r (c :: s)) (pos + r)) as Hc.
        unfold groups_from in Hc. rewrite Hc; [lia|].
        rewrite length_skipn. cbn [length]. lia.
    + cbn [nth_error] in Hnth.
      apply IH in Hnth; [|rewrite length_skipn; cbn [length]; lia].
      destruct Hnth as (pre & grp & post & Hs & (Hne & Hall & Hpre & Hpost) & -> & -> & Hcnt).
      exists (firstn r (c :: s) ++ pre), grp, post. repeat split; try assumption.
      * rewrite <- app_assoc, <- Hs. exact Hsplit.
      * intros p x Hp. destruct pre as [|y pre] using rev_ind.
        { exfalso. simpl in Hs. destruct grp as [|g grp]; [congruence|].
          inversion Hall as [|? ? Hg _]; subst.
          simpl in Hs. pose proof (run_length_skipn is_vowel (c :: s) g (grp ++ post) Hs).
          congruence. }
        rewrite app_assoc in Hp. apply app_inj_tail in Hp as [_ <-].
        now apply (Hpre pre y).
      * rewrite length_app. lia.
      * cbn [length]. lia.
  - rewrite (finditer_plus_miss is_vowel c s pos E) in Hnth |- *.
    apply IH in Hnth; [|lia].
    destruct Hnth as (pre & grp & post & -> & (Hne & Hall & Hpre & Hpost) & -> & -> & Hcnt).
    exists (c :: pre), grp, post. repeat split; try assumption.
    + intros p x Hp. destruct pre as [|y pre] using rev_ind.
      * destruct p as [|? [|? ?]]; simpl in Hp; congruence.
      * change (c :: pre ++ [y]) with ((c :: pre) ++ [y]) in Hp.
        apply app_inj_tail in Hp as [_ <-]. now apply (Hpre pre y).
    + simpl. lia.
Qed.

Lemma accent_first_plain_head pre v grp post a :
  char_in v VOWELS = true -> lookup v ACCENT_VOWEL_MAP = Some a ->
  accent_first_plain (pre ++ (v :: grp) ++ post) (length pre) (length (v :: grp))
    = pre ++ (a :: grp) ++ post.
Proof.
  intros Hv Ha. cbn [length accent_first_plain app].
  rewrite nth_error_length_app, Hv, Ha.
  now rewrite firstn_length_app, skipn_succ_app.
Qed.

Lemma plain_vowel v : is_vowel v = true -> ~ accented v ->
  char_in v VOWELS = true
  /\ exists a, lookup v ACCENT_VOWEL_MAP = Some a
               /\ In (v, a) (combine VOWELS VOWELS_ACCENTED).
Proof.
  intros Hv Hna. apply char_in_true in Hv.
  unfold ALL_VOWELS in Hv. simpl in Hv.
  repeat (destruct Hv as [<-|Hv];
          [first [ split; [reflexivity|]; eexists; split; [reflexivity|]; simpl; tauto
                 | exfalso; apply Hna; unfold accented, VOWELS_ACCENTED; simpl; tauto ]|]).
  contradiction.
Qed.

Lemma endswith_char c s : endswith [c] s = true <-> exists p, s = p ++ [c].
Proof.
  unfold endswith. rewrite startswith_true. simpl. split.
  - intros [t H]. exists (rev t). apply (f_equal (@rev N)) in H.
    rewrite rev_involutive in H. now rewrite H.
  - intros [p ->]. exists (rev p). now rewrite rev_app_distr.
Qed.

Lemma endswith_any_chars cls s :
  endswith_any (tuple cls) s = true <-> ends_in cls s.
Proof.
  unfold endswith_any, tuple, ends_in. rewrite existsb_exists. split.
  - intros (k & Hk & He). apply in_map_iff in Hk as (c & <- & Hc).
    apply endswith_char in He as [p ->]. now exists p, c.
  - intros (p & c & -> & Hc). exists [c]. split.
    + apply in_map_iff. now exists c.
    + apply endswith_char. now exists p.
Qed.

Lemma ends_like_penult_spec s :
  ends_like_penult s = true <-> ends_in (u "aeiouns") s.
Proof.
  unfold ends_like_penult.
  change [u "n"; u "s"] with (tuple (u "ns")).
  rewrite orb_true_iff, !endswith_any_chars. unfold ends_in. split.
  - intros [(p & c & -> & Hc)|(p & c & -> & Hc)]; exists p, c; split; try reflexivity;
      unfold VOWELS in *; simpl in *; tauto.
  - intros (p & c & -> & Hc). simpl in Hc.
    repeat (destruct Hc as [<-|Hc];
            [first [ left; eexists _, _; split; [reflexivity|]; unfold VOWELS; simpl; tauto
                   | right; eexists _, _; split; [reflexivity|]; simpl; tauto ]|]).
    contradiction.
Qed.

(** C3.  The stress assigner, for every phone string [s].
    - If [s] has an accented vowel already, or has at most one vowel group
      (maximal run of vowels), it is returned unchanged.
    - Otherwise [s] is [pre ++ (v :: grp) ++ post] with [v :: grp] a vowel
      group: the penultimate one (one group comes after it) when [s] ends in
      a plain vowel, n or s, the last one (none comes after it) when it does
      not; and the result is [s] with [v], the first vowel of that group and
      a plain one, replaced by its accented counterpart.  With two groups or
      more the chosen index never falls before the first group. *)
Theorem stress_assigner (s : str) :
  (~ accent_free s \/ vowel_groups s <= 1 -> add_stress_if_needed s = s)
  /\ (accent_free s -> 2 <= vowel_groups s ->
      exists pre v grp post a,
        s = pre ++ (v :: grp) ++ post
        /\ vowel_group_at pre (v :: grp) post
        /\ (ends_in (u "aeiouns") s -> vowel_groups post = 1)
        /\ (~ ends_in (u "aeiouns") s -> vowel_groups post = 0)
        /\ In (v, a) (combine VOWELS VOWELS_ACCENTED)
        /\ add_stress_if_needed s = pre ++ (a :: grp) ++ post).
Proof.
  pose proof (groups_count (length s) s 0 (le_n _)) as Hcount.
  unfold groups_from in Hcount. fold (re_finditer (p_plus is_vowel) s) in Hcount.
  split.
  - intros [Hacc|Hfew]; unfold add_stress_if_needed.
    + destruct (has_accent s) eqn:E; [reflexivity|].
      apply has_accent_false in E. contradiction.
    + destruct (has_accent s); [reflexivity|]. cbv zeta. rewrite Hcount.
      destruct (Nat.leb_spec (vowel_groups s) 1); [reflexivity | lia].
  - intros Hfree Hmany. unfold add_stress_if_needed.
    rewrite (proj2 (has_accent_false s) Hfree). cbv zeta. rewrite Hcount.
    destruct (Nat.leb_spec (vowel_groups s) 1) as [|_]; [lia|].
    set (back := if ends_like_penult s then 2 else 1).
    assert (Hidx : Z.to_nat (if (Z.of_nat (vowel_groups s)
                                 - (if ends_like_penult s then 2 else 1) <? 0)%Z
                             then 0%Z
                             else (Z.of_nat (vowel_groups s)
                                   - (if ends_like_penult s then 2 else 1))%Z)
                   = vowel_groups s - back).
    { subst back. destruct (ends_like_penult s).
      - destruct (Z.ltb_spec (Z.of_nat (vowel_groups s) - 2) 0); lia.
      - destruct (Z.ltb_spec (Z.of_nat (vowel_groups s) - 1) 0); lia. }
    rewrite Hidx.
    assert (Hback : 1 <= back <= 2) by (subst back; destruct (ends_like_penult s); lia).
    destruct (nth_error (re_finditer (p_plus is_vowel) s) (vowel_groups s - back))
      as [[g_start g_end]|] eqn:Enth.
    2:{ apply nth_error_None in Enth. lia. }
    destruct (groups_nth (length s) s 0 _ _ _ (le_n _) Enth)
      as (pre & grp & post & Hs & Hgrp & -> & -> & Hpost).
    unfold groups_from in Hpost. fold (re_finditer (p_plus is_vowel) s) in Hpost.
    rewrite Hcount in Hpost.
    destruct Hgrp as (Hne & Hall & Hpre & Hpostc).
    destruct grp as [|v grp]; [congruence|].
    assert (Hv : is_vowel v = true) by now inversion Hall.
    assert (Hnv : ~ accented v).
    { rewrite Hs in Hfree. apply Forall_app in Hfree as [_ Hfree].
      apply Forall_app in Hfree as [Hfree _]. now inversion Hfree. }
    destruct (plain_vowel v Hv Hnv) as (Hplain & a & Ha & Hpair).
    exists pre, v, grp, post, a.
    split; [exact Hs|]. split; [now repeat split|].
    split; [|split; [|split; [exact Hpair|]]].
    + intros He. apply ends_like_penult_spec in He. subst back. rewrite He in Hpost. lia.
    + intros He. subst back. destruct (ends_like_penult s) eqn:E; [|lia].
      apply ends_like_penult_spec in E. contradiction.
    + replace (0 + length pre + length (v :: grp) - (0 + length pre))
        with (length (v :: grp)) by lia.
      cbn [Nat.add]. rewrite Hs. now apply accent_first_plain_head.
Qed.

(** C3, witness: kasa has no accent and two vowel groups, and ends in a
    vowel. *)
Lemma stress_assigner_witness :
  accent_free (u "kasa") /\ 2 <= vowel_groups (u "kasa")
  /\ exists pre v grp post a,
       u "kasa" = pre ++ (v :: grp) ++ post
       /\ vowel_group_at pre (v :: grp) post
       /\ (ends_in (u "aeiouns") (u "kasa") -> vowel_groups post = 1)
       /\ (~ ends_in (u "aeiouns") (u "kasa") -> vowel_groups post = 0)
       /\ In (v, a) (combine VOWELS VOWELS_ACCENTED)
       /\ add_stress_if_needed (u "kasa") = pre ++ (a :: grp) ++ post.
Proof.
  assert (Hfree : accent_free (u "kasa")) by (apply accent_free_check; reflexivity).
  assert (Hmany : 2 <= vowel_groups (u "kasa")) by (vm_compute; lia).
  split; [exact Hfree|]. split; [exact Hmany|].
  exact (proj2 (stress_assigner (u "kasa")) Hfree Hmany).
Defined.

Example add_stress_kasa : add_stress_if_needed (u "kasa") = u "kása".
Proof. reflexivity. Qed.

Example add_stress_papel : add_stress_if_needed (u "papel") = u "papél".
Proof. reflexivity. Qed.

Example add_stress_sol : add_stress_if_needed (u "sol") = u "sol".
Proof. reflexivity. Qed.

(** ** Rhotics *)

(** The first substitution: rr to the placeholder. *)
Lemma replace_geminates : forall n w,
  length w <= n -> replace (u "rr") PLACEHOLDER w = mark_geminates w.
Proof.
  induction n as [|n IH]; intros [|c w] Hn; simpl in Hn; try reflexivity; try lia.
  cbn [mark_geminates]. unfold eqc, LETTER_R.
  destruct (N.eqb_spec c 114) as [->|Hc].
  - destruct w as [|c' w].
    + reflexivity.
    + destruct (N.eqb_spec c' 114) as [->|Hc'].
      * change (114%N :: 114%N :: w) with (u "rr" ++ w).
        rewrite replace_hit by discriminate. rewrite IH by (simpl in Hn; lia).
        reflexivity.
      * rewrite replace_miss; [now rewrite IH by lia|].
        apply (startswith_second_neq 114 114 [] 114 c' w). congruence.
  - rewrite replace_miss; [now rewrite IH by lia|].
    apply (startswith_head_neq 114 [114%N] c w). congruence.
Qed.

Lemma cluster_sub_hit c s :
  char_in c (u "lns") = true ->
  cluster_sub (c :: LETTER_R :: s) = c :: PLACEHOLDER ++ cluster_sub s.
Proof.
  intros H. unfold cluster_sub, re_sub. cbn [sub_from]. unfold p_class_lit at 1.
  rewrite H. cbn. f_equal. f_equal. f_equal. f_equal.
  apply sub_from_before. reflexivity.
Qed.

Lemma cluster_sub_miss c s :
  char_in c (u "lns") && startswith (u "r") s = false ->
  cluster_sub (c :: s) = c :: cluster_sub s.
Proof.
  intros H. unfold cluster_sub, re_sub. cbn [sub_from]. unfold p_class_lit at 1.
  rewrite H. f_equal. apply sub_from_before. reflexivity.
Qed.

(** The cluster substitution: an r just after l, n or s to the placeholder. *)
Lemma cluster_sub_spec : forall n s prev,
  length s <= n ->
  after_lns prev && startswith (u "r") s = false ->
  cluster_sub s = mark_clusters prev s.
Proof.
  induction n as [|n IH]; intros [|c s] prev Hn Hprev; simpl in Hn; try reflexivity; try lia.
  cbn [mark_clusters].
  assert (Hhead : eqc c LETTER_R && after_lns prev = false).
  { destruct (after_lns prev); [|apply andb_false_r].
    rewrite andb_true_r. unfold eqc.
    destruct (N.eqb_spec c LETTER_R) as [->|Hc]; [discriminate Hprev | reflexivity]. }
  rewrite Hhead. cbn [app].
  destruct (char_in c (u "lns") && startswith (u "r") s) eqn:E.
  - apply andb_true_iff in E as [Ec Es]. apply startswith_true in Es as [t ->].
    change (u "r" ++ t) with (LETTER_R :: t).
    rewrite (cluster_sub_hit c t Ec). cbn [mark_clusters after_lns].
    rewrite Ec. change (eqc LETTER_R LETTER_R && true) with true. cbv iota.
    f_equal. f_equal. apply IH; [simpl in Hn; lia | reflexivity].
  - rewrite (cluster_sub_miss c s E). f_equal. apply IH; [lia | exact E].
Qed.

Lemma finish_placeholder s : finish (PLACEHOLDER ++ s) = TRILL :: finish s.
Proof.
  unfold finish. change (PLACEHOLDER ++ s) with (82%N :: 82%N :: 82%N :: s).
  rewrite !(replace_miss (u "r") (u "ɾ")) by reflexivity.
  change (82%N :: 82%N :: 82%N :: replace (u "r") (u "ɾ") s)
    with (PLACEHOLDER ++ replace (u "r") (u "ɾ") s).
  now rewrite replace_hit by discriminate.
Qed.

Lemma finish_r s : finish (LETTER_R :: s) = TAP :: finish s.
Proof.
  unfold finish. change (LETTER_R :: s) with (u "r" ++ s).
  rewrite replace_hit by discriminate.
  change (u "ɾ" ++ replace (u "r") (u "ɾ") s) with (TAP :: replace (u "r") (u "ɾ") s).
  now rewrite replace_miss by reflexivity.
Qed.

Lemma finish_other c s :
  c <> LETTER_R -> c <> CAPITAL_R -> finish (c :: s) = c :: finish s.
Proof.
  intros Hr HR. unfold finish.
  rewrite replace_miss
    by (apply (startswith_head_neq LETTER_R [] c s); congruence).
  rewrite replace_miss; [reflexivity|].
  apply (startswith_head_neq CAPITAL_R [CAPITAL_R; CAPITAL_R] c); congruence.
Qed.

Lemma mark_clusters_placeholder prev s :
  mark_clusters prev (PLACEHOLDER ++ s)
    = PLACEHOLDER ++ mark_clusters (Some CAPITAL_R) s.
Proof. reflexivity. Qed.

(** From inside the word on, the substitutions do what the rule says. *)
Lemma rhotics_fused : forall n w p p',
  length w <= n -> placeholder_free w ->
  after_lns p' = strong_after p ->
  finish (mark_clusters p' (mark_geminates w)) = rhotic_spec p w.
Proof.
  induction n as [|n IH]; intros [|c w] p p' Hn Hfree Hp; simpl in Hn;
    try reflexivity; try lia.
  inversion Hfree as [|? ? HcR Hw]; subst.
  cbn [mark_geminates rhotic_spec]. unfold eqc at 1 3.
  destruct (N.eqb_spec c LETTER_R) as [->|Hc].
  - destruct w as [|c' w].
    + cbn [mark_clusters app]. change (eqc LETTER_R LETTER_R) with true.
      cbn [andb]. rewrite Hp. destruct (strong_after p).
      * change (PLACEHOLDER ++ []) with (PLACEHOLDER ++ mark_clusters None []).
        now rewrite finish_placeholder.
      * cbn [app]. now rewrite finish_r.
    + inversion Hw as [|? ? Hc'R Hw']; subst. unfold eqc at 1 2.
      destruct (N.eqb_spec c' LETTER_R) as [->|Hc'].
      * rewrite mark_clusters_placeholder, finish_placeholder. f_equal.
        apply IH; [simpl in Hn; lia | exact Hw' | reflexivity].
      * cbn [mark_clusters]. change (eqc LETTER_R LETTER_R) with true.
        cbn [andb]. rewrite Hp.
        assert (Hrest : finish (mark_clusters (Some LETTER_R) (mark_geminates (c' :: w)))
                        = rhotic_spec (Some LETTER_R) (c' :: w)).
        { apply IH; [lia | exact Hw | reflexivity]. }
        destruct (strong_after p).
        -- rewrite finish_placeholder. now rewrite Hrest.
        -- cbn [app]. rewrite finish_r. now rewrite Hrest.
  - cbn [mark_clusters]. apply N.eqb_neq in Hc as Hc'. unfold eqc at 1.
    rewrite Hc'. cbn [andb app]. rewrite (finish_other c _ Hc HcR). f_equal.
    apply IH; [lia | exact Hw | reflexivity].
Qed.

Lemma mark_geminates_rr w :
  mark_geminates (LETTER_R :: LETTER_R :: w) = PLACEHOLDER ++ mark_geminates w.
Proof. reflexivity. Qed.

Lemma mark_geminates_single w :
  single_r w -> mark_geminates (LETTER_R :: w) = LETTER_R :: mark_geminates w.
Proof.
  destruct w as [|c w]; [reflexivity|]. simpl. intros H.
  apply eqc_false in H. cbn [mark_geminates]. change (eqc LETTER_R LETTER_R) with true.
  cbv iota. now rewrite H.
Qed.

Lemma mark_geminates_other c w :
  c <> LETTER_R -> mark_geminates (c :: w) = c :: mark_geminates w.
Proof. intros H. apply eqc_false in H. cbn [mark_geminates]. now rewrite H. Qed.

Lemma rhotic_spec_rr p w :
  rhotic_spec p (LETTER_R :: LETTER_R :: w) = TRILL :: rhotic_spec (Some LETTER_R) w.
Proof. reflexivity. Qed.

Lemma rhotic_spec_single p w :
  single_r w ->
  rhotic_spec p (LETTER_R :: w)
    = (if strong_after p then TRILL else TAP) :: rhotic_spec (Some LETTER_R) w.
Proof.
  destruct w as [|c w]; [reflexivity|]. simpl. intros H.
  apply eqc_false in H. cbn [rhotic_spec]. change (eqc LETTER_R LETTER_R) with true.
  cbv iota. now rewrite H.
Qed.

Lemma rhotic_spec_other p c w :
  c <> LETTER_R -> rhotic_spec p (c :: w) = c :: rhotic_spec (Some c) w.
Proof. intros H. apply eqc_false in H. cbn [rhotic_spec]. now rewrite H. Qed.

Lemma word_shape (w : str) :
  w = []
  \/ (exists w', w = LETTER_R :: LETTER_R :: w')
  \/ (exists w', w = LETTER_R :: w' /\ single_r w')
  \/ (exists c w', w = c :: w' /\ c <> LETTER_R).
Proof.
  destruct w as [|c w]; [now left|]. right.
  destruct (N.eq_dec c LETTER_R) as [->|Hc]; [|right; right; now exists c, w].
  destruct w as [|c' w]; [right; left; now exists []|].
  destruct (N.eq_dec c' LETTER_R) as [->|Hc']; [left; now exists w|].
  right. left. now exists (c' :: w).
Qed.

(** The r/rr step is the rule of the specification. *)
Lemma rhotics_spec w : placeholder_free w -> rhotics w = rhotic_spec None w.
Proof.
  intros Hfree. unfold rhotics. cbv zeta.
  rewrite (replace_geminates (length w) w (le_n _)).
  fold (cluster_sub (if startswith (u "r") (mark_geminates w)
                     then PLACEHOLDER ++ skipn 1 (mark_geminates w)
                     else mark_geminates w)).
  rewrite (cluster_sub_spec (length (if startswith (u "r") (mark_geminates w)
                                     then PLACEHOLDER ++ skipn 1 (mark_geminates w)
                                     else mark_geminates w)) _ None (le_n _) eq_refl).
  fold (finish (mark_clusters None
                  (if startswith (u "r") (mark_geminates w)
                   then PLACEHOLDER ++ skipn 1 (mark_geminates w)
                   else mark_geminates w))).
  destruct (word_shape w) as [->|[[w' ->]|[(w' & -> & Hw')|(c & w' & -> & Hc)]]].
  - reflexivity.
  - rewrite mark_geminates_rr, rhotic_spec_rr.
    change (startswith (u "r") (PLACEHOLDER ++ mark_geminates w')) with false.
    cbv iota. rewrite mark_clusters_placeholder, finish_placeholder. f_equal.
    apply (rhotics_fused (length w')); [lia | | reflexivity].
    inversion Hfree as [|? ? _ H]; subst. now inversion H.
  - rewrite (mark_geminates_single w' Hw'), (rhotic_spec_single None w' Hw').
    change (startswith (u "r") (LETTER_R :: mark_geminates w')) with true.
    cbv iota. cbn [skipn strong_after].
    rewrite mark_clusters_placeholder, finish_placeholder. f_equal.
    apply (rhotics_fused (length w')); [lia | | reflexivity].
    now inversion Hfree.
  - inversion Hfree as [|? ? HcR Hw]; subst.
    rewrite (mark_geminates_other c w' Hc), (rhotic_spec_other None c w' Hc).
    assert (Hs : startswith (u "r") (c :: mark_geminates w') = false).
    { apply (startswith_head_neq LETTER_R [] c). congruence. }
    rewrite Hs. cbn [mark_clusters after_lns]. rewrite andb_false_r. cbn [app].
    rewrite (finish_other c _ Hc HcR). f_equal.
    apply (rhotics_fused (length w')); [lia | exact Hw | reflexivity].
Qed.

Example rhotics_carro : Ascii.map_graphemes (u "carro") = u "karo".
Proof. reflexivity. Qed.

Example rhotics_rosa : Ascii.map_graphemes (u "Rosa") = u "rosa".
Proof. reflexivity. Qed.

Example rhotics_pero : Ascii.map_graphemes (u "pero") = u "peɾo".
Proof. reflexivity. Qed.

Example rhotics_alrededor : Ascii.map_graphemes (u "alrededor") = u "alrededoɾ".
Proof. reflexivity. Qed.

Example rhotics_israel : Ascii.map_graphemes (u "israel") = u "israel".
Proof. reflexivity. Qed.

Lemma consonants_placeholder_free w :
  placeholder_free w -> placeholder_free (consonants w).
Proof.
  apply consonants_Forall. unfold CONSONANT_PHONES.
  repeat constructor; discriminate.
Qed.

(** C7, as the code has it.  For every lowercase word (one that lowering
    leaves as it is, and so without a capital R), the grapheme mapper ends
    with the rhotic rule applied to the string the earlier rules produce:
    each rr, the r at the start, and each r just after l, n or s come out as
    the strong trill r, and every other r as the weak tap ɾ; nothing else is
    touched.  The start and the neighbours are those of that string, not of
    the spelling.  (The lone word y is the vowel i.) *)
Theorem map_graphemes_rhotics (lower : str -> str) (word : str) :
  lower word = word -> placeholder_free word ->
  map_graphemes lower word
    = if eqs word (u "y") then u "i"
      else rhotic_spec None (consonants word).
Proof.
  intros Hlow Hfree. unfold map_graphemes, normalize_word. rewrite Hlow.
  change (nasal_assimilation word) with word. cbv zeta.
  destruct (eqs word (u "y")); [reflexivity|].
  apply rhotics_spec, consonants_placeholder_free, Hfree.
Qed.

(** C7, witness: ezra, whose z is s by the time the r/rr step runs, so that
    its r comes just after s. *)
Lemma map_graphemes_rhotics_witness :
  Ascii.lower (u "ezra") = u "ezra"
  /\ placeholder_free (u "ezra")
  /\ Ascii.map_graphemes (u "ezra") = rhotic_spec None (consonants (u "ezra"))
  /\ consonants (u "ezra") = u "esra"
  /\ rhotic_spec None (consonants (u "ezra")) = u "esra".
Proof.
  assert (Hfree : placeholder_free (u "ezra")) by (repeat constructor; discriminate).
  split; [reflexivity|]. split; [exact Hfree|].
  split; [|split; reflexivity].
  exact (map_graphemes_rhotics Ascii.lower (u "ezra") eq_refl Hfree).
Defined.

(** C7, counterexample: the rule read on the letters of the word.  In ezra
    the r is not doubled, not at the start and comes after z, not after l, n
    or s: the rule on the spelling makes it the tap, and the code gives the
    trill and no tap.  In allr the r comes after l: the rule on the spelling
    makes it the trill, and the code gives the tap and no trill, the ll being
    one phone by then. *)
Lemma map_graphemes_spelling_neighbours :
  (Ascii.lower (u "ezra") = u "ezra"
   /\ rhotic_spec None (u "ezra") = u "ezɾa"
   /\ Ascii.map_graphemes (u "ezra") = u "esra"
   /\ ~ In TAP (Ascii.map_graphemes (u "ezra")))
  /\ (Ascii.lower (u "allr") = u "allr"
      /\ rhotic_spec None (u "allr") = u "allr"
      /\ Ascii.map_graphemes (u "allr") = u "aʝɾ"
      /\ ~ In TRILL (Ascii.map_graphemes (u "allr"))).
Proof.
  split; (split; [reflexivity|]; split; [reflexivity|]; split; [reflexivity|]);
    intros H; vm_compute in H; intuition discriminate.
Qed.

End G2PProofs.

(* ================================================================== *)
(** * More facts about the runtime *)
(* ================================================================== *)

Module MoreFacts.
Import Py PyFacts.

(** Replacing a character by a text that does not have it removes it. *)
Lemma replace_char_gone x new : ~ In x new ->
  forall s, Forall (fun c => c <> x) (replace [x] new s).
Proof.
  intros Hnew. induction s as [|c s IH]; [constructor|].
  destruct (N.eq_dec c x) as [->|Hc].
  - change (x :: s) with ([x] ++ s). rewrite replace_hit by discriminate.
    apply Forall_app. split; [|exact IH].
    apply Forall_forall. intros y Hy ->. contradiction.
  - rewrite replace_miss by (apply startswith_head_neq; congruence).
    constructor; assumption.
Qed.

(** ** What a filter sees of a stripped string *)

Lemma filter_dropwhile (q p : char -> bool) :
  (forall c, p c = true -> q c = false) ->
  forall s, filter q (dropwhile p s) = filter q s.
Proof.
  intros H. induction s as [|c s IH]; [reflexivity|]. simpl.
  destruct (p c) eqn:E; [|reflexivity]. now rewrite (H c E).
Qed.

Lemma filter_strip_by (q p : char -> bool) s :
  (forall c, p c = true -> q c = false) ->
  filter q (strip_by p s) = filter q s.
Proof.
  intros H. unfold strip_by, rstrip_by, lstrip_by.
  rewrite filter_rev, (filter_dropwhile q p H), filter_rev, rev_involutive.
  now apply filter_dropwhile.
Qed.

Lemma filter_join (q : char -> bool) sep l :
  filter q sep = [] -> filter q (join sep l) = concat (map (filter q) l).
Proof.
  intros H. induction l as [|x l IH]; [reflexivity|].
  destruct l as [|y l].
  - simpl. now rewrite app_nil_r.
  - change (join sep (x :: y :: l)) with (x ++ sep ++ join sep (y :: l)).
    rewrite !filter_app, H, IH. reflexivity.
Qed.

Lemma filter_none (q : char -> bool) s :
  Forall (fun c => q c = false) s -> filter q s = [].
Proof. induction 1 as [|c s Hc _ IH]; simpl; [reflexivity|]. now rewrite Hc. Qed.

Lemma filter_all (q : char -> bool) s :
  Forall (fun c => q c = true) s -> filter q s = s.
Proof. induction 1 as [|c s Hc _ IH]; simpl; [reflexivity|]. now rewrite Hc, IH. Qed.

(** ** split and join *)

Lemma split_not_nil sep s : split sep s <> [].
Proof.
  destruct s as [|c s]; simpl; [discriminate|].
  destruct (eqc c sep); [discriminate|]. destruct (split sep s); discriminate.
Qed.

Lemma join_cons sep x w ws : join sep (x :: w :: ws) = x ++ sep ++ join sep (w :: ws).
Proof. reflexivity. Qed.

Lemma join_split sep s : join [sep] (split sep s) = s.
Proof.
  induction s as [|c s IH]; [reflexivity|]. cbn [split].
  pose proof (split_not_nil sep s) as Hne.
  destruct (eqc c sep) eqn:E.
  - apply eqc_true in E. subst c.
    destruct (split sep s) as [|w ws]; [congruence|].
    rewrite join_cons, IH. reflexivity.
  - destruct (split sep s) as [|w ws]; [congruence|].
    destruct ws as [|w' ws]; rewrite <- IH; reflexivity.
Qed.

Lemma split_Forall (P : N -> Prop) sep s :
  Forall P s -> Forall (Forall P) (split sep s).
Proof.
  induction 1 as [|c s Hc _ IH]; [repeat constructor|]. cbn [split].
  destruct (eqc c sep); [constructor; [constructor | exact IH]|].
  destruct (split sep s) as [|w ws]; [repeat constructor; exact Hc|].
  inversion IH; subst. constructor; [now constructor | assumption].
Qed.

Lemma split_no_sep sep s :
  Forall (Forall (fun c => c <> sep)) (split sep s).
Proof.
  induction s as [|c s IH]; [repeat constructor|]. cbn [split].
  destruct (eqc c sep) eqn:E; [constructor; [constructor | exact IH]|].
  apply eqc_false in E.
  destruct (split sep s) as [|w ws]; [repeat constructor; exact E|].
  inversion IH; subst. constructor; [now constructor | assumption].
Qed.

(** ** Stripping what is wrapped *)

Lemma strip_by_wrapped p a x m y b :
  p a = true -> p b = true -> p x = false -> p y = false ->
  strip_by p (a :: (x :: m ++ [y]) ++ [b]) = x :: m ++ [y].
Proof.
  intros Ha Hb Hx Hy. unfold strip_by, lstrip_by, rstrip_by.
  cbn [dropwhile app]. rewrite Ha, Hx.
  replace (x :: (m ++ [y]) ++ [b]) with (((x :: m) ++ [y]) ++ [b]) by reflexivity.
  rewrite rev_unit. cbn [dropwhile]. rewrite Hb.
  rewrite rev_unit. cbn [dropwhile]. rewrite Hy.
  rewrite <- rev_unit. apply rev_involutive.
Qed.

Lemma strip_by_kept p a m b :
  p a = false -> p b = false -> strip_by p (a :: m ++ [b]) = a :: m ++ [b].
Proof.
  intros Ha Hb. unfold strip_by, lstrip_by, rstrip_by.
  cbn [dropwhile]. rewrite Ha.
  replace (a :: m ++ [b]) with ((a :: m) ++ [b]) by reflexivity.
  rewrite rev_unit. cbn [dropwhile]. rewrite Hb.
  rewrite <- rev_unit. apply rev_involutive.
Qed.

(** ** What a replacement keeps *)

Lemma replace_filter (q : char -> bool) old new :
  old <> [] -> filter q old = [] -> filter q new = [] ->
  forall n s, length s <= n -> filter q (replace old new s) = filter q s.
Proof.
  intros Hne Hold Hnew. induction n as [|n IH]; intros s Hn.
  - destruct s; [reflexivity | simpl in Hn; lia].
  - destruct s as [|c s]; [reflexivity|].
    destruct (startswith old (c :: s)) eqn:E.
    + apply startswith_true in E as [t E]. rewrite E.
      rewrite (replace_hit old new t Hne), !filter_app, Hold, Hnew.
      apply IH. apply (f_equal (@length N)) in E. rewrite length_app in E.
      simpl in E, Hn. destruct old; [congruence | simpl in E; lia].
    + rewrite (replace_miss old new c s E). cbn [filter].
      simpl in Hn. rewrite IH by lia. reflexivity.
Qed.

(** ** The last character of a right-stripped string *)

Lemma dropwhile_first p s :
  dropwhile p s = [] \/ exists c t, dropwhile p s = c :: t /\ p c = false.
Proof.
  induction s as [|c s IH]; [now left|]. simpl.
  destruct (p c) eqn:E; [exact IH|]. right. now exists c, s.
Qed.

Lemma rstrip_by_last p s :
  rstrip_by p s = [] \/ exists m c, rstrip_by p s = m ++ [c] /\ p c = false.
Proof.
  unfold rstrip_by. destruct (dropwhile_first p (rev s)) as [->|(c & t & -> & Hc)];
    [now left|].
  right. exists (rev t), c. now split.
Qed.

End MoreFacts.

(* ================================================================== *)
(** * More on the grapheme-to-phoneme pipeline *)
(* ================================================================== *)

Module G2PMore.
Import Py PyFacts MoreFacts G2P G2PSpec Notions G2PProofs.

(** ** Punctuation spacing touches whitespace only *)

Lemma filter_collapse (q : char -> bool) :
  (forall c, isspace c = true -> q c = false) ->
  forall s b, filter q (collapse b s) = filter q s.
Proof.
  intros H. assert (Hs : q space = false) by now apply H.
  induction s as [|c s IH]; intros b; [reflexivity|]. cbn [collapse].
  destruct (isspace c) eqn:E.
  - cbn [filter]. rewrite (H c E). destruct b; [apply IH|].
    cbn [filter]. rewrite Hs. apply IH.
  - cbn [filter]. now rewrite IH.
Qed.

Lemma filter_wrap_punct (q : char -> bool) :
  q space = false ->
  forall s, filter q (flat_map wrap_punct s) = filter q s.
Proof.
  intros Hs. induction s as [|c s IH]; [reflexivity|].
  cbn [flat_map]. rewrite filter_app, IH. unfold wrap_punct.
  destruct (is_punct c); cbn [app filter]; rewrite ?Hs; destruct (q c); reflexivity.
Qed.

Lemma space_punct_filter (q : char -> bool) text :
  (forall c, isspace c = true -> q c = false) ->
  filter q (_space_punct text) = filter q text.
Proof.
  intros H. rewrite space_punct_unfold, ellipsis_unchanged.
  unfold strip. rewrite (filter_strip_by q isspace _ H), (filter_collapse q H).
  apply filter_wrap_punct, H. reflexivity.
Qed.

(** X6.  Spacing out the punctuation changes whitespace only: the
    characters of the result that are not whitespace are those of the text,
    in the same order. *)
Theorem space_punct_whitespace_only (text : str) :
  filter nonspace (_space_punct text) = filter nonspace text.
Proof.
  apply space_punct_filter. intros c H. unfold nonspace. now rewrite H.
Qed.

(** ** The normal form of the spaced text *)

Lemma collapse_single_spaced : forall s b, single_spaced b (collapse b s).
Proof.
  induction s as [|c s IH]; intros b; [exact I|]. cbn [collapse].
  destruct (isspace c) eqn:E.
  - destruct b; [apply IH|]. cbn [single_spaced].
    change (isspace space) with true. split; [now split | apply IH].
  - cbn [single_spaced]. rewrite E. split; [discriminate | apply IH].
Qed.

Lemma single_spaced_dropwhile : forall s b,
  single_spaced b s -> single_spaced true (dropwhile isspace s).
Proof.
  induction s as [|c s IH]; intros b H; [exact I|]. cbn [dropwhile].
  destruct (isspace c) eqn:E.
  - cbn [single_spaced] in H. rewrite E in H. exact (IH _ (proj2 H)).
  - cbn [single_spaced] in *. rewrite E in *. split; [discriminate | exact (proj2 H)].
Qed.

Lemma single_spaced_prefix a q : forall b, single_spaced b (a ++ q) -> single_spaced b a.
Proof.
  induction a as [|c a IH]; intros b H; [exact I|].
  cbn [app single_spaced] in *. split; [exact (proj1 H) | exact (IH _ (proj2 H))].
Qed.

Lemma single_spaced_words c : isspace c = false ->
  forall m b, single_spaced b (m ++ [c]) -> words_from b (m ++ [c]).
Proof.
  intros Hc. induction m as [|x m IH]; intros b H.
  - cbn [app words_from single_spaced] in *. rewrite Hc in *.
    split; [discriminate | reflexivity].
  - cbn [app words_from single_spaced] in *. split; [exact (proj1 H) | exact (IH _ (proj2 H))].
Qed.

Lemma space_punct_words text :
  _space_punct text = [] \/ words_from true (_space_punct text).
Proof.
  rewrite space_punct_unfold, ellipsis_unchanged.
  set (s := collapse false (flat_map wrap_punct text)).
  assert (H : single_spaced true (strip s)).
  { unfold strip, strip_by.
    destruct (rstrip_by_prefix isspace (lstrip_by isspace s)) as [q Hq].
    apply (single_spaced_prefix _ q). rewrite <- Hq.
    apply (single_spaced_dropwhile s false), collapse_single_spaced. }
  unfold strip, strip_by in *.
  destruct (rstrip_by_last isspace (lstrip_by isspace s)) as [E|(m & c & E & Hc)];
    [now left|].
  right. rewrite E in *. now apply single_spaced_words.
Qed.

Lemma words_from_split : forall s b,
  words_from b s ->
  exists w ws,
    split space s = w :: ws
    /\ (b = true -> w <> [])
    /\ Forall (fun c => isspace c = false) w
    /\ Forall word ws.
Proof.
  induction s as [|c s IH]; intros b H.
  - simpl in H. subst b. exists [], []. repeat split; try constructor. discriminate.
  - cbn [words_from] in H. destruct H as [Hc Hs].
    destruct (IH _ Hs) as (w & ws & E & Hw & Hnw & Hws).
    cbn [split]. rewrite E. destruct (isspace c) eqn:Ec.
    + destruct (Hc eq_refl) as [-> ->]. rewrite eqc_refl.
      exists [], (w :: ws). split; [reflexivity|]. split; [discriminate|].
      split; [constructor|]. constructor; [split; auto | exact Hws].
    + assert (Hne : eqc c space = false).
      { apply eqc_false. intros ->. discriminate Ec. }
      rewrite Hne. exists (c :: w), ws. repeat split; auto. discriminate.
Qed.

(** X7.  The spaced text is empty, or it is words (not empty, without
    whitespace) separated by one space U+0020 each: splitting it at the
    spaces gives the words, and joining them with a space gives it back.  So
    the loop of [g2p] meets an empty token only when the text is empty. *)
Theorem space_punct_tokens (text : str) :
  (_space_punct text = [] \/ Forall word (split space (_space_punct text)))
  /\ join (u " ") (split space (_space_punct text)) = _space_punct text.
Proof.
  split; [|apply join_split].
  destruct (space_punct_words text) as [E|H]; [now left|]. right.
  destruct (words_from_split _ true H) as (w & ws & -> & Hw & Hnw & Hws).
  constructor; [split; auto | exact Hws].
Qed.

(** ** The letters the grapheme mapper always rewrites *)

Ltac rewritten x HL :=
  repeat first
    [ apply (replace_char_gone x); cbn; intuition discriminate
    | apply replace_Forall; [literal HL|]
    | apply re_sub_Forall; [intros ? ?; literal HL|] ].

Lemma consonants_rewritten x : In x REWRITTEN ->
  forall w, Forall (fun c => c <> x) (consonants w).
Proof.
  intros Hx w. unfold REWRITTEN in Hx. simpl in Hx.
  unfold consonants, NASAL_ASSIMILATION. cbv zeta. cbn [andb]. cbv iota.
  destruct Hx as [<-|[<-|[<-|[<-|[<-|[]]]]]];
    match goal with
    | |- Forall (fun c => c <> ?x) _ =>
        assert (HL : Forall (fun c => c <> x) CONSONANT_PHONES)
          by (unfold CONSONANT_PHONES; repeat constructor; discriminate);
        rewritten x HL
    end.
Qed.

Lemma not_rewritten_check (s : str) :
  forallb (fun c => negb (char_in c REWRITTEN)) s = true ->
  forall x, In x REWRITTEN -> Forall (fun c => c <> x) s.
Proof.
  intros H x Hx. apply Forall_forall. intros c Hc ->.
  rewrite forallb_forall in H. specialize (H x Hc).
  apply negb_true_iff, char_in_false in H. contradiction.
Qed.

Lemma plain_not_rewritten x c : In x REWRITTEN -> c <> x -> plain c <> x.
Proof.
  intros Hx Hc E. destruct (plain_spec c) as [[_ Hv]|[_ Hp]]; [|congruence].
  rewrite E in Hv. unfold REWRITTEN in Hx. unfold VOWELS in Hv. simpl in Hx, Hv.
  destruct Hx as [<-|[<-|[<-|[<-|[<-|[]]]]]];
    repeat (destruct Hv as [Hv|Hv]; [discriminate Hv|]); contradiction.
Qed.

Lemma phones_rewritten lower x tok :
  In x REWRITTEN -> Forall (fun c => c <> x) (phones lower tok).
Proof.
  intros Hx. unfold phones. rewrite apply_glides_safe.
  apply insert_marker_Forall.
  - now apply (not_rewritten_check STRESS).
  - intros c. now apply plain_not_rewritten.
  - apply add_stress_Forall; [now apply (not_rewritten_check VOWELS_ACCENTED)|].
    unfold map_graphemes, normalize_word.
    change (nasal_assimilation (lower tok)) with (lower tok). cbv zeta.
    destruct (eqs (lower tok) (u "y")); [now apply (not_rewritten_check (u "i"))|].
    apply rhotics_Forall; [now apply (not_rewritten_check RHOTIC_PHONES)|].
    now apply consonants_rewritten.
Qed.

Lemma Forall_none_of (cls s : str) :
  (forall x, In x cls -> Forall (fun c => c <> x) s) ->
  Forall (fun c => ~ In c cls) s.
Proof.
  intros H. apply Forall_forall. intros c Hc Hin.
  specialize (H c Hin). rewrite Forall_forall in H. now apply (H c Hc).
Qed.

Section Alphabet.

Variable normalize_NFC : str -> str.
Variable lower : str -> str.

(** X8.  Whatever the text and the Unicode database, the transcription has
    none of the letters c, z, v, h and ñ, and neither has the grapheme
    mapping of a word: every occurrence of them is rewritten (or, for h,
    dropped). *)
Theorem g2p_rewrites_letters (text : str) :
  Forall (fun c => ~ In c REWRITTEN) (g2p normalize_NFC lower text)
  /\ Forall (fun c => ~ In c REWRITTEN) (map_graphemes lower text).
Proof.
  split; apply Forall_none_of; intros x Hx.
  - unfold g2p. destruct text as [|c text]; [now apply (not_rewritten_check (u "//"))|].
    cbv zeta.
    assert (H : Forall (fun c => c <> x) (strip (join (u " ")
                  (g2p_out lower (_space_punct (_normalize_nfc normalize_NFC (c :: text))))))).
    { apply strip_by_Forall, join_Forall; [now apply (not_rewritten_check (u " "))|].
      unfold g2p_out. apply (g2p_out_Forall lower _ (fun _ => True)).
      - intros tok _ _ Hp. apply Forall_forall. intros y Hy ->.
        rewrite forallb_forall in Hp. specialize (Hp x Hy).
        unfold REWRITTEN in Hx. simpl in Hx.
        destruct Hx as [<-|[<-|[<-|[<-|[<-|[]]]]]]; discriminate Hp.
      - intros tok _ _ _. now apply phones_rewritten.
      - apply Forall_forall. trivial.
      - constructor. }
    destruct (strip _) as [|y result]; [now apply (not_rewritten_check (u "//"))|].
    rewrite !Forall_app. repeat split.
    + now apply (not_rewritten_check (u "/ ")).
    + exact H.
    + now apply (not_rewritten_check (u " /")).
  - unfold map_graphemes, normalize_word.
    change (nasal_assimilation (lower text)) with (lower text). cbv zeta.
    destruct (eqs (lower text) (u "y")); [now apply (not_rewritten_check (u "i"))|].
    apply rhotics_Forall; [now apply (not_rewritten_check RHOTIC_PHONES)|].
    now apply consonants_rewritten.
Qed.

End Alphabet.

(** ** Words no rule applies to *)

Lemma re_sub_headed x pat repl s :
  headed x pat -> ~ In x s -> re_sub pat repl s = s.
Proof.
  intros [Hnil Hcons] Hx. apply sub_from_no_match. intros p [|y t] E; [apply Hnil|].
  apply Hcons. intros ->. apply Hx. rewrite E. apply in_or_app. right. now left.
Qed.

Lemma headed_lit x l : headed x (p_lit (x :: l)).
Proof.
  split; [reflexivity|]. intros before y t Hy. unfold p_lit.
  now rewrite startswith_head_neq by congruence.
Qed.

Lemma headed_lit_before x l cls : headed x (p_lit_before (x :: l) cls).
Proof.
  split; [reflexivity|]. intros before y t Hy. unfold p_lit_before.
  now rewrite startswith_head_neq by congruence.
Qed.

Lemma headed_bol_lit_before x l cls : headed x (p_bol_lit_before (x :: l) cls).
Proof.
  split; [now intros [|b before]|]. intros [|b before] y t Hy; [|reflexivity].
  unfold p_bol_lit_before. now apply headed_lit_before.
Qed.

Lemma headed_after_not_lit_before cls x l cls2 :
  headed x (p_after_not_lit_before cls (x :: l) cls2).
Proof.
  split.
  - intros [|b before]; [reflexivity|]. unfold p_after_not_lit_before.
    now destruct (char_in b cls).
  - intros [|b before] y t Hy; [reflexivity|]. unfold p_after_not_lit_before.
    destruct (char_in b cls); [reflexivity|]. now apply headed_lit_before.
Qed.

Lemma headed_after_lit_eol cls x l : headed x (p_after_lit_eol cls (x :: l)).
Proof.
  split.
  - intros [|b before]; [reflexivity|]. unfold p_after_lit_eol.
    cbn [startswith]. now rewrite andb_false_r.
  - intros [|b before] y t Hy; [reflexivity|]. unfold p_after_lit_eol.
    rewrite startswith_head_neq by congruence. now rewrite andb_false_r.
Qed.

Lemma replace_headed x l new s : ~ In x s -> replace (x :: l) new s = s.
Proof. intros H. apply (re_sub_headed x); [apply headed_lit | exact H]. Qed.

Lemma startswith_absent x l s : ~ In x s -> startswith (x :: l) s = false.
Proof.
  intros H. destruct s as [|y s]; [reflexivity|].
  apply startswith_head_neq. intros ->. apply H. now left.
Qed.

Lemma class_lit_absent cls x repl s :
  ~ In x s -> re_sub (p_class_lit cls [x]) repl s = s.
Proof.
  intros H. apply sub_from_no_match. intros p [|y t] E; [reflexivity|].
  unfold p_class_lit. rewrite startswith_absent; [now rewrite andb_false_r|].
  intros Hin. apply H. rewrite E. apply in_or_app. right. now right.
Qed.

Lemma occurs_false x l s :
  occurs (x :: l) s = false ->
  forall p t, s = p ++ t -> startswith (x :: l) t = false.
Proof.
  intros H p. revert s H. induction p as [|c p IH]; intros s H t ->.
  - destruct t as [|c t]; [reflexivity|].
    cbn [app occurs] in H. now apply orb_false_iff in H.
  - cbn [app occurs] in H. apply orb_false_iff in H as [_ H]. now apply (IH _ H).
Qed.

Ltac literals :=
  repeat match goal with
         | |- context [u ?lit] =>
             let v := eval vm_compute in (u lit) in change (u lit) with v
         end.

Ltac no_rule w Habs :=
  repeat first
    [ rewrite (replace_headed _ _ _ w) by (apply Habs; vm_compute; tauto)
    | rewrite (re_sub_headed _ _ _ w (headed_lit_before _ _ _))
        by (apply Habs; vm_compute; tauto)
    | rewrite (re_sub_headed _ _ _ w (headed_bol_lit_before _ _ _))
        by (apply Habs; vm_compute; tauto)
    | rewrite (re_sub_headed _ _ _ w (headed_after_not_lit_before _ _ _ _))
        by (apply Habs; vm_compute; tauto)
    | rewrite (re_sub_headed _ _ _ w (headed_after_lit_eol _ _ _))
        by (apply Habs; vm_compute; tauto)
    | rewrite (startswith_absent _ _ w) by (apply Habs; vm_compute; tauto)
    | rewrite (class_lit_absent _ _ _ w) by (apply Habs; vm_compute; tauto)
    | progress cbv iota ].

(** X17.  A word whose lowercase form has none of the letters the rules
    start from (c, x, g, j, z, q, v, h, ñ, y, r, and a doubled l; nor the
    capital R of the placeholder) is mapped to that lowercase form as it
    is: the grapheme mapper touches nothing else. *)
Theorem map_graphemes_transparent (lower : str -> str) (word : str) :
  Forall (fun c => ~ In c RULE_LETTERS) (lower word) ->
  occurs (u "ll") (lower word) = false ->
  map_graphemes lower word = lower word.
Proof.
  intros Hfree Hll. unfold map_graphemes, normalize_word.
  change (nasal_assimilation (lower word)) with (lower word). cbv zeta.
  remember (lower word) as w eqn:Ew. clear Ew.
  assert (Habs : forall x, In x RULE_LETTERS -> ~ In x w).
  { intros x Hx Hin. rewrite Forall_forall in Hfree. exact (Hfree x Hin Hx). }
  assert (Hy : eqs w (u "y") = false).
  { destruct (eqs w (u "y")) eqn:E; [|reflexivity]. apply eqs_true in E.
    exfalso. apply (Habs 121%N); [vm_compute; tauto | rewrite E; now left]. }
  rewrite Hy.
  assert (Hc : consonants w = w).
  { unfold consonants, NASAL_ASSIMILATION. cbv zeta. cbn [andb]. literals.
    no_rule w Habs.
    rewrite (replace_no_occurrence [108; 108]%N _ w (occurs_false _ _ _ Hll)).
    no_rule w Habs. reflexivity. }
  rewrite Hc. unfold rhotics, PLACEHOLDER. cbv zeta. literals. no_rule w Habs.
  reflexivity.
Qed.

(** X17, witness: the word Mundo, with the ASCII-text database. *)
Lemma map_graphemes_transparent_witness :
  Ascii.map_graphemes (u "Mundo") = u "mundo".
Proof.
  apply (map_graphemes_transparent Ascii.lower (u "Mundo")); [|reflexivity].
  apply Forall_forall. intros c Hc Hin. vm_compute in Hc, Hin.
  intuition congruence.
Defined.

(** ** Accents: stripping them *)

(** X9.  Stripping the accents keeps the length, gives a string without
    accented vowel, changes nothing when done again, and leaves a string as
    it is exactly when the string has no accented vowel. *)
Theorem strip_accents_normalizes (s : str) :
  length (strip_accents s) = length s
  /\ accent_free (strip_accents s)
  /\ strip_accents (strip_accents s) = strip_accents s
  /\ (strip_accents s = s <-> accent_free s).
Proof.
  split; [rewrite strip_accents_map; apply length_map|].
  split; [apply strip_accents_accent_free|].
  split; [apply strip_accents_id, strip_accents_accent_free|].
  split; [|apply strip_accents_id].
  intros E. rewrite <- E. apply strip_accents_accent_free.
Qed.

(** ** Accents: the stress assigner *)

Lemma strip_accents_cons c s : strip_accents (c :: s) = plain c :: strip_accents s.
Proof. reflexivity. Qed.

Lemma lookup_accent_plain ch a :
  lookup ch ACCENT_VOWEL_MAP = Some a -> accented a /\ plain a = ch /\ plain ch = ch.
Proof.
  unfold lookup, ACCENT_VOWEL_MAP, eqc. cbn [find fst snd].
  repeat match goal with
         | |- context [N.eqb ch ?k] =>
             destruct (N.eqb_spec ch k);
               [subst ch; cbn; intros [= <-]; unfold accented, VOWELS_ACCENTED;
                split; [simpl; auto 10 | split; reflexivity]|]
         end.
  cbn. discriminate.
Qed.

(** The loop of the assigner leaves the string as it is, or puts the accent
    on one plain vowel of it. *)
Lemma accent_first_plain_cases s : forall count j,
  accent_first_plain s j count = s
  \/ exists pre ch a post,
       s = pre ++ ch :: post
       /\ lookup ch ACCENT_VOWEL_MAP = Some a
       /\ accent_first_plain s j count = pre ++ a :: post.
Proof.
  induction count as [|count IH]; intros j; cbn [accent_first_plain]; [now left|].
  destruct (nth_error s j) as [ch|] eqn:En; [|now left].
  destruct (char_in ch VOWELS); [|apply IH].
  destruct (lookup ch ACCENT_VOWEL_MAP) as [a|] eqn:El; [|now left].
  right. exists (firstn j s), ch, a, (skipn (j + 1) s).
  split; [|split; [exact El | reflexivity]].
  rewrite <- (skipn_nth_error _ _ _ En). symmetry. apply firstn_skipn.
Qed.

Lemma add_stress_cases s :
  add_stress_if_needed s = s
  \/ exists pre ch a post,
       s = pre ++ ch :: post
       /\ lookup ch ACCENT_VOWEL_MAP = Some a
       /\ add_stress_if_needed s = pre ++ a :: post.
Proof.
  unfold add_stress_if_needed.
  destruct (has_accent s); [now left|]. cbv zeta.
  destruct (length (re_finditer (p_plus is_vowel) s) <=? 1); [now left|].
  destruct (nth_error _ _) as [[g_start g_end]|]; [|now left].
  apply accent_first_plain_cases.
Qed.

Lemma has_accent_true s : has_accent s = true <-> ~ accent_free s.
Proof.
  rewrite <- has_accent_false. destruct (has_accent s); split; congruence.
Qed.

Lemma accented_not_free pre a post : accented a -> ~ accent_free (pre ++ a :: post).
Proof.
  intros Ha H. apply Forall_app in H as [_ H]. inversion H; subst. contradiction.
Qed.

Lemma add_stress_accented s : ~ accent_free s -> add_stress_if_needed s = s.
Proof.
  intros H. apply has_accent_true in H. unfold add_stress_if_needed. now rewrite H.
Qed.

(** X10.  The stress assigner changes accents only, and at most one: the
    result is the string itself or the string with the accent put on one
    plain vowel; so its length and its accent-stripped form are those of
    the string, and assigning stress again changes nothing. *)
Theorem add_stress_only_accents (s : str) :
  (add_stress_if_needed s = s
   \/ exists pre v a post,
        s = pre ++ v :: post
        /\ In (v, a) (combine VOWELS VOWELS_ACCENTED)
        /\ add_stress_if_needed s = pre ++ a :: post)
  /\ length (add_stress_if_needed s) = length s
  /\ strip_accents (add_stress_if_needed s) = strip_accents s
  /\ add_stress_if_needed (add_stress_if_needed s) = add_stress_if_needed s.
Proof.
  destruct (add_stress_cases s) as [E|(pre & ch & a & post & Hs & Hl & E)].
  - rewrite !E. repeat split. now left.
  - destruct (lookup_accent_plain ch a Hl) as (Ha & Hpa & Hpc).
    rewrite E. split; [|split; [|split]].
    + right. exists pre, ch, a, post. repeat split; try assumption.
      unfold lookup in Hl.
      destruct (find (fun kv => eqc ch (fst kv)) ACCENT_VOWEL_MAP) as [[k v]|] eqn:Ef;
        [|discriminate].
      apply find_some in Ef as [Hin Hk]. simpl in Hk, Hl. apply eqc_true in Hk.
      injection Hl as ->. subst k. exact Hin.
    + rewrite Hs, !length_app. reflexivity.
    + rewrite Hs, !strip_accents_app, !strip_accents_cons.
      now rewrite Hpa, Hpc.
    + now apply add_stress_accented, accented_not_free.
Qed.

(** ** Accents: one stress mark for a word *)

Lemma first_accent s :
  accent_free s
  \/ exists pre v post, s = pre ++ v :: post /\ accent_free pre /\ accented v.
Proof.
  induction s as [|c s IH]; [left; constructor|].
  destruct (char_in c VOWELS_ACCENTED) eqn:E.
  - right. exists [], c, s. repeat split; [constructor | now apply accented_check].
  - assert (Hc : ~ accented c) by (rewrite accented_check; congruence).
    destruct IH as [IH|(pre & v & post & -> & Hpre & Hv)].
    + left. now constructor.
    + right. exists (c :: pre), v, post. repeat split; [now constructor | assumption].
Qed.

(** With an accented vowel there is one mark: the result is the
    accent-stripped string with the mark put somewhere in it. *)
Lemma insert_marker_split s :
  ~ accent_free s ->
  exists pre post,
    s = pre ++ post
    /\ insert_stress_marker_and_clean s = strip_accents pre ++ STRESS ++ strip_accents post.
Proof.
  intros Hs. destruct (first_accent s) as [H|(pre & v & post & -> & Hpre & Hv)];
    [contradiction|].
  destruct pre as [|g pre'] using rev_ind.
  - exists [], (v :: post). split; [reflexivity|].
    exact (insert_marker_at [] [] v post Hpre Hv eq_refl).
  - clear IHpre'. destruct (char_in g GLIDES) eqn:Eg.
    + exists pre', ([g] ++ v :: post). split; [now rewrite <- app_assoc|].
      rewrite <- app_assoc.
      rewrite (insert_marker_at pre' [g] v post Hpre Hv).
      * apply Forall_app in Hpre as [Hk Ho].
        rewrite (strip_accents_id pre' Hk), strip_accents_app, (strip_accents_id [g] Ho).
        reflexivity.
      * rewrite length_app. cbn [length].
        replace (length pre' + 1 - 1) with (length pre') by lia.
        cbn [app]. rewrite nth_error_length_app, Eg.
        destruct (Nat.ltb_spec 0 (length pre' + 1)); [reflexivity | lia].
    + exists (pre' ++ [g]), (v :: post). split; [reflexivity|].
      change ((pre' ++ [g]) ++ v :: post) with ((pre' ++ [g]) ++ [] ++ v :: post).
      rewrite (insert_marker_at (pre' ++ [g]) [] v post).
      * now rewrite (strip_accents_id _ Hpre).
      * now rewrite app_nil_r.
      * exact Hv.
      * rewrite app_nil_r, length_app. cbn [length app].
        replace (length pre' + 1 - 1) with (length pre') by lia.
        rewrite <- app_assoc. cbn [app]. rewrite nth_error_length_app, Eg.
        now rewrite andb_false_r.
Qed.

Lemma add_stress_few s : vowel_groups s <= 1 -> add_stress_if_needed s = s.
Proof.
  intros H. unfold add_stress_if_needed. destruct (has_accent s); [reflexivity|].
  cbv zeta. pose proof (groups_count (length s) s 0 (le_n _)) as Hcount.
  unfold groups_from in Hcount. fold (re_finditer (p_plus is_vowel) s) in Hcount.
  rewrite Hcount. destruct (Nat.leb_spec (vowel_groups s) 1); [reflexivity | lia].
Qed.

(** With two vowel groups or more and no accent, an accent is put. *)
Lemma add_stress_many s :
  accent_free s -> 2 <= vowel_groups s -> ~ accent_free (add_stress_if_needed s).
Proof.
  intros Hfree Hmany.
  pose proof (groups_count (length s) s 0 (le_n _)) as Hcount.
  unfold groups_from in Hcount. fold (re_finditer (p_plus is_vowel) s) in Hcount.
  unfold add_stress_if_needed.
  rewrite (proj2 (has_accent_false s) Hfree). cbv zeta. rewrite Hcount.
  destruct (Nat.leb_spec (vowel_groups s) 1) as [|_]; [lia|].
  set (idx := Z.to_nat _).
  assert (Hidx : idx < vowel_groups s).
  { subst idx. destruct (ends_like_penult s).
    - destruct (Z.ltb_spec (Z.of_nat (vowel_groups s) - 2) 0); lia.
    - destruct (Z.ltb_spec (Z.of_nat (vowel_groups s) - 1) 0); lia. }
  destruct (nth_error (re_finditer (p_plus is_vowel) s) idx)
    as [[g_start g_end]|] eqn:Enth.
  2:{ apply nth_error_None in Enth. lia. }
  destruct (groups_nth (length s) s 0 _ _ _ (le_n _) Enth)
    as (pre & grp & post & Hs & Hgrp & -> & -> & _).
  destruct Hgrp as (Hne & Hall & _ & _).
  destruct grp as [|v grp]; [congruence|].
  assert (Hv : is_vowel v = true) by now inversion Hall.
  assert (Hnv : ~ accented v).
  { rewrite Hs in Hfree. apply Forall_app in Hfree as [_ Hfree].
    apply Forall_app in Hfree as [Hfree _]. now inversion Hfree. }
  destruct (plain_vowel v Hv Hnv) as (Hplain & a & Ha & _).
  replace (0 + length pre + length (v :: grp) - (0 + length pre))
    with (length (v :: grp)) by lia.
  cbn [Nat.add]. rewrite Hs, (accent_first_plain_head pre v grp post a Hplain Ha).
  cbn [app]. apply accented_not_free. apply (lookup_accent_plain v a Ha).
Qed.

(** X11.  The phones of a word, with [m] its grapheme mapping.  When [m]
    has no accented vowel and at most one vowel group, they are [m] itself,
    without a stress mark added.  When [m] has an accented vowel or two
    vowel groups or more, they are the accent-stripped [m] with exactly one
    stress mark put into it. *)
Theorem phones_stress_mark (lower : str -> str) (tok : str) :
  let m := map_graphemes lower tok in
  (accent_free m -> vowel_groups m <= 1 -> phones lower tok = m)
  /\ (~ accent_free m \/ 2 <= vowel_groups m ->
      exists pre post,
        strip_accents m = pre ++ post
        /\ phones lower tok = pre ++ STRESS ++ post).
Proof.
  intros m. unfold phones. fold m. rewrite apply_glides_safe. split.
  - intros Hfree Hfew. rewrite (add_stress_few m Hfew).
    now apply insert_marker_no_accent.
  - intros H.
    assert (Hacc : ~ accent_free (add_stress_if_needed m)).
    { destruct (first_accent m) as [Hfree|(pre & v & post & E & _ & Hv)].
      - destruct H as [H|H]; [contradiction | now apply add_stress_many].
      - rewrite add_stress_accented; rewrite E; now apply accented_not_free. }
    destruct (insert_marker_split _ Hacc) as (pre & post & E & ->).
    exists (strip_accents pre), (strip_accents post). split; [|reflexivity].
    rewrite <- strip_accents_app, <- E.
    destruct (add_stress_cases m) as [->|(p & ch & a & q & Hs & Hl & ->)];
      [reflexivity|].
    destruct (lookup_accent_plain ch a Hl) as (_ & Hpa & Hpc).
    rewrite Hs, !strip_accents_app, !strip_accents_cons.
    now rewrite Hpa, Hpc.
Qed.

(** X11, witness: the word bueno, with two vowel groups and no accent. *)
Lemma phones_stress_mark_witness :
  exists pre post,
    strip_accents (Ascii.map_graphemes (u "bueno")) = pre ++ post
    /\ Ascii.phones (u "bueno") = pre ++ STRESS ++ post.
Proof.
  apply (phones_stress_mark Ascii.lower (u "bueno")).
  right. vm_compute. lia.
Defined.

(** ** Punctuation passes through *)

Lemma filter_punct_free s : punct_free s -> filter is_punct s = [].
Proof. apply filter_none. Qed.

Lemma space_is_no_punct c : isspace c = true -> is_punct c = false.
Proof.
  intros H. destruct (is_punct c) eqn:E; [|reflexivity].
  destruct (punct_not_space c E). congruence.
Qed.

Section Punctuation.

Variable normalize_NFC : str -> str.
Variable lower : str -> str.

(** [str.lower] makes no punctuation of what is none. *)
Hypothesis lower_punct_free : forall w, punct_free w -> punct_free (lower w).

Lemma g2p_out_punct : forall toks acc,
  Forall unmixed toks ->
  concat (map (filter is_punct) (fold_left (g2p_step lower) toks acc))
    = concat (map (filter is_punct) acc) ++ concat (map (filter is_punct) toks).
Proof.
  induction toks as [|tok toks IH]; intros acc H; [simpl; now rewrite app_nil_r|].
  inversion H as [|? ? Htok Htoks]; subst. cbn [fold_left]. rewrite (IH _ Htoks).
  cbn [map concat]. rewrite app_assoc. f_equal.
  unfold g2p_step. destruct tok as [|c tok]; [simpl; now rewrite app_nil_r|].
  destruct (forallb is_punct (c :: tok)) eqn:E;
    rewrite map_app, concat_app; cbn [map concat]; rewrite app_nil_r; [reflexivity|].
  f_equal. destruct Htok as [Hfree|(x & [= -> ->] & Hx)].
  - rewrite (filter_punct_free _ Hfree).
    apply filter_punct_free, phones_punct_free, lower_punct_free, Hfree.
  - simpl in E. rewrite Hx in E. discriminate E.
Qed.

Lemma g2p_filter_punct (text : str) :
  text <> [] ->
  filter is_punct (g2p normalize_NFC lower text)
    = filter is_punct (normalize_NFC text).
Proof.
  intros Hne. unfold g2p. destruct text as [|c text]; [congruence|]. cbv zeta.
  unfold _normalize_nfc.
  set (spaced := _space_punct (normalize_NFC (c :: text))).
  assert (H : filter is_punct (strip (join (u " ") (g2p_out lower spaced)))
              = filter is_punct (normalize_NFC (c :: text))).
  { unfold strip. rewrite (filter_strip_by is_punct isspace _ space_is_no_punct).
    rewrite filter_join by reflexivity. unfold g2p_out.
    rewrite g2p_out_punct by (apply (isolated_tokens spaced true), space_punct_isolated).
    cbn [map concat app].
    rewrite <- (filter_join is_punct (u " ")) by reflexivity.
    change (u " ") with [space]. rewrite join_split.
    apply space_punct_filter, space_is_no_punct. }
  destruct (strip _) as [|x result]; [exact H|].
  rewrite <- H, !filter_app.
  change (filter is_punct (u "/ ")) with (@nil N).
  change (filter is_punct (u " /")) with (@nil N).
  cbn [app]. apply app_nil_r.
Qed.

(** X12.  The punctuation of the transcription of a text that is not empty
    is the punctuation of the (NFC-normalized) text, character by character
    and in the same order: none is dropped, added or changed.  [str.lower]
    is taken to make no punctuation character out of a text that has
    none. *)
Theorem g2p_keeps_punctuation (text : str) :
  text <> [] ->
  filter is_punct (g2p normalize_NFC lower text)
    = filter is_punct (normalize_NFC text).
Proof. apply g2p_filter_punct. Qed.

End Punctuation.

(** X12, witness: a question, with the ASCII-text database. *)
Lemma g2p_keeps_punctuation_witness :
  filter is_punct (Ascii.g2p (u "¿Qué tal, amigo?")) = u "¿,?".
Proof.
  exact (g2p_keeps_punctuation Ascii.nfc Ascii.lower ascii_lower_punct_free
           (u "¿Qué tal, amigo?") ltac:(discriminate)).
Defined.

End G2PMore.

(* ================================================================== *)
(** * More on the tokenizer and on the input of the model *)
(* ================================================================== *)

Module AppProofs.
Import Py PyFacts MoreFacts G2P G2PSpec Notions G2PProofs G2PMore.
Import Tokenizer TokenizerProofs App.

(** ** What the tokenizer emits *)

Lemma greedy_tokens_keys ks s ts us :
  greedy ks s ts us ->
  Forall (fun t => In t ks /\ t <> []) ts /\ Forall (fun c => ~ In [c] ks) us.
Proof.
  induction 1 as [| k rest ts us Hin Hne _ _ [IHt IHu] | c rest ts us Hno _ [IHt IHu]].
  - split; constructor.
  - split; [constructor; [now split | exact IHt] | exact IHu].
  - split; [exact IHt|]. constructor; [|exact IHu].
    intros Hin. apply (Hno [c] Hin); [discriminate | now exists rest].
Qed.

Lemma tokenize_ipa_keys ipa_text d keep ts us :
  tokenize_ipa ipa_text d keep = Some (ts, us) ->
  Forall (fun t => In t (keys d) /\ t <> []) ts.
Proof.
  intros Et.
  destruct (tokenize_ipa_spec ipa_text d keep) as (ts' & us' & Hrun & Hg).
  unfold tokenize_ipa in Et. rewrite Hrun in Et by lia. injection Et as <- <-.
  exact (proj1 (greedy_tokens_keys _ _ _ _ Hg)).
Qed.

(** X1.  For every text, vocabulary and flag: every token the tokenizer
    emits is a non-empty key of the vocabulary, and no character it reports
    as unmapped is, on its own, a key. *)
Theorem tokenize_emits_keys (ipa_text : str) (d : vocabulary) (keep : bool) :
  exists ts us,
    tokenize_ipa ipa_text d keep = Some (ts, us)
    /\ Forall (fun t => In t (keys d) /\ t <> []) ts
    /\ Forall (fun c => ~ In [c] (keys d)) us.
Proof.
  destruct (tokenize_ipa_spec ipa_text d keep) as (ts & us & Hrun & Hg).
  exists ts, us. split; [apply Hrun; lia|]. exact (greedy_tokens_keys _ _ _ _ Hg).
Qed.

(** X13.  Over a vocabulary whose keys are one character each, as the
    repository's is, the tokenizer sorts the characters of the preprocessed
    text: the mapped ones are the tokens, one character each, the others the
    unmapped characters, both in the order of the text. *)
Theorem tokenize_one_character_keys (ipa_text : str) (d : vocabulary) (keep : bool) :
  single_chars d ->
  tokenize_ipa ipa_text d keep
    = Some (map (fun c => [c])
                (filter (fun c => contains d [c]) (preprocess ipa_text d keep)),
            filter (fun c => negb (contains d [c])) (preprocess ipa_text d keep)).
Proof. apply tokenize_single_chars. Qed.

(** X13, witness: the repository's vocabulary, which has no key for the
    slash inside the text nor for the digit. *)
Lemma tokenize_one_character_keys_witness :
  tokenize_ipa (u "/ a/b 2 /") get_phoneme_map true
    = Some ([u " "; u "a"; u "b"; u " "; u " "], u "/2").
Proof.
  exact (tokenize_one_character_keys (u "/ a/b 2 /") get_phoneme_map true
           (single_chars_check get_phoneme_map eq_refl)).
Defined.

(** ** The stress mark, when it is not kept *)

Lemma interleaved_chars (P : N -> Prop) ts us s :
  interleaved ts us s -> Forall P s -> Forall (Forall P) ts /\ Forall P us.
Proof.
  induction 1 as [| k ts us s _ IH | c ts us s _ IH]; intros H.
  - split; constructor.
  - apply Forall_app in H as [Hk Hs]. destruct (IH Hs). split; [now constructor | assumption].
  - inversion H as [|? ? Hc Hs]; subst. destruct (IH Hs). split; [assumption | now constructor].
Qed.

(** X2.  When the stress mark is not to be kept, or is not a key of the
    vocabulary, it is dropped before the scan: no token has it and it is
    never reported as unmapped. *)
Theorem tokenize_drops_stress (ipa_text : str) (d : vocabulary) (keep : bool) :
  keep = false \/ contains d STRESS = false ->
  exists ts us,
    tokenize_ipa ipa_text d keep = Some (ts, us)
    /\ Forall (fun t => ~ In 712%N t) ts
    /\ ~ In 712%N us.
Proof.
  intros Hdrop.
  destruct (tokenize_ipa_spec ipa_text d keep) as (ts & us & Hrun & Hg).
  exists ts, us. split; [apply Hrun; lia|].
  assert (Hs : Forall (fun c => c <> 712%N) (preprocess ipa_text d keep)).
  { unfold preprocess.
    assert (Hc : negb (keep && contains d STRESS) = true).
    { destruct Hdrop as [->| ->]; [reflexivity | now rewrite andb_false_r]. }
    rewrite Hc.
    assert (H1 : Forall (fun c => c <> 712%N)
                   (replace STRESS [] (strip_chars SLASH (strip ipa_text))))
      by (apply (replace_char_gone 712%N []); intros []).
    destruct (contains d TESH && negb (contains d T_ESH)); [|exact H1].
    apply replace_Forall; [|exact H1]. repeat constructor. discriminate. }
  destruct (interleaved_chars _ _ _ _ (greedy_interleaved _ _ _ _ Hg) Hs) as [Ht Hu].
  split.
  - apply Forall_forall. intros t Hin Hc. rewrite Forall_forall in Ht.
    specialize (Ht t Hin). rewrite Forall_forall in Ht. now apply (Ht _ Hc).
  - intros Hc. rewrite Forall_forall in Hu. now apply (Hu _ Hc).
Qed.

(** X2, witness: the transcription of casa, the mark not kept. *)
Lemma tokenize_drops_stress_witness :
  exists ts us,
    tokenize_ipa (u "/ kˈasa /") get_phoneme_map false = Some (ts, us)
    /\ Forall (fun t => ~ In 712%N t) ts
    /\ ~ In 712%N us.
Proof.
  exact (tokenize_drops_stress (u "/ kˈasa /") get_phoneme_map false (or_introl eq_refl)).
Defined.

(** ** The vocabulary table *)

Lemma getitem_In d k v : getitem d k = Some v -> In (k, v) d.
Proof.
  unfold getitem. destruct (find _ (rev d)) as [[k' v']|] eqn:E; [|discriminate].
  intros [= <-]. apply find_some in E as [Hin He]. apply eqs_true in He.
  simpl in He. subst k'. now apply in_rev.
Qed.

Lemma getitem_key d k : In k (keys d) -> exists v, getitem d k = Some v.
Proof.
  intros Hin. unfold keys in Hin. apply in_map_iff in Hin as ([k' v] & Hk & Hin).
  simpl in Hk. subst k'. unfold getitem.
  destruct (find (fun kv => eqs k (fst kv)) (rev d)) as [[k'' v']|] eqn:E.
  - exists v'. reflexivity.
  - apply in_rev in Hin. pose proof (find_none _ _ E _ Hin) as Hno.
    simpl in Hno. assert (eqs k k = true) by now apply eqs_true. congruence.
Qed.

Lemma distinct_ids_NoDup ids : distinct_ids ids = true -> NoDup ids.
Proof.
  induction ids as [|x ids IH]; intros H; [constructor|].
  simpl in H. apply andb_true_iff in H as [Hx Hrest].
  constructor; [|now apply IH].
  intros Hin. apply negb_true_iff in Hx.
  assert (existsb (Z.eqb x) ids = true)
    by (apply existsb_exists; exists x; split; [assumption | apply Z.eqb_refl]).
  congruence.
Qed.

Lemma NoDup_snd_injective (d : vocabulary) k1 k2 v :
  NoDup (map snd d) -> In (k1, v) d -> In (k2, v) d -> k1 = k2.
Proof.
  induction d as [|[k w] d IH]; intros Hnd H1 H2; [contradiction|].
  simpl in Hnd. inversion Hnd as [|? ? Hw Hnd']; subst.
  destruct H1 as [E1|H1], H2 as [E2|H2].
  - congruence.
  - exfalso. apply Hw. injection E1 as _ ->.
    change v with (snd (k2, v)). now apply in_map.
  - exfalso. apply Hw. injection E2 as _ ->.
    change v with (snd (k1, v)). now apply in_map.
  - now apply IH.
Qed.

(** X3.  In the repository's vocabulary no two symbols have the same id, so
    an id stands for one symbol only; every symbol is one character, and
    every id lies between 1 and 177, none being the padding id 0. *)
Theorem phoneme_map_ids :
  (forall k1 k2 v,
     getitem get_phoneme_map k1 = Some v -> getitem get_phoneme_map k2 = Some v ->
     k1 = k2)
  /\ (forall k v,
        getitem get_phoneme_map k = Some v ->
        length k = 1 /\ (1 <= v <= 177)%Z).
Proof.
  split.
  - intros k1 k2 v H1 H2. apply getitem_In in H1, H2.
    apply (NoDup_snd_injective get_phoneme_map k1 k2 v); try assumption.
    apply distinct_ids_NoDup. reflexivity.
  - intros k v H. apply getitem_In in H.
    assert (Hall : Forall (fun kv => length (fst kv) = 1 /\ (1 <= snd kv <= 177)%Z)
                     get_phoneme_map).
    { apply Forall_forall. intros kv Hin.
      assert (Hb : forallb (fun kv => (length (fst kv) =? 1)
                                      && (1 <=? snd kv)%Z && (snd kv <=? 177)%Z)
                     get_phoneme_map = true) by reflexivity.
      rewrite forallb_forall in Hb. specialize (Hb kv Hin).
      apply andb_true_iff in Hb as [Hb H3]. apply andb_true_iff in Hb as [H1 H2].
      apply Nat.eqb_eq in H1. apply Z.leb_le in H2, H3. now repeat split. }
    rewrite Forall_forall in Hall. exact (Hall (k, v) H).
Qed.

(** ** One turn of the interaction loop *)

Lemma token_ids_keys d : forall ts,
  Forall (fun t => In t (keys d) /\ t <> []) ts ->
  exists ids, token_ids d ts = Some ids /\ length ids = length ts.
Proof.
  induction 1 as [|t ts [Ht _] _ (ids & IH & Hlen)]; [now exists []|].
  destruct (getitem_key d t Ht) as [v Hv].
  exists (v :: ids). simpl. rewrite Hv, IH. split; [reflexivity | now rewrite Hlen].
Qed.

Section Turn.

Variable normalize_NFC : str -> str.
Variable lower : str -> str.

Lemma row_exists_style ids n_voices :
  row_exists n_voices (style_index ids n_voices) = (1 <=? n_voices)%Z.
Proof.
  unfold row_exists, style_index.
  destruct (Z.leb_spec 1 n_voices).
  - apply andb_true_iff. split; [apply Z.leb_le | apply Z.ltb_lt]; lia.
  - apply andb_false_iff. left. apply Z.leb_gt. lia.
Qed.

(** X4.  Whatever the line, the vocabulary and the number of voice rows, a
    turn of the loop of [main] never ends in the KeyError branch: every
    token of the tokenizer has an id.  The turn is skipped exactly when the
    line is blank.  A line that is not blank reaches the model's input
    exactly when the voice file has one row or more; with no row the lookup
    of the style row is an IndexError, which ends the loop. *)
Theorem turn_never_aborts (d : vocabulary) (n_voices : Z) (line : str) :
  exists o,
    turn normalize_NFC lower d n_voices line = Some o
    /\ o <> Aborted
    /\ (o = Skipped <-> strip line = [])
    /\ (o = Failed <-> strip line <> [] /\ (n_voices < 1)%Z)
    /\ ((exists style input_ids, o = Ready style input_ids)
        <-> strip line <> [] /\ (1 <= n_voices)%Z).
Proof.
  unfold turn. destruct (strip line) as [|c text] eqn:E.
  - exists Skipped. split; [reflexivity|]. split; [discriminate|].
    split; [split; reflexivity|].
    split; split; try discriminate.
    + intros [H _]. congruence.
    + intros (style & input_ids & H). discriminate H.
    + intros [H _]. congruence.
  - cbv zeta.
    destruct (tokenize_ipa_spec (G2P.g2p normalize_NFC lower (c :: text)) d true)
      as (ts & us & Hrun & Hg).
    unfold tokenize_ipa. rewrite Hrun by lia.
    destruct (token_ids_keys d ts (proj1 (greedy_tokens_keys _ _ _ _ Hg)))
      as (ids & Hids & _).
    rewrite Hids, row_exists_style.
    destruct (Z.leb_spec 1 n_voices) as [Hn|Hn]; eexists; (split; [reflexivity|]).
    + split; [discriminate|]. split; [split; discriminate|].
      split; split.
      * discriminate.
      * intros [_ H]. lia.
      * intros _. split; [discriminate | exact Hn].
      * intros _. eexists _, _. reflexivity.
    + split; [discriminate|]. split; [split; discriminate|].
      split; split.
      * intros _. split; [discriminate | exact Hn].
      * reflexivity.
      * intros (style & input_ids & H). discriminate H.
      * intros [_ H]. lia.
Qed.

Lemma truncate_firstn ids : truncate ids = firstn MAX_TOKENS ids.
Proof.
  unfold truncate. destruct (Nat.ltb_spec MAX_TOKENS (length ids)); [reflexivity|].
  symmetry. now apply firstn_all2.
Qed.

(** X5.  When a turn reaches the model, the input is the ids of the first
    510 tokens at most, between two padding zeros, so never longer than 512;
    and with at least one voice row the style index is a valid row, at most
    the number of ids. *)
Theorem turn_ready_bounds (d : vocabulary) (n_voices : Z) (line : str)
                          (style : Z) (input_ids : list Z) :
  turn normalize_NFC lower d n_voices line = Some (Ready style input_ids) ->
  exists ts us all_ids,
    tokenize_ipa (G2P.g2p normalize_NFC lower (strip line)) d true = Some (ts, us)
    /\ token_ids d ts = Some all_ids
    /\ length all_ids = length ts
    /\ input_ids = [0%Z] ++ firstn 510 all_ids ++ [0%Z]
    /\ length input_ids = Nat.min 510 (length ts) + 2
    /\ length input_ids <= 512
    /\ ((1 <= n_voices)%Z ->
        (0 <= style < n_voices)%Z /\ (style <= Z.of_nat (Nat.min 510 (length ts)))%Z).
Proof.
  unfold turn. destruct (strip line) as [|c text] eqn:E; [discriminate|].
  cbv zeta.
  destruct (tokenize_ipa (G2P.g2p normalize_NFC lower (c :: text)) d true)
    as [[ts us]|] eqn:Et; [|discriminate].
  pose proof (tokenize_ipa_keys _ _ _ _ _ Et) as Hkeys.
  destruct (token_ids_keys d ts Hkeys) as (ids & Hids & Hlen).
  rewrite Hids. destruct (row_exists _ _); [|discriminate]. intros [= <- <-].
  exists ts, us, ids. rewrite truncate_firstn. unfold MAX_TOKENS, style_index, input_tokens.
  assert (Hf : length (firstn 510 ids) = Nat.min 510 (length ts))
    by (rewrite length_firstn, Hlen; reflexivity).
  repeat split; try assumption; try reflexivity.
  - rewrite !length_app, Hf. cbn [length]. lia.
  - rewrite !length_app, Hf. cbn [length]. lia.
  - rewrite Hf. lia.
  - rewrite Hf. lia.
  - rewrite Hf. lia.
Qed.

(** X14.  A text that is not blank and whose transcription is the empty
    [//] (a lone h, say) is not skipped.  With one voice row or more the
    model is given the two padding zeros alone, with the style row 0; with
    no voice row the lookup of the style row ends the loop. *)
Theorem turn_silent_text (d : vocabulary) (n_voices : Z) (line : str) :
  strip line <> [] ->
  G2P.g2p normalize_NFC lower (strip line) = u "//" ->
  turn normalize_NFC lower d n_voices line
    = Some (if (1 <=? n_voices)%Z then Ready 0%Z [0; 0]%Z else Failed).
Proof.
  intros Hne Hg. unfold turn. destruct (strip line) as [|c text]; [congruence|].
  cbv zeta. rewrite Hg.
  assert (Hp : preprocess (u "//") d true = []).
  { unfold preprocess. change (strip_chars SLASH (strip (u "//"))) with (@nil N).
    destruct (negb (true && contains d STRESS));
      destruct (contains d TESH && negb (contains d T_ESH)); reflexivity. }
  assert (Ht : tokenize_ipa (u "//") d true = Some ([], [])).
  { unfold tokenize_ipa, tokenize_with_fuel. rewrite Hp. reflexivity. }
  rewrite Ht. cbn [token_ids]. change (truncate []) with (@nil Z).
  rewrite row_exists_style. destruct (Z.leb_spec 1 n_voices); [|reflexivity].
  unfold style_index. cbn [length]. rewrite Z.min_l by lia. reflexivity.
Qed.

End Turn.

(** X14, witness: the line h, the repository's vocabulary, 511 voice rows. *)
Lemma turn_silent_text_witness :
  turn G2P.Ascii.nfc G2P.Ascii.lower get_phoneme_map 511%Z (u "h")
    = Some (Ready 0%Z [0; 0]%Z).
Proof.
  exact (turn_silent_text G2P.Ascii.nfc G2P.Ascii.lower get_phoneme_map 511%Z (u "h")
           ltac:(discriminate) eq_refl).
Defined.

(** ** Spanish text and the repository's vocabulary *)

Lemma Forall_check (P : N -> Prop) (chk : N -> bool) s :
  (forall c, chk c = true -> P c) -> forallb chk s = true -> Forall P s.
Proof.
  intros H Hs. apply Forall_forall. intros c Hc.
  rewrite forallb_forall in Hs. apply H, Hs, Hc.
Qed.

Lemma over_check (P : N -> Prop) (chk : N -> bool) alphabet s :
  (forall c, chk c = true -> P c) -> forallb chk alphabet = true ->
  over alphabet s -> Forall P s.
Proof.
  intros H Ha. apply Forall_impl. intros c Hc. apply char_in_true in Hc.
  rewrite forallb_forall in Ha. apply H, Ha, Hc.
Qed.

Lemma rhotic_spec_Forall (P : N -> Prop) :
  P TRILL -> P TAP ->
  forall n w p, length w <= n -> Forall P w -> Forall P (rhotic_spec p w).
Proof.
  intros Ht Ha. induction n as [|n IH]; intros w p Hn Hw.
  - destruct w; [constructor | simpl in Hn; lia].
  - destruct (word_shape w) as [->|[[w' ->]|[(w' & -> & Hw')|(c & w' & -> & Hc)]]].
    + constructor.
    + rewrite rhotic_spec_rr. inversion Hw as [|? ? _ H1]; subst.
      inversion H1; subst. constructor; [exact Ht|]. apply IH; [simpl in Hn; lia | assumption].
    + rewrite (rhotic_spec_single p w' Hw'). inversion Hw; subst.
      constructor; [now destruct (strong_after p)|].
      apply IH; [simpl in Hn; lia | assumption].
    + rewrite (rhotic_spec_other p c w' Hc). inversion Hw; subst.
      constructor; [assumption|]. apply IH; [simpl in Hn; lia | assumption].
Qed.

Lemma mapped_plain_check c : mapped (plain c) = true -> mapped_plain c.
Proof. trivial. Qed.

Lemma space_punct_over s : over SPANISH_TEXT s -> over SPANISH_TEXT (_space_punct s).
Proof.
  intros H. unfold _space_punct. cbv zeta. apply strip_by_Forall.
  apply re_sub_Forall; [intros _ _; now repeat constructor|].
  apply re_sub_Forall; [intros _ _; now repeat constructor|].
  apply re_sub_Forall; [|exact H].
  intros m Hm. rewrite !Forall_app. repeat split; try assumption; now repeat constructor.
Qed.

Section Coverage.

Variable normalize_NFC : str -> str.
Variable lower : str -> str.

(** NFC leaves plain Spanish text plain, and [str.lower] makes lowercase
    Spanish letters of Spanish letters. *)
Hypothesis nfc_text : forall s, over SPANISH_TEXT s -> over SPANISH_TEXT (normalize_NFC s).
Hypothesis lower_letters : forall w, over SPANISH_LETTERS w -> over SPANISH_LOWER (lower w).

Lemma map_graphemes_mapped tok :
  over SPANISH_LETTERS tok -> Forall mapped_plain (map_graphemes lower tok).
Proof.
  intros Htok. pose proof (lower_letters tok Htok) as Hlw.
  unfold map_graphemes, normalize_word.
  change (nasal_assimilation (lower tok)) with (lower tok). cbv zeta.
  destruct (eqs (lower tok) (u "y"));
    [apply (Forall_check _ (fun c => mapped (plain c)) _ mapped_plain_check); reflexivity|].
  assert (Hfree : placeholder_free (lower tok)).
  { apply (over_check _ (fun c => negb (eqc c CAPITAL_R)) SPANISH_LOWER _); [|reflexivity|exact Hlw].
    intros c Hc. apply negb_true_iff, eqc_false in Hc. exact Hc. }
  rewrite (rhotics_spec _ (consonants_placeholder_free _ Hfree)).
  apply (rhotic_spec_Forall mapped_plain eq_refl eq_refl
           (length (consonants (lower tok)))); [apply le_n|].
  assert (H1 : Forall (fun c => mapped_plain c \/ c = 241%N) (consonants (lower tok))).
  { assert (Hor : forall c, mapped (plain c) || eqc c 241 = true ->
                            mapped_plain c \/ c = 241%N).
    { intros c Hc. apply orb_true_iff in Hc as [Hc|Hc]; [now left|].
      right. now apply eqc_true. }
    apply consonants_Forall.
    - apply (Forall_check _ _ _ Hor). reflexivity.
    - apply (over_check _ _ SPANISH_LOWER _ Hor); [reflexivity | exact Hlw]. }
  assert (H2 : Forall (fun c => c <> 241%N) (consonants (lower tok))).
  { apply consonants_rewritten. unfold REWRITTEN. simpl. auto 10. }
  rewrite Forall_forall in *. intros c Hc.
  destruct (H1 c Hc) as [H|H]; [exact H | elim (H2 c Hc H)].
Qed.

Lemma phones_mapped tok :
  over SPANISH_LETTERS tok -> Forall (fun c => mapped c = true) (phones lower tok).
Proof.
  intros Htok. unfold phones. rewrite apply_glides_safe.
  assert (H : Forall mapped_plain
                (insert_stress_marker_and_clean
                   (add_stress_if_needed (map_graphemes lower tok)))).
  { apply insert_marker_Forall.
    - apply (Forall_check _ (fun c => mapped (plain c)) _ mapped_plain_check); reflexivity.
    - intros c Hc. unfold mapped_plain. now rewrite plain_idempotent.
    - apply add_stress_Forall; [|now apply map_graphemes_mapped].
      apply (Forall_check _ (fun c => mapped (plain c)) _ mapped_plain_check); reflexivity. }
  pose proof (insert_marker_accent_free
                (add_stress_if_needed (map_graphemes lower tok))) as Hfree.
  unfold accent_free in Hfree. rewrite Forall_forall in *. intros c Hc.
  specialize (H c Hc). unfold mapped_plain in H. now rewrite (plain_id c (Hfree c Hc)) in H.
Qed.

Lemma g2p_out_mapped text :
  over SPANISH_TEXT text ->
  Forall (Forall (fun c => mapped c = true)) (g2p_out lower (_space_punct text)).
Proof.
  intros Htext. pose proof (space_punct_over text Htext) as Hs.
  unfold g2p_out.
  apply (g2p_out_Forall lower _
           (fun tok => over SPANISH_TEXT tok /\ unmixed tok
                       /\ Forall (fun c => c <> space) tok)).
  - intros tok (Hover & _ & _) _ Hp. unfold over in Hover.
    rewrite Forall_forall in *. intros c Hc.
    rewrite forallb_forall in Hp. specialize (Hp c Hc). specialize (Hover c Hc).
    apply char_in_true in Hover.
    assert (Hchk : forallb (fun c => implb (is_punct c) (mapped c)) SPANISH_TEXT = true)
      by reflexivity.
    rewrite forallb_forall in Hchk. specialize (Hchk c Hover).
    now rewrite Hp in Hchk.
  - intros tok (Hover & Hmix & Hsp) _ Hp. apply phones_mapped.
    assert (Hfree : punct_free tok).
    { destruct Hmix as [H|(c & -> & Hc)]; [exact H|].
      simpl in Hp. rewrite Hc in Hp. discriminate Hp. }
    unfold over, punct_free in *. rewrite Forall_forall in *. intros c Hc.
    specialize (Hover c Hc). apply char_in_true in Hover.
    assert (Hchk : forallb (fun c => is_punct c || eqc c space
                                     || char_in c SPANISH_LETTERS) SPANISH_TEXT = true)
      by reflexivity.
    rewrite forallb_forall in Hchk. specialize (Hchk c Hover).
    rewrite (Hfree c Hc) in Hchk.
    assert (He : eqc c space = false) by (apply eqc_false, Hsp, Hc).
    now rewrite He in Hchk.
  - pose proof (split_Forall _ space _ Hs) as H1.
    pose proof (proj1 (isolated_tokens _ true (space_punct_isolated text))) as H2.
    pose proof (split_no_sep space (_space_punct text)) as H3.
    rewrite Forall_forall in *. intros tok Htok.
    split; [exact (H1 tok Htok)|]. split; [exact (H2 tok Htok) | exact (H3 tok Htok)].
  - constructor.
Qed.

(** X15.  For plain Spanish text (the letters a to z and A to Z, the
    accented vowels and ñ, the space and the punctuation marks that are keys
    of the vocabulary), under the repository's vocabulary and with the
    stress mark kept, the tokenizer finds no unmapped character in the
    transcription: every phone [g2p] writes for such text is a key.  NFC is
    taken to leave such text plain and [str.lower] to give lowercase
    Spanish letters on Spanish letters. *)
Theorem spanish_text_fully_mapped (text : str) :
  over SPANISH_TEXT text ->
  exists ts,
    tokenize_ipa (g2p normalize_NFC lower text) get_phoneme_map true = Some (ts, []).
Proof.
  intros Htext.
  rewrite (tokenize_single_chars get_phoneme_map _ true
             (single_chars_check get_phoneme_map eq_refl)).
  cbv zeta. eexists. f_equal. f_equal.
  apply filter_none.
  assert (H : Forall (fun c => mapped c = true)
                (preprocess (g2p normalize_NFC lower text) get_phoneme_map true)).
  2:{ revert H. apply Forall_impl. intros c Hc. unfold mapped in Hc. now rewrite Hc. }
  unfold preprocess.
  change (negb (true && contains get_phoneme_map STRESS)) with false.
  change (contains get_phoneme_map TESH && negb (contains get_phoneme_map T_ESH)) with true.
  cbv iota. apply replace_Forall; [now repeat constructor|].
  assert (Hempty : Forall (fun c => mapped c = true) (strip_chars SLASH (strip (u "//"))))
    by constructor.
  unfold g2p. destruct text as [|c text]; [exact Hempty|]. cbv zeta.
  assert (Hr : Forall (fun c => mapped c = true)
                 (strip (join (u " ")
                    (g2p_out lower (_space_punct (_normalize_nfc normalize_NFC (c :: text))))))).
  { apply strip_by_Forall, join_Forall; [now repeat constructor|].
    apply g2p_out_mapped, nfc_text, Htext. }
  destruct (strip (join _ _)) as [|x result]; [exact Hempty|].
  remember (x :: result) as r eqn:Er. clear Er.
  assert (E : u "/ " ++ r ++ u " /" = 47%N :: (space :: r ++ [space]) ++ [47%N]).
  { simpl. now rewrite <- app_assoc. }
  rewrite E. unfold strip.
  rewrite (strip_by_kept isspace 47%N (space :: r ++ [space]) 47%N eq_refl eq_refl).
  unfold strip_chars.
  rewrite (strip_by_wrapped (fun c => char_in c SLASH) 47%N space r space 47%N
             eq_refl eq_refl eq_refl eq_refl).
  constructor; [reflexivity|]. apply Forall_app. split; [exact Hr | now repeat constructor].
Qed.

End Coverage.

Lemma ascii_lower_letters w :
  over SPANISH_LETTERS w -> over SPANISH_LOWER (G2P.Ascii.lower w).
Proof.
  intros H. unfold over, G2P.Ascii.lower. rewrite Forall_map.
  revert H. apply Forall_impl. intros c Hc. apply char_in_true in Hc.
  assert (Hchk : forallb (fun c => char_in (G2P.Ascii.lower_char c) SPANISH_LOWER)
                   SPANISH_LETTERS = true) by reflexivity.
  rewrite forallb_forall in Hchk. exact (Hchk c Hc).
Qed.

(** X15, witness: a sentence, with the ASCII-text database. *)
Lemma spanish_text_fully_mapped_witness :
  exists ts,
    tokenize_ipa (G2P.Ascii.g2p (u "El niño come, y el perro no."))
                 get_phoneme_map true = Some (ts, []).
Proof.
  apply (spanish_text_fully_mapped G2P.Ascii.nfc G2P.Ascii.lower
           (fun s H => H) ascii_lower_letters).
  apply (Forall_check _ (fun c => char_in c SPANISH_TEXT)); [trivial | reflexivity].
Defined.

(** ** Punctuation that is no key *)

Section Unmapped.

Variable normalize_NFC : str -> str.
Variable lower : str -> str.

(** [str.lower] makes no punctuation of what is none. *)
Hypothesis lower_punct_free : forall w, punct_free w -> punct_free (lower w).

(** X16.  A punctuation character of the (NFC-normalized) text that is no
    key of the repository's vocabulary, such as the opening marks ¿ and ¡,
    is passed through by [g2p] and then reported as unmapped by the
    tokenizer: it never reaches the model.  [str.lower] is taken to make no
    punctuation character out of a text that has none. *)
Theorem unmapped_punctuation_reported (text : str) (c : char) :
  text <> [] ->
  In c (normalize_NFC text) -> is_punct c = true -> mapped c = false ->
  exists ts us,
    tokenize_ipa (g2p normalize_NFC lower text) get_phoneme_map true = Some (ts, us)
    /\ In c us /\ ~ In [c] ts.
Proof.
  intros Hne Hin Hp Hm.
  rewrite (tokenize_single_chars get_phoneme_map _ true
             (single_chars_check get_phoneme_map eq_refl)).
  cbv zeta. eexists _, _. split; [reflexivity|]. split.
  2:{ intros H. apply in_map_iff in H as (y & [= ->] & Hy).
      apply filter_In in Hy as [_ Hy]. unfold mapped in Hm. congruence. }
  apply filter_In. split; [|unfold mapped in Hm; now rewrite Hm].
  set (q := fun y => eqc y c).
  assert (Hq : forall y, is_punct y = false -> q y = false).
  { intros y Hy. apply eqc_false. intros ->. congruence. }
  assert (Hc : In c (filter q (g2p normalize_NFC lower text))).
  { apply filter_In. split; [|apply eqc_refl].
    assert (H : In c (filter is_punct (g2p normalize_NFC lower text))).
    { rewrite (g2p_filter_punct normalize_NFC lower lower_punct_free text Hne).
      apply filter_In. now split. }
    now apply filter_In in H. }
  assert (E : filter q (preprocess (g2p normalize_NFC lower text) get_phoneme_map true)
              = filter q (g2p normalize_NFC lower text)).
  { unfold preprocess.
    change (negb (true && contains get_phoneme_map STRESS)) with false.
    change (contains get_phoneme_map TESH && negb (contains get_phoneme_map T_ESH))
      with true.
    cbv iota.
    rewrite (replace_filter q T_ESH TESH ltac:(discriminate)
               (filter_none q T_ESH ltac:(repeat constructor; apply Hq; reflexivity))
               (filter_none q TESH ltac:(repeat constructor; apply Hq; reflexivity))
               _ _ (le_n _)).
    unfold strip_chars, strip. rewrite !filter_strip_by; [reflexivity | |].
    - intros y Hy. apply Hq, space_is_no_punct, Hy.
    - intros y Hy. apply Hq. unfold SLASH in Hy. simpl in Hy.
      rewrite orb_false_r in Hy. apply eqc_true in Hy. now subst y. }
  rewrite <- E in Hc. now apply filter_In in Hc.
Qed.

End Unmapped.

(** X16, witness: the opening question mark. *)
Lemma unmapped_punctuation_reported_witness :
  exists ts us,
    tokenize_ipa (G2P.Ascii.g2p (u "¿Qué tal?")) get_phoneme_map true = Some (ts, us)
    /\ In 191%N us /\ ~ In [191%N] ts.
Proof.
  apply (unmapped_punctuation_reported G2P.Ascii.nfc G2P.Ascii.lower
           ascii_lower_punct_free (u "¿Qué tal?") 191%N).
  - discriminate.
  - vm_compute. tauto.
  - reflexivity.
  - reflexivity.
Defined.

(** X5, witness: the line casa, the repository's vocabulary, 511 voice rows. *)
Lemma turn_ready_bounds_witness :
  exists ts us all_ids,
    tokenize_ipa (G2P.Ascii.g2p (strip (u " casa "))) get_phoneme_map true = Some (ts, us)
    /\ token_ids get_phoneme_map ts = Some all_ids
    /\ length all_ids = length ts
    /\ [0; 16; 53; 156; 43; 61; 43; 16; 0]%Z = [0%Z] ++ firstn 510 all_ids ++ [0%Z]
    /\ length [0; 16; 53; 156; 43; 61; 43; 16; 0]%Z = Nat.min 510 (length ts) + 2
    /\ length [0; 16; 53; 156; 43; 61; 43; 16; 0]%Z <= 512
    /\ ((1 <= 511)%Z ->
        (0 <= 7 < 511)%Z /\ (7 <= Z.of_nat (Nat.min 510 (length ts)))%Z).
Proof.
  exact (turn_ready_bounds G2P.Ascii.nfc G2P.Ascii.lower get_phoneme_map 511%Z
           (u " casa ") 7%Z [0; 16; 53; 156; 43; 61; 43; 16; 0]%Z eq_refl).
Defined.

End AppProofs.

(* ================================================================== *)
(** * The scenarios of the specification, run *)
(* ================================================================== *)

Module Scenarios.
Import Py G2P Tokenizer.

Example literal_stress : u "ˈ" = [712%N].
Proof. reflexivity. Qed.

Example literal_accents : u "áéíóú" = [225; 233; 237; 243; 250]%N.
Proof. reflexivity. Qed.

Example literal_dashes : u "—–…" = [8212; 8211; 8230]%N.
Proof. reflexivity. Qed.

Example punctuation_count : length _PUNCT_CHARS = 22.
Proof. reflexivity. Qed.

Example vocabulary_count : length get_phoneme_map = 114.
Proof. reflexivity. Qed.

Example transcribe_empty : Ascii.g2p [] = u "//".
Proof. reflexivity. Qed.

Example transcribe_blank : Ascii.g2p (u "   ") = u "//".
Proof. reflexivity. Qed.

Example transcribe_y : Ascii.g2p (u "y") = u "/ i /".
Proof. reflexivity. Qed.

Example transcribe_casa : Ascii.g2p (u "casa") = u "/ kˈasa /".
Proof. reflexivity. Qed.

Example transcribe_nono : Ascii.g2p (u "ñoño") = u "/ ɲˈoɲo /".
Proof. reflexivity. Qed.

Example transcribe_que : Ascii.g2p (u "¿Qué?") = u "/ ¿ kˈe ? /".
Proof. reflexivity. Qed.

Example transcribe_dots : Ascii.g2p (u "Hola... mundo") = u "/ ˈola . . . mˈundo /".
Proof. reflexivity. Qed.

Example transcribe_glide : Ascii.g2p (u "hielo") = u "/ ˈjelo /".
Proof. reflexivity. Qed.

Example tokenize_casa :
  tokenize_ipa (Ascii.g2p (u "casa")) get_phoneme_map true
    = Some ([u " "; u "k"; u "ˈ"; u "a"; u "s"; u "a"; u " "], []).
Proof. reflexivity. Qed.

End Scenarios.
